(** * Knowledge search: connection manager, search aggregator, tool orchestrator

    A shallow embedding of the TypeScript sources
    - [src/lib/search-service.ts]  (class [SearchService]),
    - [src/lib/mcp-client.ts]      (class [MCPClientManager]),
    - [src/lib/bedrock-client.ts]  (class [BedrockClientService]),
    - [src/lib/agent-service.ts]   (class [AgentService]),
    - [src/lib/api-client.ts]      (class [ApiClient]),
    together with the properties their specification states about them,
    and further properties of the code. *)

From Stdlib Require Import ZArith NArith String Ascii Lia.
From stdpp Require Import base option list gmap sorting pretty.

Local Open Scope Z_scope.

(** ** JavaScript strings

    A JavaScript string is a sequence of UTF-16 code units; [substring],
    [length] and [trim] all count code units. *)

Module JS.

Abbreviation jsstring := (list N).

(** An ASCII literal as a sequence of code units. *)
Definition lit (s : string) : jsstring :=
  N_of_ascii <$> list_ascii_of_string s.
Global Arguments lit : simpl never.

(** ECMAScript [WhiteSpace] and [LineTerminator] code units, the ones
    [String.prototype.trim] strips. *)
Definition isWhiteSpace (c : N) : bool :=
  bool_decide (c ∈ [9; 10; 11; 12; 13; 32; 160; 5760; 8232; 8233; 8239;
                    8287; 12288; 65279]%N)
  || ((8192 <=? c)%N && (c <=? 8202)%N).

Fixpoint trimStart (s : jsstring) : jsstring :=
  match s with
  | c :: s' => if isWhiteSpace c then trimStart s' else s
  | [] => []
  end.

Definition trimEnd (s : jsstring) : jsstring :=
  reverse (trimStart (reverse s)).

Definition trim (s : jsstring) : jsstring := trimEnd (trimStart s).

(** [s.substring(0, n)] *)
Definition substring0 (n : nat) (s : jsstring) : jsstring := take n s.

(** Truthiness of a string value: every string but the empty one. *)
Definition truthy (s : jsstring) : bool :=
  match s with [] => false | _ => true end.

(** Truthiness of an optional string property ([undefined] is falsy). *)
Definition truthy_opt (o : option jsstring) : option jsstring :=
  match o with
  | Some s => if truthy s then Some s else None
  | None => None
  end.

(** A query or message is blank when nothing is left after trimming. *)
Definition blank (s : jsstring) : bool :=
  match trim s with [] => true | _ => false end.

(** [s.includes(needle)]: [needle] occurs in [s] as a run of code units. *)
Fixpoint includes (needle s : jsstring) : bool :=
  bool_decide (needle `prefix_of` s)
  || match s with
     | [] => false
     | _ :: s' => includes needle s'
     end.

(** [parts.join(separator)] *)
Fixpoint join (separator : jsstring) (parts : list jsstring) : jsstring :=
  match parts with
  | [] => []
  | [part] => part
  | part :: rest => part ++ separator ++ join separator rest
  end.

End JS.

Import JS.

(** ** Shared types ([src/types/api.ts]) *)

(** [type MCPService = 'notion' | 'asana'] *)
Inductive MCPService := notion | asana.

Global Instance MCPService_eq_dec : EqDecision MCPService.
Proof. solve_decision. Defined.

Definition serviceName (s : MCPService) : jsstring :=
  match s with notion => lit "notion" | asana => lit "asana" end.

(** [interface SearchResult] *)
Module SearchResult.
Record t := mk {
  id : jsstring;
  title : jsstring;
  content : jsstring;
  source : MCPService;
  url : option jsstring;
  lastModified : option jsstring
}.
End SearchResult.

Abbreviation SearchResult := SearchResult.t.

Global Instance SearchResult_eq_dec : EqDecision SearchResult.
Proof. solve_decision. Defined.

(** A thrown value: [new Error(message)] or
    [new ApiError(message, statusCode)] ([class ApiError extends Error]).
    Nothing else is thrown in the modelled code, so [error instanceof
    Error] holds in every [catch]. *)
Inductive Thrown :=
| ThrowError (message : jsstring)
| ThrowApiError (message : jsstring) (statusCode : option Z).

(** [error.message] *)
Definition errorMessage (e : Thrown) : jsstring :=
  match e with
  | ThrowError m => m
  | ThrowApiError m _ => m
  end.

(** A settled promise, as [Promise.allSettled] reports it; the reason of a
    rejection is the [message] of the thrown [Error]. *)
Inductive Settled (A : Type) :=
| Fulfilled (value : A)
| Rejected (reason : jsstring).
Arguments Fulfilled {A} value.
Arguments Rejected {A} reason.

(** ** [Array.prototype.sort]

    ECMAScript fixes the result of [sort] only through the comparator:
    the array is permuted, the order is stable, and [SortCompare] reads a
    [NaN] answer of the comparator as [+0].  The model is the stable
    insertion sort.  On arrays where the comparator is consistent (total
    and transitive on the values of the array) the sorted and stable
    permutation is unique ([Array_sort_unique] below), so every conforming
    engine returns what the model returns.  On an array where the
    comparator is not consistent ECMAScript leaves the order to the engine,
    and an engine may return another list than the model: of the result on
    such an array only that it is a permutation of the array holds of every
    engine, and the order of the model is not a property of the program. *)

Section ArraySort.
Context {A : Type} (comparefn : A → A → option Z).

(** [None] stands for [NaN]. *)
Definition SortCompare (x y : A) : Z := default 0 (comparefn x y).

Fixpoint sortInsert (x : A) (l : list A) : list A :=
  match l with
  | [] => [x]
  | y :: l' =>
      if SortCompare x y <=? 0 then x :: l else y :: sortInsert x l'
  end.

Fixpoint Array_sort (l : list A) : list A :=
  match l with
  | [] => []
  | x :: l' => sortInsert x (Array_sort l')
  end.

(** [x] may stand before [y]. *)
Definition before (x y : A) : Prop := SortCompare x y ≤ 0.

(** [x] and [y] compare equal. *)
Definition tie (x y : A) : Prop := before x y ∧ before y x.

Global Instance before_dec x y : Decision (before x y).
Proof. unfold before. apply _. Defined.

Global Instance tie_dec x y : Decision (tie x y).
Proof. unfold tie. apply _. Defined.

End ArraySort.


(** ** Host functions used by the comparator

    [String.prototype.localeCompare] and [Date] parsing belong to the
    engine.  The search service is parametric in them; the two functions
    below are one concrete host: collation by code units, and [Date]
    parsing restricted to the format [Date.prototype.toISOString] emits,
    [YYYY-MM-DDTHH:mm:ss.sssZ], the one format the backend invoker writes. *)

Fixpoint codeUnitCompare (s t : jsstring) : Z :=
  match s, t with
  | [], [] => 0
  | [], _ :: _ => -1
  | _ :: _, [] => 1
  | c :: s', d :: t' =>
      if (c <? d)%N then -1
      else if (d <? c)%N then 1
      else codeUnitCompare s' t'
  end.

Definition digitValue (c : N) : option Z :=
  if ((48 <=? c) && (c <=? 57))%N then Some (Z.of_N c - 48) else None.

Fixpoint digitsValue (acc : Z) (s : jsstring) : option Z :=
  match s with
  | [] => Some acc
  | c :: s' => d ← digitValue c; digitsValue (10 * acc + d) s'
  end.

(** Days from 1970-01-01 to the civil date [y]-[m]-[d]. *)
Definition daysFromCivil (y m d : Z) : Z :=
  let y' := if m <=? 2 then y - 1 else y in
  let era := y' `div` 400 in
  let yoe := y' - era * 400 in
  let mp := (m + 9) `mod` 12 in
  let doy := (153 * mp + 2) `div` 5 + d - 1 in
  let doe := yoe * 365 + yoe `div` 4 - yoe `div` 100 + doy in
  era * 146097 + doe - 719468.

Definition isLeapYear (y : Z) : bool :=
  ((y `mod` 4 =? 0) && negb (y `mod` 100 =? 0)) || (y `mod` 400 =? 0).

Definition daysInMonth (y m : Z) : Z :=
  if m =? 2 then (if isLeapYear y then 29 else 28)
  else if (m =? 4) || (m =? 6) || (m =? 9) || (m =? 11) then 30
  else 31.

(** [s.substring(i, i + n)] read as a decimal number. *)
Definition field (i n : nat) (s : jsstring) : option Z :=
  let f := take n (drop i s) in
  if decide (length f = n) then digitsValue 0 f else None.

Definition isoGetTime (s : jsstring) : option Z :=
  if decide (length s = 24%nat
             ∧ s !! 4%nat = Some 45%N ∧ s !! 7%nat = Some 45%N
             ∧ s !! 10%nat = Some 84%N
             ∧ s !! 13%nat = Some 58%N ∧ s !! 16%nat = Some 58%N
             ∧ s !! 19%nat = Some 46%N ∧ s !! 23%nat = Some 90%N)
  then
    y ← field 0 4 s; m ← field 5 2 s; d ← field 8 2 s;
    h ← field 11 2 s; mi ← field 14 2 s; sec ← field 17 2 s;
    ms ← field 20 3 s;
    if (1 <=? m) && (m <=? 12) && (1 <=? d) && (d <=? daysInMonth y m)
       && (h <=? 23) && (mi <=? 59) && (sec <=? 59)
    then Some ((((daysFromCivil y m d * 24 + h) * 60 + mi) * 60 + sec)
               * 1000 + ms)
    else None
  else None.

(** [Date.prototype.toISOString] of a time value, for the years 0000 to
    9999, and [String.prototype.toLowerCase] on the letters [A] to [Z]:
    the host of the sample runs. *)
Fixpoint digitsOf (n : nat) (v : Z) : jsstring :=
  match n with
  | O => []
  | S n' => digitsOf n' (v `div` 10) ++ [Z.to_N (48 + v `mod` 10)]
  end.

Definition civilFromDays (days : Z) : Z * Z * Z :=
  let z := days + 719468 in
  let era := z `div` 146097 in
  let doe := z - era * 146097 in
  let yoe :=
    (doe - doe `div` 1460 + doe `div` 36524 - doe `div` 146096) `div` 365 in
  let doy := doe - (365 * yoe + yoe `div` 4 - yoe `div` 100) in
  let mp := (5 * doy + 2) `div` 153 in
  let d := doy - (153 * mp + 2) `div` 5 + 1 in
  let m := if mp <? 10 then mp + 3 else mp - 9 in
  (if m <=? 2 then yoe + era * 400 + 1 else yoe + era * 400, m, d).

Definition isoFormat (t : Z) : jsstring :=
  let ms := t `mod` 86400000 in
  let '(y, m, d) := civilFromDays (t `div` 86400000) in
  digitsOf 4 y ++ lit "-" ++ digitsOf 2 m ++ lit "-" ++ digitsOf 2 d
  ++ lit "T" ++ digitsOf 2 (ms `div` 3600000)
  ++ lit ":" ++ digitsOf 2 ((ms `div` 60000) `mod` 60)
  ++ lit ":" ++ digitsOf 2 ((ms `div` 1000) `mod` 60)
  ++ lit "." ++ digitsOf 3 (ms `mod` 1000) ++ lit "Z".

Definition asciiToLowerCase (s : jsstring) : jsstring :=
  (λ c, if (65 <=? c) && (c <=? 90) then c + 32 else c)%N <$> s.

(** ** Types of the model boundary ([src/lib/bedrock-client.ts]) *)

Inductive Role := user | assistant.

(** A JavaScript value as far as the code inspects it: a string, or
    something else of which only the truthiness matters. *)
Inductive JsValue :=
| VUndefined
| VString (s : jsstring)
| VOther (isTruthy : bool).

(** The input document of a tool use, read through its [query] property,
    the only one [executeMCPTool] looks at. *)
Record ToolInput := { query : JsValue }.

(** The content of a [toolResult] block: [{text}] or [{json}]; the JSON
    payload is the array a tool returned, or [null]. *)
Inductive ToolResultContent :=
| TRText (text : jsstring)
| TRJson (json : option (list SearchResult)).

(** [ContentBlock]: the members the code reads or writes. *)
Inductive ContentBlock :=
| CText (text : jsstring)
| CToolUse (name : option jsstring) (input : option ToolInput)
           (toolUseId : option jsstring)
| CToolResult (toolUseId : jsstring) (content : list ToolResultContent)
| COther.

(** [Message] and [ConversationMessage]; a [content] that is [undefined]
    reads as the empty array ([?? []]) wherever the code reads it. *)
Module Message.
Record t := mk { role : Role; content : list ContentBlock }.
End Message.

(** [Tool]: a [toolSpec] with its name and description; the input schema
    is the same constant object for the three tools and is left out. *)
Module Tool.
Record t := mk { name : jsstring; description : jsstring }.
End Tool.

Inductive StopReason :=
| end_turn | tool_use | max_tokens | stop_sequence
| guardrail_intervened | content_filtered.

#[global] Instance StopReason_eq_dec : EqDecision StopReason.
Proof. solve_decision. Defined.

(** [ConverseCommandInput] *)
Module ConverseCommandInput.
Record t := mk {
  modelId : jsstring;
  messages : list Message.t;
  system : option (list jsstring);
  toolConfig : option (list Tool.t)
}.
End ConverseCommandInput.

(** [ConverseCommandOutput]: [output?.message] and [stopReason]. *)
Module ConverseResponse.
Record t := mk {
  outputMessage : option Message.t;
  stopReason : StopReason
}.
End ConverseResponse.

(** [interface ToolExecutionResult] *)
Module ToolExecutionResult.
Record t := mk {
  toolUseId : jsstring;
  result : option (list SearchResult);
  error : option jsstring
}.
End ToolExecutionResult.

(** A tool use as [converse] hands it on. *)
Module ToolUse.
Record t := mk { name : jsstring; input : ToolInput; toolUseId : jsstring }.
End ToolUse.

(** ** Types of the orchestrator ([src/lib/agent-service.ts]) *)

(** An entry of [AgentConversation.messages]; a [Date] is its time value
    in milliseconds. *)
Module ChatMessage.
Record t := mk {
  role : Role;
  content : jsstring;
  timestamp : Z;
  toolsUsed : option (list jsstring)
}.
End ChatMessage.

Module AgentConversation.
Record t := mk {
  id : jsstring;
  messages : list ChatMessage.t;
  createdAt : Z;
  updatedAt : Z
}.
End AgentConversation.

Module AgentResponse.
Record t := mk {
  response : jsstring;
  toolsUsed : list jsstring;
  searchResults : option (list SearchResult);
  conversationId : jsstring
}.
End AgentResponse.

(** ** The world outside and the state inside

    What the code cannot decide is an answer of the environment: the [n]-th
    reading of the clock, the [n]-th random suffix, how the [n]-th call of
    [mcpClientManager.searchService] and the [n]-th [client.send] settle,
    and the engine's collation and date parsing. *)
Record Environment := {
  now : nat → Z;
  randomSuffix : nat → jsstring;
  searchOutcome :
    nat → MCPService → jsstring → Settled (list SearchResult);
  sendOutcome :
    nat → ConverseCommandInput.t → Settled ConverseResponse.t;
  localeCompare : jsstring → jsstring → Z;
  getTime : jsstring → option Z
}.

(** The calls made so far across the boundary. *)
Record Calls := mkCalls {
  clockReads : nat;
  randomDraws : nat;
  searches : list (MCPService * jsstring);
  sends : list ConverseCommandInput.t
}.

(** The fields of the singleton [bedrockClient]. *)
Record BedrockClient := mkBedrockClient {
  modelId : jsstring;
  conversationHistory : list Message.t
}.

(** The fields of the singleton [agentService].  A conversation is an
    object: [heap] holds the objects by address, and the [Map] holds
    references to them, so that an object keeps its identity when its
    entry is deleted or replaced. *)
Record Agent := mkAgent {
  heap : list AgentConversation.t;
  conversations : gmap jsstring nat;
  systemPrompt : jsstring
}.

Record State := mkState {
  calls : Calls;
  bedrockClient : BedrockClient;
  agentService : Agent
}.

Inductive Completion (A : Type) :=
| Normal (a : A)
| Throw (e : Thrown).
Arguments Normal {A} a.
Arguments Throw {A} e.

(** A computation: it reads the environment, changes the state, and
    completes normally or throws.  One call runs to completion; steps of
    other callers are not interleaved with it. *)
Definition M (A : Type) : Type :=
  Environment → State → Completion A * State.

#[global] Instance M_ret : MRet M := λ A a _ st, (Normal a, st).

#[global] Instance M_bind : MBind M := λ A B k m env st,
  match m env st with
  | (Normal a, st') => k a env st'
  | (Throw e, st') => (Throw e, st')
  end.

Definition throw {A} (e : Thrown) : M A := λ _ st, (Throw e, st).

(** [try { m } catch (error) { handler error }] *)
Definition tryCatch {A} (m : M A) (handler : Thrown → M A) : M A :=
  λ env st,
    match m env st with
    | (Normal a, st') => (Normal a, st')
    | (Throw e, st') => handler e env st'
    end.

(** How a promise settles, as [Promise.allSettled] reports it. *)
Definition settle {A} (m : M A) : M (Settled A) := λ env st,
  match m env st with
  | (Normal a, st') => (Normal (Fulfilled a), st')
  | (Throw e, st') => (Normal (Rejected (errorMessage e)), st')
  end.

Definition ask : M Environment := λ env st, (Normal env, st).
Definition get : M State := λ _ st, (Normal st, st).

Definition modifyCalls (f : Calls → Calls) : M unit := λ _ st,
  (Normal (), mkState (f (calls st)) (bedrockClient st) (agentService st)).

Definition modifyBedrock (f : BedrockClient → BedrockClient) : M unit :=
  λ _ st,
  (Normal (), mkState (calls st) (f (bedrockClient st)) (agentService st)).

Definition modifyAgent (f : Agent → Agent) : M unit := λ _ st,
  (Normal (), mkState (calls st) (bedrockClient st) (f (agentService st))).

(** How an awaited promise completes: a rejection is thrown as the
    [Error] it carries. *)
Definition completionOf {A} (r : Settled A) : Completion A :=
  match r with
  | Fulfilled a => Normal a
  | Rejected reason => Throw (ThrowError reason)
  end.

(** [new Date()] and [Date.now()] *)
Definition readClock : M Z :=
  env ← ask; st ← get;
  modifyCalls (λ c, mkCalls (S (clockReads c)) (randomDraws c)
                            (searches c) (sends c));;
  mret (now env (clockReads (calls st))).

(** [Math.random().toString(36).substr(2, 9)] *)
Definition drawRandom : M jsstring :=
  env ← ask; st ← get;
  modifyCalls (λ c, mkCalls (clockReads c) (S (randomDraws c))
                            (searches c) (sends c));;
  mret (randomSuffix env (randomDraws (calls st))).

(** [mcpClientManager.searchService(service, query)]: the call is made,
    and its promise fulfils with results or rejects with an [Error]. *)
Definition searchService (service : MCPService) (query : jsstring)
  : M (list SearchResult) :=
  env ← ask; st ← get;
  modifyCalls (λ c, mkCalls (clockReads c) (randomDraws c)
                            (searches c ++ [(service, query)]) (sends c));;
  match searchOutcome env (length (searches (calls st))) service query with
  | Fulfilled results => mret results
  | Rejected reason => throw (ThrowError reason)
  end.

(** [this.client.send(new ConverseCommand(input))] *)
Definition send (input : ConverseCommandInput.t) : M ConverseResponse.t :=
  env ← ask; st ← get;
  modifyCalls (λ c, mkCalls (clockReads c) (randomDraws c)
                            (searches c) (sends c ++ [input]));;
  match sendOutcome env (length (sends (calls st))) input with
  | Fulfilled response => mret response
  | Rejected reason => throw (ThrowError reason)
  end.

(** ** [SearchService]: ordering and deduplication of results *)

Module SearchService.
Import SearchResult.

Section Ordering.
Variable localeCompare : jsstring → jsstring → Z.
Variable getTime : jsstring → option Z.

(** The comparator handed to [results.sort] in [sortSearchResults].
    [new Date(s).getTime()] is [NaN] for a string that is no date, and the
    difference of the two times is then [NaN] too ([None]). *)
Definition compareResults (a b : SearchResult) : option Z :=
  match truthy_opt (lastModified a), truthy_opt (lastModified b) with
  | Some sa, Some sb =>
      match getTime sb, getTime sa with
      | Some tb, Some ta => Some (tb - ta)
      | _, _ => None
      end
  | _, _ =>
      if decide (source a ≠ source b)
      then Some (if decide (source a = notion) then -1 else 1)
      else Some (localeCompare (title a) (title b))
  end.

Definition sortSearchResults (results : list SearchResult)
  : list SearchResult :=
  Array_sort compareResults results.

(** The time a result carries, when its [lastModified] is a non-empty
    string that parses as a date. *)
Definition timeOf (r : SearchResult) : option Z :=
  truthy_opt (lastModified r) ≫= getTime.

Definition dated (r : SearchResult) : Prop := is_Some (timeOf r).

Definition undated (r : SearchResult) : Prop :=
  truthy_opt (lastModified r) = None.

(** The place of a service in the configuration ([SERVICE_CONFIGS]). *)
Definition serviceRank (s : MCPService) : Z :=
  match s with notion => 0 | asana => 1 end.

Definition newerFirst (a b : SearchResult) : Prop :=
  match timeOf a, timeOf b with
  | Some ta, Some tb => tb ≤ ta
  | _, _ => False
  end.

Definition sameTime (c r : SearchResult) : Prop := timeOf r = timeOf c.

Definition serviceThenTitle (a b : SearchResult) : Prop :=
  serviceRank (source a) < serviceRank (source b)
  ∨ (source a = source b ∧ localeCompare (title a) (title b) ≤ 0).

Definition sameServiceAndTitle (c r : SearchResult) : Prop :=
  source c = source r
  ∧ localeCompare (title c) (title r) ≤ 0
  ∧ localeCompare (title r) (title c) ≤ 0.

#[global] Instance sameTime_dec c r : Decision (sameTime c r).
Proof. unfold sameTime. apply _. Defined.

#[global] Instance sameServiceAndTitle_dec c r :
  Decision (sameServiceAndTitle c r).
Proof. unfold sameServiceAndTitle. apply _. Defined.

(** What the specification asks of the order of a sorted list. *)
Definition present (r : SearchResult) : Prop :=
  is_Some (truthy_opt (lastModified r)).

Definition presentBeforeAbsent (l : list SearchResult) : Prop :=
  ∀ (i j : nat) a b,
    l !! i = Some a → l !! j = Some b →
    present b → ¬ present a → (j < i)%nat.

(** The order the specification words: present before absent, newer
    first, then the service in configuration order, then the title. *)
Definition specifiedOrder (a b : SearchResult) : Prop :=
  match truthy_opt (lastModified a) ≫= getTime,
        truthy_opt (lastModified b) ≫= getTime with
  | Some ta, Some tb =>
      tb < ta
      ∨ (tb = ta
         ∧ (serviceRank (source a) < serviceRank (source b)
            ∨ (source a = source b
               ∧ localeCompare (title a) (title b) ≤ 0)))
  | Some _, None => True
  | None, Some _ => False
  | None, None =>
      serviceRank (source a) < serviceRank (source b)
      ∨ (source a = source b ∧ localeCompare (title a) (title b) ≤ 0)
  end.

End Ordering.

(** [deduplicateResults]: the key of a result and the loop over the
    results, with the [seen] set and the [deduplicated] array it fills. *)
Definition resultKey (result : SearchResult) : jsstring :=
  serviceName (source result) ++ lit "-" ++ title result ++ lit "-"
  ++ substring0 100 (content result).

Fixpoint deduplicateLoop (seen : gset jsstring)
    (deduplicated results : list SearchResult) : list SearchResult :=
  match results with
  | [] => deduplicated
  | result :: rest =>
      let key := resultKey result in
      if decide (key ∈ seen)
      then deduplicateLoop seen deduplicated rest
      else deduplicateLoop ({[key]} ∪ seen) (deduplicated ++ [result]) rest
  end.

Definition deduplicateResults (results : list SearchResult)
  : list SearchResult :=
  deduplicateLoop ∅ [] results.

(** The triple the specification calls the key of a result. *)
Definition keyTriple (r : SearchResult)
  : MCPService * jsstring * jsstring :=
  (source r, title r, substring0 100 (content r)).

(** The results whose key has not occurred before, in the order of the
    input: what the loop leaves in [deduplicated]. *)
Fixpoint firstOccurrences (seen : gset jsstring)
    (results : list SearchResult) : list SearchResult :=
  match results with
  | [] => []
  | result :: rest =>
      if decide (resultKey result ∈ seen)
      then firstOccurrences seen rest
      else result :: firstOccurrences ({[resultKey result]} ∪ seen) rest
  end.

(** The values of the fulfilled promise, nothing for a rejected one:
    [if (r.status === 'fulfilled') allResults.push(...r.value)]. *)
Definition fulfilledValues {A} (r : Settled (list A)) : list A :=
  match r with
  | Fulfilled value => value
  | Rejected _ => []
  end.

(** How the two backend calls of one [search] settle: they are the next
    two calls of [searchService] in the run. *)
Definition notionOutcome (env : Environment) (st : State) (q : jsstring)
  : Settled (list SearchResult) :=
  searchOutcome env (length (searches (calls st))) notion q.

Definition asanaOutcome (env : Environment) (st : State) (q : jsstring)
  : Settled (list SearchResult) :=
  searchOutcome env (S (length (searches (calls st)))) asana q.

(** [search(query)] *)
Definition search (query : jsstring) : M (list SearchResult) :=
  if negb (truthy query) || blank query
  then throw (ThrowApiError (lit "Search query cannot be empty") None)
  else
    let trimmedQuery := trim query in
    tryCatch
      (notionResults ← settle (searchService notion trimmedQuery);
       asanaResults ← settle (searchService asana trimmedQuery);
       let allResults :=
         fulfilledValues notionResults ++ fulfilledValues asanaResults in
       env ← ask;
       mret (sortSearchResults (localeCompare env) (getTime env) allResults))
      (λ error,
         throw (ThrowApiError (lit "Search failed: " ++ errorMessage error)
                              (Some 500))).

(** [filterBySource(results, source)] *)
Definition filterBySource (results : list SearchResult)
    (source : MCPService) : list SearchResult :=
  filter (λ result, SearchResult.source result = source) results.

(** What [getSearchStats] returns. *)
Module SearchStats.
Record t := mk { total : nat; notion : nat; asana : nat }.
End SearchStats.

(** [getSearchStats(results)] *)
Definition getSearchStats (results : list SearchResult) : SearchStats.t :=
  let notion :=
    length (filter (λ r, SearchResult.source r = notion) results) in
  let asana :=
    length (filter (λ r, SearchResult.source r = asana) results) in
  SearchStats.mk (length results) notion asana.

End SearchService.

(** ** [BedrockClientService]: the model invoker *)

Module BedrockClientService.

(** What [converse] resolves to. *)
Record ConverseResult := mkConverseResult {
  response : jsstring;
  toolUses : list ToolUse.t;
  needsToolExecution : bool
}.

(** The text blocks with a non-empty text, joined. *)
Definition textOf (content : list ContentBlock) : jsstring :=
  concat (omap (λ block,
                  match block with
                  | CText text => if truthy text then Some text else None
                  | _ => None
                  end) content).

(** The [toolUse] blocks that carry a name and an id. *)
Definition toolUsesOf (content : list ContentBlock) : list ToolUse.t :=
  omap (λ block,
          match block with
          | CToolUse (Some name) input (Some toolUseId) =>
              if truthy name && truthy toolUseId
              then Some (ToolUse.mk name
                           (default {| query := VUndefined |} input)
                           toolUseId)
              else None
          | _ => None
          end) content.

Definition contentOf (response : ConverseResponse.t) : list ContentBlock :=
  match ConverseResponse.outputMessage response with
  | Some m => Message.content m
  | None => []
  end.

(** [this.conversationHistory.push(message)] *)
Definition pushHistory (m : Message.t) : M unit :=
  modifyBedrock (λ b, mkBedrockClient (modelId b)
                                      (conversationHistory b ++ [m])).

(** The assistant message is recorded when the response carries one. *)
Definition pushAssistant (response : ConverseResponse.t) : M unit :=
  match ConverseResponse.outputMessage response with
  | Some m => pushHistory (Message.mk assistant (Message.content m))
  | None => mret ()
  end.

(** [converse(userMessage, tools, systemPrompt)] *)
Definition converse (userMessage : jsstring) (tools : list Tool.t)
    (systemPrompt : option jsstring) : M ConverseResult :=
  tryCatch
    (st ← get;
     let messages :=
       conversationHistory (bedrockClient st)
       ++ [Message.mk user [CText userMessage]] in
     let input :=
       ConverseCommandInput.mk
         (modelId (bedrockClient st))
         messages
         (match truthy_opt systemPrompt with
          | Some p => Some [p]
          | None => None
          end)
         (match tools with [] => None | _ :: _ => Some tools end) in
     response ← send input;
     let content := contentOf response in
     let textResponses := textOf content in
     let toolUses := toolUsesOf content in
     pushHistory (Message.mk user [CText userMessage]);;
     pushAssistant response;;
     mret (mkConverseResult textResponses toolUses
             (bool_decide (ConverseResponse.stopReason response = tool_use)
              && bool_decide (0 < length toolUses)%nat)))
    (λ error,
       throw (ThrowError (lit "LLM conversation failed: "
                          ++ errorMessage error))).

(** The [toolResult] block of one result: the error text when the result
    has a (truthy) [error], the JSON payload otherwise. *)
Definition toolResultBlock (result : ToolExecutionResult.t) : ContentBlock :=
  CToolResult (ToolExecutionResult.toolUseId result)
    (match truthy_opt (ToolExecutionResult.error result) with
     | Some e => [TRText (lit "Error: " ++ e)]
     | None => [TRJson (ToolExecutionResult.result result)]
     end).

(** [continueWithToolResults(toolResults)] *)
Definition continueWithToolResults
    (toolResults : list ToolExecutionResult.t) : M jsstring :=
  tryCatch
    (let toolResultContent := toolResultBlock <$> toolResults in
     pushHistory (Message.mk user toolResultContent);;
     st ← get;
     let input :=
       ConverseCommandInput.mk (modelId (bedrockClient st))
         (conversationHistory (bedrockClient st)) None None in
     response ← send input;
     let textResponse := textOf (contentOf response) in
     pushAssistant response;;
     mret textResponse)
    (λ error,
       throw (ThrowError (lit "Tool result processing failed: "
                          ++ errorMessage error))).

(** [clearHistory()] *)
Definition clearHistory : M unit :=
  modifyBedrock (λ b, mkBedrockClient (modelId b) []).

(** [getHistory()]: a copy of the array, with the messages it holds. *)
Definition getHistory : M (list Message.t) :=
  st ← get; mret (conversationHistory (bedrockClient st)).

(** [getConversationLength()] *)
Definition getConversationLength : M nat :=
  st ← get; mret (length (conversationHistory (bedrockClient st))).

(** [setModel(modelId)] *)
Definition setModel (newModelId : jsstring) : M unit :=
  modifyBedrock (λ b, mkBedrockClient newModelId (conversationHistory b)).

(** [getModelId()] *)
Definition getModelId : M jsstring :=
  st ← get; mret (modelId (bedrockClient st)).

End BedrockClientService.

(** ** [AgentService]: the tool orchestrator *)

Module AgentService.
Import BedrockClientService.

Definition newline : jsstring := [10%N].

(** The initial value of the field [systemPrompt]. *)
Definition defaultSystemPrompt : jsstring :=
  lit "You are a knowledgeable AI assistant with access to search tools for Notion and Asana. " ++ newline
  ++ lit "You can help users find information across their connected services." ++ newline
  ++ newline
  ++ lit "Available tools:" ++ newline
  ++ lit "- searchNotion: Search through Notion pages and databases" ++ newline
  ++ lit "- searchAsana: Search through Asana projects and tasks" ++ newline
  ++ lit "- searchAll: Search across both Notion and Asana simultaneously" ++ newline
  ++ newline
  ++ lit "When users ask questions, use the appropriate search tools to find relevant information. " ++ newline
  ++ lit "Always provide helpful, accurate responses based on the search results." ++ newline
  ++ lit "If no relevant information is found, let the user know and suggest alternative approaches." ++ newline
  ++ newline
  ++ lit "Be conversational and helpful, and always cite the source of information when presenting search results.".

(** The state in which the module's singletons are constructed. *)
Definition initialState (model : jsstring) : State :=
  mkState (mkCalls 0 0 [] [])
          (mkBedrockClient model [])
          (mkAgent [] ∅ defaultSystemPrompt).

(** The default [modelId] of the constructor. *)
Definition defaultModelId : jsstring :=
  lit "anthropic.claude-3-5-sonnet-20240620-v1:0".

(** [createConversation()] *)
Definition createConversation : M jsstring :=
  t ← readClock;
  r ← drawRandom;
  let conversationId := lit "conv_" ++ lit (pretty t) ++ lit "_" ++ r in
  createdAt ← readClock;
  updatedAt ← readClock;
  let conversation :=
    AgentConversation.mk conversationId [] createdAt updatedAt in
  modifyAgent (λ a,
    mkAgent (heap a ++ [conversation])
            (<[conversationId := length (heap a)]> (conversations a))
            (systemPrompt a));;
  mret conversationId.

(** [getMCPToolSpecs()] *)
Definition getMCPToolSpecs : list Tool.t :=
  [ Tool.mk (lit "searchNotion")
      (lit "Search through Notion pages, databases, and content for specific information");
    Tool.mk (lit "searchAsana")
      (lit "Search through Asana projects, tasks, and content for specific information");
    Tool.mk (lit "searchAll")
      (lit "Search across both Notion and Asana simultaneously for comprehensive results") ].

(** [executeMCPTool(toolName, input)] *)
Definition executeMCPTool (toolName : jsstring) (input : ToolInput)
  : M (list SearchResult) :=
  match query input with
  | VString q =>
      if truthy q then
        if decide (toolName = lit "searchNotion") then
          searchService notion q
        else if decide (toolName = lit "searchAsana") then
          searchService asana q
        else if decide (toolName = lit "searchAll") then
          notionResults ← settle (searchService notion q);
          asanaResults ← settle (searchService asana q);
          mret (SearchService.fulfilledValues notionResults
                ++ SearchService.fulfilledValues asanaResults)
        else throw (ThrowError (lit "Unknown tool: " ++ toolName))
      else
        throw (ThrowError
                 (lit "Query parameter is required and must be a string"))
  | _ =>
      throw (ThrowError
               (lit "Query parameter is required and must be a string"))
  end.

(** The three arrays the tool loop of [chat] fills. *)
Record ToolRun := mkToolRun {
  toolResults : list ToolExecutionResult.t;
  toolsUsed : list jsstring;
  searchResults : list SearchResult
}.

(** The body of [for (const toolUse of llmResponse.toolUses)]: the [try]
    block, and the [catch] block that records the failure. *)
Definition toolStep (toolUse : ToolUse.t) (run : ToolRun) : M ToolRun :=
  tryCatch
    (result ← executeMCPTool (ToolUse.name toolUse) (ToolUse.input toolUse);
     mret (mkToolRun
             (toolResults run
              ++ [ToolExecutionResult.mk (ToolUse.toolUseId toolUse)
                    (Some result) None])
             (toolsUsed run ++ [ToolUse.name toolUse])
             (match result with
              | [] => searchResults run
              | _ :: _ => searchResults run ++ result
              end)))
    (λ error,
       mret (mkToolRun
               (toolResults run
                ++ [ToolExecutionResult.mk (ToolUse.toolUseId toolUse)
                      None (Some (errorMessage error))])
               (toolsUsed run)
               (searchResults run))).

Fixpoint toolLoop (toolUses : list ToolUse.t) (run : ToolRun) : M ToolRun :=
  match toolUses with
  | [] => mret run
  | toolUse :: rest => run' ← toolStep toolUse run; toolLoop rest run'
  end.

(** [conversation.messages.push(m)] on the object at [addr]. *)
Definition pushMessage (addr : nat) (m : ChatMessage.t) : M unit :=
  modifyAgent (λ a,
    mkAgent
      (alter (λ c, AgentConversation.mk (AgentConversation.id c)
                     (AgentConversation.messages c ++ [m])
                     (AgentConversation.createdAt c)
                     (AgentConversation.updatedAt c)) addr (heap a))
      (conversations a) (systemPrompt a)).

(** [conversation.updatedAt = t] on the object at [addr]. *)
Definition setUpdatedAt (addr : nat) (t : Z) : M unit :=
  modifyAgent (λ a,
    mkAgent
      (alter (λ c, AgentConversation.mk (AgentConversation.id c)
                     (AgentConversation.messages c)
                     (AgentConversation.createdAt c) t) addr (heap a))
      (conversations a) (systemPrompt a)).

(** [this.conversations.get(conversationId)]: the address of the object
    the entry refers to. *)
Definition lookupConversation (st : State) (conversationId : jsstring)
  : option nat :=
  addr ← conversations (agentService st) !! conversationId;
  _ ← heap (agentService st) !! addr;
  Some addr.

(** The first part of [chat]: a conversation is created when no id is
    given, and the id is looked up. *)
Definition resolveConversation (conversationId : option jsstring)
  : M (jsstring * nat) :=
  conversationId ←
    match truthy_opt conversationId with
    | None => createConversation
    | Some c => mret c
    end;
  st ← get;
  match lookupConversation st conversationId with
  | None => throw (ThrowApiError (lit "Conversation not found") None)
  | Some addr => mret (conversationId, addr)
  end.

(** The end of the [try] block of [chat]: the conversation history is
    updated with the two messages, [updatedAt] is set, and the response
    is built. *)
Definition recordAndReturn (message conversationId : jsstring) (addr : nat)
    (finalResponse : jsstring) (run : ToolRun) : M AgentResponse.t :=
  tUser ← readClock;
  pushMessage addr (ChatMessage.mk user message tUser None);;
  tAssistant ← readClock;
  pushMessage addr
    (ChatMessage.mk assistant finalResponse tAssistant
       (match toolsUsed run with
        | [] => None
        | _ :: _ => Some (toolsUsed run)
        end));;
  tUpdated ← readClock;
  setUpdatedAt addr tUpdated;;
  mret (AgentResponse.mk finalResponse (toolsUsed run)
          (match searchResults run with
           | [] => None
           | _ :: _ => Some (searchResults run)
           end)
          conversationId).

(** The [try] block of [chat], for the conversation object at [addr]. *)
Definition chatTurn (message conversationId : jsstring) (addr : nat)
  : M AgentResponse.t :=
  let tools := getMCPToolSpecs in
  st ← get;
  llmResponse ← converse message tools (Some (systemPrompt (agentService st)));
  '(finalResponse, run) ←
    (if needsToolExecution llmResponse
        && bool_decide (0 < length (toolUses llmResponse))%nat
     then
       run ← toolLoop (toolUses llmResponse) (mkToolRun [] [] []);
       finalResponse ← continueWithToolResults (toolResults run);
       mret (finalResponse, run)
     else mret (response llmResponse, mkToolRun [] [] []));
  recordAndReturn message conversationId addr finalResponse run.

(** [chat(message, conversationId?)] *)
Definition chat (message : jsstring) (conversationId : option jsstring)
  : M AgentResponse.t :=
  if negb (truthy message) || blank message
  then throw (ThrowApiError (lit "Message cannot be empty") None)
  else
    '(conversationId, addr) ← resolveConversation conversationId;
    tryCatch
      (chatTurn message conversationId addr)
      (λ error,
         throw (ThrowApiError (lit "Agent conversation failed: "
                               ++ errorMessage error) None)).

(** [getConversation(conversationId)] *)
Definition getConversation (conversationId : jsstring)
  : M (option AgentConversation.t) :=
  st ← get;
  mret (addr ← conversations (agentService st) !! conversationId;
        heap (agentService st) !! addr).

(** [clearConversation(conversationId)] *)
Definition clearConversation (conversationId : jsstring) : M bool :=
  st ← get;
  match lookupConversation st conversationId with
  | Some _ =>
      clearHistory;;
      modifyAgent (λ a, mkAgent (heap a)
                                (delete conversationId (conversations a))
                                (systemPrompt a));;
      mret true
  | None => mret false
  end.

(** [clearAllConversations()] *)
Definition clearAllConversations : M unit :=
  modifyAgent (λ a, mkAgent (heap a) ∅ (systemPrompt a));;
  clearHistory.

(** [setSystemPrompt(prompt)] *)
Definition setSystemPrompt (prompt : jsstring) : M unit :=
  modifyAgent (λ a, mkAgent (heap a) (conversations a) prompt).

(** The calls a user of the service can make. *)
Inductive Operation :=
| OpCreateConversation
| OpChat (message : jsstring) (conversationId : option jsstring)
| OpGetConversation (conversationId : jsstring)
| OpClearConversation (conversationId : jsstring)
| OpClearAllConversations
| OpSetSystemPrompt (prompt : jsstring).

(** One call, its result dropped. *)
Definition perform (op : Operation) : M unit :=
  match op with
  | OpCreateConversation => createConversation;; mret ()
  | OpChat message conversationId => chat message conversationId;; mret ()
  | OpGetConversation c => getConversation c;; mret ()
  | OpClearConversation c => clearConversation c;; mret ()
  | OpClearAllConversations => clearAllConversations
  | OpSetSystemPrompt p => setSystemPrompt p
  end.

(** The states the service reaches from its construction: after a call
    has completed or thrown, the next one starts. *)
Inductive reachable (env : Environment) : State → Prop :=
| reachable_initial model : reachable env (initialState model)
| reachable_perform st op :
    reachable env st → reachable env (perform op env st).2.

(** The conversation transcript as the model invoker would receive it:
    each entry a message with one text block. *)
Definition transcriptOf (c : AgentConversation.t) : list Message.t :=
  (λ m, Message.mk (ChatMessage.role m) [CText (ChatMessage.content m)])
    <$> AgentConversation.messages c.

(** [getSystemPrompt()] *)
Definition getSystemPrompt : M jsstring :=
  st ← get; mret (systemPrompt (agentService st)).

End AgentService.

(** ** [MCPClientManager]: the connection manager

    [getClient] is an [async] function: it runs up to its [await], and its
    continuation runs after the awaited promise has settled.  Between the
    two, other callers run.  The manager is therefore modelled by the
    segments that run without interruption, as events on its state. *)

#[global] Instance MCPService_countable : Countable MCPService.
Proof.
  refine (inj_countable' (λ s, match s with notion => true | asana => false end)
                         (λ b : bool, if b then notion else asana) _).
  by intros [].
Defined.

Module MCPClientManager.

(** The promise [createClient] returns. *)
Inductive PromiseState :=
| Unsettled
| Connected
| Failed (reason : jsstring).

(** One call of [createClient]: the service, the state of its promise,
    and whether the continuation of the [getClient] call that made it has
    run.  The [Client] object an attempt creates is named by the attempt. *)
Record Attempt := mkAttempt {
  attemptService : MCPService;
  promiseState : PromiseState;
  resumed : bool
}.

(** The two [Map]s of the manager, every [createClient] call so far, and
    the attempts that called [client.connect]. *)
Record Manager := mkManager {
  clients : gmap MCPService nat;
  connectionPromises : gmap MCPService nat;
  attempts : list Attempt;
  connectCalls : list nat
}.

Definition initial : Manager := mkManager ∅ ∅ [] [].

(** What a [getClient] call does before it yields: it resolves with the
    stored client, waits for the promise in progress, or starts an
    attempt and waits for it. *)
Inductive GetClientResult :=
| Existing (client : nat)
| Joined (promise : nat)
| Created (promise : nat).

Definition getClient (service : MCPService) (m : Manager)
  : GetClientResult * Manager :=
  match clients m !! service with
  | Some existingClient => (Existing existingClient, m)
  | None =>
      match connectionPromises m !! service with
      | Some existingPromise => (Joined existingPromise, m)
      | None =>
          let connectionPromise := length (attempts m) in
          (Created connectionPromise,
           mkManager (clients m)
                     (<[service := connectionPromise]> (connectionPromises m))
                     (attempts m ++ [mkAttempt service Unsettled false])
                     (connectCalls m))
      end
  end.

(** [createClient(service)], given how [oauthService.getToken] and
    [client.connect] settle: the state its promise settles to, and whether
    [client.connect] was called. *)
Definition createClient (service : MCPService)
    (token : Settled (option jsstring)) (connect : Settled unit)
  : PromiseState * bool :=
  let failed reason :=
    Failed (lit "Failed to connect to " ++ serviceName service ++ lit ": "
            ++ reason) in
  match token with
  | Rejected reason => (failed reason, false)
  | Fulfilled None =>
      (failed (lit "No OAuth token available for " ++ serviceName service
               ++ lit ". Please authenticate first."), false)
  | Fulfilled (Some _) =>
      match connect with
      | Fulfilled _ => (Connected, true)
      | Rejected reason => (failed reason, true)
      end
  end.

Definition setAttempt (p : nat) (a : Attempt) (m : Manager) : Manager :=
  mkManager (clients m) (connectionPromises m) (<[p := a]> (attempts m))
            (connectCalls m).

(** The promise of attempt [p] settles. *)
Definition settleAttempt (p : nat) (token : Settled (option jsstring))
    (connect : Settled unit) (m : Manager) : option Manager :=
  match attempts m !! p with
  | Some (mkAttempt service Unsettled r) =>
      let '(outcome, called) := createClient service token connect in
      Some (mkManager (clients m) (connectionPromises m)
              (<[p := mkAttempt service outcome r]> (attempts m))
              (if called then connectCalls m ++ [p] else connectCalls m))
  | _ => None
  end.

(** The continuation of the [getClient] call that started attempt [p]:
    the [try] branch after [await connectionPromise], or the [catch]. *)
Definition resumeCreator (p : nat) (m : Manager) : option Manager :=
  match attempts m !! p with
  | Some (mkAttempt service Connected false) =>
      Some (mkManager (<[service := p]> (clients m))
                      (delete service (connectionPromises m))
                      (<[p := mkAttempt service Connected true]> (attempts m))
                      (connectCalls m))
  | Some (mkAttempt service (Failed reason) false) =>
      Some (mkManager (clients m)
                      (delete service (connectionPromises m))
                      (<[p := mkAttempt service (Failed reason) true]>
                         (attempts m))
                      (connectCalls m))
  | _ => None
  end.

(** [this.clients.delete(service)] *)
Definition evict (service : MCPService) (m : Manager) : Manager :=
  mkManager (delete service (clients m)) (connectionPromises m)
            (attempts m) (connectCalls m).

Record ConnectionStatus := mkStatus { connected : bool; needsAuth : bool }.

(** [getConnectionStatus(service)], given how
    [oauthService.isAuthenticated] settles and how [listTools] settles on
    a client. *)
Definition getConnectionStatus (service : MCPService)
    (isAuthenticated : Settled bool) (listTools : nat → Settled unit)
    (m : Manager) : ConnectionStatus * Manager :=
  match isAuthenticated with
  | Rejected _ => (mkStatus false true, m)
  | Fulfilled false => (mkStatus false true, m)
  | Fulfilled true =>
      match clients m !! service with
      | Some client =>
          match listTools client with
          | Fulfilled _ => (mkStatus true false, m)
          | Rejected _ => (mkStatus false false, evict service m)
          end
      | None => (mkStatus false false, m)
      end
  end.

(** [disconnect(service)], given how [close] settles on a client. *)
Definition disconnect (service : MCPService) (close : nat → Settled unit)
    (m : Manager) : Completion unit * Manager :=
  match clients m !! service with
  | Some client =>
      match close client with
      | Fulfilled _ => (Normal (), evict service m)
      | Rejected reason => (Throw (ThrowError reason), m)
      end
  | None => (Normal (), m)
  end.

(** The segments that run on the manager. *)
Inductive Event :=
| EvGetClient (service : MCPService)
| EvSettle (p : nat) (token : Settled (option jsstring))
           (connect : Settled unit)
| EvResume (p : nat)
| EvStatus (service : MCPService) (isAuthenticated : Settled bool)
           (listTools : nat → Settled unit)
| EvDisconnect (service : MCPService) (close : nat → Settled unit).

Definition step (e : Event) (m : Manager) : option Manager :=
  match e with
  | EvGetClient service => Some (getClient service m).2
  | EvSettle p token connect => settleAttempt p token connect m
  | EvResume p => resumeCreator p m
  | EvStatus service auth listTools =>
      Some (getConnectionStatus service auth listTools m).2
  | EvDisconnect service close => Some (disconnect service close m).2
  end.

Fixpoint run (events : list Event) (m : Manager) : option Manager :=
  match events with
  | [] => Some m
  | e :: rest => m' ← step e m; run rest m'
  end.

Inductive reachable : Manager → Prop :=
| reachable_initial : reachable initial
| reachable_step m e m' : reachable m → step e m = Some m' → reachable m'.

(** Attempt [p] is in flight for [service]: started, and the continuation
    of its creator has not run. *)
Definition inFlight (m : Manager) (service : MCPService) (p : nat) : Prop :=
  ∃ st, attempts m !! p = Some (mkAttempt service st false).

(** The number of [createClient] calls made for [service]. *)
Definition attemptsFor (service : MCPService) (m : Manager) : nat :=
  length (filter (λ a, attemptService a = service) (attempts m)).

(** The invariant of the manager: the promises in the [Map] are the
    attempts in flight, a service with a stored client has no promise in
    the [Map], and [client.connect] has been called at most once per
    attempt, and only by attempts that have settled. *)
Definition wellFormed (m : Manager) : Prop :=
  (∀ s p, connectionPromises m !! s = Some p ↔ inFlight m s p)
  ∧ (∀ s c, clients m !! s = Some c → connectionPromises m !! s = None)
  ∧ NoDup (connectCalls m)
  ∧ (∀ p, p ∈ connectCalls m →
       ∃ a, attempts m !! p = Some a ∧ promiseState a ≠ Unsettled).

(** [disconnectAll()], given how [close] settles on a client.  Every
    [disconnect] is started, so every client is closed, and a client whose
    [close] has fulfilled is deleted whatever the others do.  The result
    lists the services whose [close] rejected, with the reasons:
    [Promise.all] fulfils when there is none and rejects with one of the
    reasons otherwise. *)
Definition disconnectAll (close : nat → Settled unit) (m : Manager)
  : list (MCPService * jsstring) * Manager :=
  let services := (map_to_list (clients m)).*1 in
  foldl (λ acc service,
           match disconnect service close acc.2 with
           | (Normal _, m') => (acc.1, m')
           | (Throw e, m') => (acc.1 ++ [(service, errorMessage e)], m')
           end)
        ([], m) services.

(** [await this.getClient(service)] by a caller that runs alone: the
    call, the attempt it starts settling, and the continuation of the
    call.  A caller that joins an attempt in flight waits for another
    caller, which a run of one caller does not have ([None]). *)
Definition acquire (service : MCPService)
    (token : Settled (option jsstring)) (connect : Settled unit)
    (m : Manager) : option (Settled nat * Manager) :=
  match getClient service m with
  | (Existing client, m1) => Some (Fulfilled client, m1)
  | (Joined _, _) => None
  | (Created p, m1) =>
      m2 ← settleAttempt p token connect m1;
      m3 ← resumeCreator p m2;
      a ← attempts m3 !! p;
      match promiseState a with
      | Connected => Some (Fulfilled p, m3)
      | Failed reason => Some (Rejected reason, m3)
      | Unsettled => None
      end
  end.

(** *** [searchService]: the search on one backend

    What the MCP server answers on a client, and what the engine answers,
    are given: the tools and the resources it lists, the content a tool
    call returns, the lower-case form of a name, the readings of the
    clock, the text of a random number and the ISO form of a time. *)

Module McpTool.
Record t := mk { name : jsstring }.
End McpTool.

(** An item of the [content] of a tool result. *)
Module ContentItem.
Record t := mk { type : jsstring; text : option jsstring }.
End ContentItem.

(** [searchResult.content]: absent, an array, or a single item. *)
Inductive ToolContent :=
| ContentAbsent
| ContentArray (items : list ContentItem.t)
| ContentSingle (item : ContentItem.t).

Module Resource.
Record t := mk {
  uri : jsstring;
  name : option jsstring;
  description : option jsstring
}.
End Resource.

(** The answers of the server on one client: [listTools()] with its
    optional [tools], [callTool({name, arguments: {query}})] with its
    [content], and [listResources()] with its optional [resources]. *)
Record Session := {
  listTools : Settled (option (list McpTool.t));
  callTool : jsstring → jsstring → Settled ToolContent;
  listResources : Settled (option (list Resource.t))
}.

(** The answers of the engine during one call: [toLowerCase], the [n]-th
    reading of the clock, the text of the [n]-th [Math.random()], and
    [toISOString] of a time. *)
Record Host := {
  toLowerCase : jsstring → jsstring;
  clock : nat → Z;
  randomText : nat → jsstring;
  toISOString : Z → jsstring
}.

(** The test of [tools.tools?.find]. *)
Definition isSearchTool (host : Host) (tool : McpTool.t) : bool :=
  includes (lit "search") (toLowerCase host (McpTool.name tool))
  || includes (lit "find") (toLowerCase host (McpTool.name tool)).

(** The result pushed for a text item, after [reads] readings of the
    clock and [draws] random numbers. *)
Definition textResult (host : Host) (service : MCPService)
    (item : ContentItem.t) (reads draws : nat) : SearchResult :=
  SearchResult.mk
    (serviceName service ++ lit "-" ++ lit (pretty (clock host reads))
     ++ lit "-" ++ randomText host draws)
    (lit "Search result from " ++ serviceName service)
    (default (lit "No content available")
             (truthy_opt (ContentItem.text item)))
    service
    None
    (Some (toISOString host (clock host (S reads)))).

(** [for (const item of content)], with the array [results] it fills. *)
Fixpoint collectLoop (host : Host) (service : MCPService)
    (results : list SearchResult) (content : list ContentItem.t)
    (reads draws : nat) : list SearchResult :=
  match content with
  | [] => results
  | item :: rest =>
      if decide (ContentItem.type item = lit "text")
      then collectLoop host service
             (results ++ [textResult host service item reads draws])
             rest (S (S reads)) (S draws)
      else collectLoop host service results rest reads draws
  end.

(** The results of a tool call with content [content]. *)
Definition contentResults (host : Host) (service : MCPService)
    (content : ToolContent) : list SearchResult :=
  match content with
  | ContentAbsent => []
  | ContentArray items => collectLoop host service [] items 0 0
  | ContentSingle item => collectLoop host service [] [item] 0 0
  end.

(** The callback of [resources.resources?.slice(0, 5).map]. *)
Definition resourceResult (host : Host) (service : MCPService)
    (index : nat) (resource : Resource.t) : SearchResult :=
  SearchResult.mk
    (serviceName service ++ lit "-resource-" ++ lit (pretty index))
    (default (Resource.uri resource) (truthy_opt (Resource.name resource)))
    (default (lit "No description available")
             (truthy_opt (Resource.description resource)))
    service
    (Some (Resource.uri resource))
    (Some (toISOString host (clock host index))).

Definition resourceResults (host : Host) (service : MCPService)
    (resources : option (list Resource.t)) : list SearchResult :=
  match resources with
  | Some resources => imap (resourceResult host service) (take 5 resources)
  | None => []
  end.

(** The body of the [try] block after the client has been acquired. *)
Definition searchWith (host : Host) (session : Session)
    (service : MCPService) (query : jsstring)
  : Settled (list SearchResult) :=
  match listTools session with
  | Rejected reason => Rejected reason
  | Fulfilled tools =>
      match tools ≫= List.find (isSearchTool host) with
      | Some searchTool =>
          match callTool session (McpTool.name searchTool) query with
          | Rejected reason => Rejected reason
          | Fulfilled content => Fulfilled (contentResults host service content)
          end
      | None =>
          match listResources session with
          | Rejected reason => Rejected reason
          | Fulfilled resources =>
              Fulfilled (resourceResults host service resources)
          end
      end
  end.

(** [searchService(service, query)] of the manager, given how the token
    and the connection settle when a client has to be created, and the
    session of every client. *)
Definition searchService (host : Host) (sessions : nat → Session)
    (service : MCPService) (query : jsstring)
    (token : Settled (option jsstring)) (connect : Settled unit)
    (m : Manager)
  : option (Settled (list SearchResult) * Manager) :=
  '(client, m') ← acquire service token connect m;
  let attempt :=
    match client with
    | Rejected reason => Rejected reason
    | Fulfilled client => searchWith host (sessions client) service query
    end in
  Some (match attempt with
        | Fulfilled results => Fulfilled results
        | Rejected reason =>
            Rejected (lit "Search failed for " ++ serviceName service
                      ++ lit ": " ++ reason)
        end,
        m').

End MCPClientManager.

(** ** [SearchService]: the operations on the connections

    The methods of [SearchService] that go through the connection
    manager act on the manager's state. *)

Module Connections.
Import MCPClientManager.

(** [interface OAuthStatus] *)
Record OAuthStatus := mkOAuthStatus {
  notionStatus : ConnectionStatus;
  asanaStatus : ConnectionStatus
}.

(** [interface HealthStatus] *)
Record HealthStatus := mkHealthStatus {
  success : bool;
  message : jsstring;
  timestamp : jsstring
}.

(** The state every [catch] falls back to. *)
Definition disconnectedStatus : OAuthStatus :=
  mkOAuthStatus (mkStatus false true) (mkStatus false true).

(** [getOAuthStatus()], given how [oauthService.getOAuthStatus] settles,
    how [oauthService.isAuthenticated] settles for a service, and how
    [listTools] settles on a client.  [getConnectionStatus] never
    rejects, so both of its promises are fulfilled. *)
Definition getOAuthStatus (oauth : Settled OAuthStatus)
    (isAuthenticated : MCPService → Settled bool)
    (listTools : nat → Settled unit) (m : Manager)
  : OAuthStatus * Manager :=
  match oauth with
  | Rejected _ => (disconnectedStatus, m)
  | Fulfilled oauthStatus =>
      let '(notionMcp, m1) :=
        getConnectionStatus notion (isAuthenticated notion) listTools m in
      let '(asanaMcp, m2) :=
        getConnectionStatus asana (isAuthenticated asana) listTools m1 in
      (mkOAuthStatus
         (mkStatus (connected (notionStatus oauthStatus)
                    && connected notionMcp)
                   (needsAuth (notionStatus oauthStatus)))
         (mkStatus (connected (asanaStatus oauthStatus)
                    && connected asanaMcp)
                   (needsAuth (asanaStatus oauthStatus))),
       m2)
  end.

(** [Object.entries(oauthStatus).filter(([, status]) =>
    status.connected).map(([service]) => service)] *)
Definition connectedServices (status : OAuthStatus) : list jsstring :=
  (λ entry, serviceName entry.1)
    <$> filter (λ entry, connected entry.2 = true)
          [(notion, notionStatus status); (asana, asanaStatus status)].

(** [healthCheck()], where [time] is the string [new
    Date().toISOString()] gives.  [getOAuthStatus] does not throw, so
    the [catch] block is not entered. *)
Definition healthCheck (time : jsstring) (oauth : Settled OAuthStatus)
    (isAuthenticated : MCPService → Settled bool)
    (listTools : nat → Settled unit) (m : Manager)
  : HealthStatus * Manager :=
  let '(oauthStatus, m') := getOAuthStatus oauth isAuthenticated listTools m in
  let connectedServices := connectedServices oauthStatus in
  (mkHealthStatus true
     (lit "Search service is healthy. Connected services: "
      ++ match connectedServices with
         | [] => lit "none"
         | _ :: _ => join (lit ", ") connectedServices
         end)
     time,
   m').

(** [initializeService(service)] by a caller that runs alone. *)
Definition initializeService (service : MCPService)
    (token : Settled (option jsstring)) (connect : Settled unit)
    (m : Manager) : option (Completion unit * Manager) :=
  '(client, m') ← acquire service token connect m;
  Some (match client with
        | Fulfilled _ => Normal ()
        | Rejected reason =>
            Throw (ThrowApiError
                     (lit "Failed to initialize " ++ serviceName service
                      ++ lit ": " ++ reason) None)
        end,
        m').

(** [disconnectService(service)] *)
Definition disconnectService (service : MCPService)
    (close : nat → Settled unit) (m : Manager)
  : Completion unit * Manager :=
  match disconnect service close m with
  | (Normal _, m') => (Normal (), m')
  | (Throw error, m') =>
      (Throw (ThrowApiError
                (lit "Failed to disconnect from " ++ serviceName service
                 ++ lit ": " ++ errorMessage error) None),
       m')
  end.

End Connections.

(** ** [SearchService]: the searches through the agent *)

Module AgentSearch.

(** [interface ConversationalSearchResult] *)
Module ConversationalSearchResult.
Record t := mk {
  response : jsstring;
  searchResults : list SearchResult;
  conversationId : jsstring;
  toolsUsed : list jsstring
}.
End ConversationalSearchResult.

(** [interface HybridSearchResult] *)
Module HybridSearchResult.
Record t := mk {
  directResults : list SearchResult;
  aiResponse : jsstring;
  combinedResults : list SearchResult;
  conversationId : jsstring
}.
End HybridSearchResult.

(** [conversationalSearch(message, conversationId?)] *)
Definition conversationalSearch (message : jsstring)
    (conversationId : option jsstring)
  : M ConversationalSearchResult.t :=
  tryCatch
    (agentResponse ← AgentService.chat message conversationId;
     mret (ConversationalSearchResult.mk
             (AgentResponse.response agentResponse)
             (default [] (AgentResponse.searchResults agentResponse))
             (AgentResponse.conversationId agentResponse)
             (AgentResponse.toolsUsed agentResponse)))
    (λ error,
       throw (ThrowApiError (lit "AI search failed: " ++ errorMessage error)
                            (Some 500))).

(** What [hybridSearch] takes for the answer of the agent when
    [conversationalSearch] has rejected. *)
Definition unavailable : ConversationalSearchResult.t :=
  ConversationalSearchResult.mk (lit "AI search unavailable") [] [] [].

(** [hybridSearch(query)].  [search] makes its two calls of the backends
    before [conversationalSearch] starts, and shares no state with it
    but the log of those calls, so the two calls that run in parallel are
    taken one after the other. *)
Definition hybridSearch (query : jsstring) : M HybridSearchResult.t :=
  tryCatch
    (directResults ← settle (SearchService.search query);
     aiSearch ← settle (conversationalSearch query None);
     let direct :=
       match directResults with
       | Fulfilled value => value
       | Rejected _ => []
       end in
     let ai :=
       match aiSearch with
       | Fulfilled value => value
       | Rejected _ => unavailable
       end in
     let combinedResults :=
       SearchService.deduplicateResults
         (direct ++ ConversationalSearchResult.searchResults ai) in
     mret (HybridSearchResult.mk direct
             (ConversationalSearchResult.response ai)
             combinedResults
             (ConversationalSearchResult.conversationId ai)))
    (λ error,
       throw (ThrowApiError
                (lit "Hybrid search failed: " ++ errorMessage error)
                (Some 500))).

End AgentSearch.

(** ** [ApiClient] ([src/lib/api-client.ts]) *)

Module ApiClient.

(** [catch (error) { if (error instanceof ApiError) throw error; throw
    new ApiError(prefix + error.message) }] *)
Definition rethrow {A} (prefix : jsstring) (error : Thrown) : M A :=
  match error with
  | ThrowApiError _ _ => throw error
  | ThrowError message => throw (ThrowApiError (prefix ++ message) None)
  end.

(** [search(query)] *)
Definition search (query : jsstring) : M (list SearchResult) :=
  if negb (truthy query) || blank query
  then throw (ThrowApiError (lit "Search query cannot be empty") None)
  else tryCatch (SearchService.search query)
                (rethrow (lit "Search failed: ")).

(** [conversationalSearch(message, conversationId?)] *)
Definition conversationalSearch (message : jsstring)
    (conversationId : option jsstring)
  : M AgentSearch.ConversationalSearchResult.t :=
  if negb (truthy message) || blank message
  then throw (ThrowApiError (lit "Message cannot be empty") None)
  else tryCatch (AgentSearch.conversationalSearch message conversationId)
                (rethrow (lit "AI search failed: ")).

(** [hybridSearch(query)] *)
Definition hybridSearch (query : jsstring)
  : M AgentSearch.HybridSearchResult.t :=
  if negb (truthy query) || blank query
  then throw (ThrowApiError (lit "Search query cannot be empty") None)
  else tryCatch (AgentSearch.hybridSearch query)
                (rethrow (lit "Hybrid search failed: ")).

End ApiClient.

(** ** Sample data *)

Module Samples.

Definition undatedNotion : SearchResult :=
  SearchResult.mk (lit "notion-resource-0") (lit "Roadmap")
    (lit "No description available") notion (Some (lit "notion://roadmap"))
    None.

Definition datedAsana : SearchResult :=
  SearchResult.mk (lit "asana-resource-0") (lit "Backlog")
    (lit "No description available") asana (Some (lit "asana://backlog"))
    (Some (lit "2024-05-01T10:00:00.000Z")).

(** Two resources of one listing, stamped in the same millisecond. *)
Definition pageBeta : SearchResult :=
  SearchResult.mk (lit "notion-resource-0") (lit "Beta")
    (lit "No description available") notion (Some (lit "notion://beta"))
    (Some (lit "2024-05-01T10:00:00.000Z")).

Definition pageAlpha : SearchResult :=
  SearchResult.mk (lit "notion-resource-1") (lit "Alpha")
    (lit "No description available") notion (Some (lit "notion://alpha"))
    (Some (lit "2024-05-01T10:00:00.000Z")).

Definition olderAsana : SearchResult :=
  SearchResult.mk (lit "asana-resource-1") (lit "Archive")
    (lit "No description available") asana (Some (lit "asana://archive"))
    (Some (lit "2023-12-31T23:59:59.999Z")).

Definition undatedAsana : SearchResult :=
  SearchResult.mk (lit "asana-resource-2") (lit "Inbox")
    (lit "No description available") asana None None.

Definition undatedNotionAgenda : SearchResult :=
  SearchResult.mk (lit "notion-resource-2") (lit "Agenda")
    (lit "No description available") notion None None.

(** Two resources whose names and descriptions differ and whose keys are
    the same string, [notion-Q4-plan-draft]. *)
Definition resourceQ4plan : SearchResult :=
  SearchResult.mk (lit "notion-resource-0") (lit "Q4-plan") (lit "draft")
    notion (Some (lit "notion://q4-plan")) None.

Definition resourceQ4 : SearchResult :=
  SearchResult.mk (lit "notion-resource-1") (lit "Q4") (lit "plan-draft")
    notion (Some (lit "notion://q4")) None.

(** A scripted environment.  The clock advances by one millisecond per
    reading.  The [notion] backend is down and the [asana] backend answers.
    The model first asks for two tools, one of them unknown, then answers
    twice, then is throttled. *)
Definition toolRequest : ConverseResponse.t :=
  ConverseResponse.mk
    (Some (Message.mk assistant
             [CText (lit "Let me search.");
              CToolUse (Some (lit "searchAsana"))
                       (Some {| query := VString (lit "backlog") |})
                       (Some (lit "tooluse_1"));
              CToolUse (Some (lit "searchJira"))
                       (Some {| query := VString (lit "backlog") |})
                       (Some (lit "tooluse_2"))]))
    tool_use.

Definition answer (text : string) : ConverseResponse.t :=
  ConverseResponse.mk (Some (Message.mk assistant [CText (lit text)]))
                      end_turn.

Definition env : Environment := {|
  now n := 1714557600000 + Z.of_nat n;
  randomSuffix n := lit "k3j9x2m1q";
  searchOutcome n service q :=
    match service with
    | notion => Rejected (lit "Search failed for notion: timeout")
    | asana => Fulfilled [datedAsana]
    end;
  sendOutcome n input :=
    match n with
    | 0%nat => Fulfilled toolRequest
    | 1%nat => Fulfilled (answer "There is one item in Asana.")
    | 2%nat => Fulfilled (answer "Hello again.")
    | _ => Rejected (lit "ThrottlingException")
    end;
  localeCompare := codeUnitCompare;
  getTime := isoGetTime
|}.

Definition state0 : State :=
  AgentService.initialState AgentService.defaultModelId.

(** After a first chat call that creates its conversation. *)
Definition state1 : State :=
  (AgentService.chat (lit "find the backlog") None env state0).2.

Definition conversation1 : jsstring := lit "conv_1714557600000_k3j9x2m1q".

(** After a second chat call in the same conversation. *)
Definition state2 : State :=
  (AgentService.chat (lit "hello") (Some conversation1) env state1).2.

(** The scripted environment on a host whose clock is set back: every
    reading is one second before the one before it. *)
Definition envSetBack : Environment := {|
  now n := 1714557600000 - 1000 * Z.of_nat n;
  randomSuffix := randomSuffix env;
  searchOutcome := searchOutcome env;
  sendOutcome := sendOutcome env;
  localeCompare := localeCompare env;
  getTime := getTime env
|}.

(** A run of the connection manager: two callers ask for [notion] while
    nobody is connected, the attempt of the first succeeds, and its
    continuation stores the client. *)
Definition connectNotion : list MCPClientManager.Event :=
  [ MCPClientManager.EvGetClient notion;
    MCPClientManager.EvGetClient notion;
    MCPClientManager.EvSettle 0 (Fulfilled (Some (lit "Bearer abc")))
                              (Fulfilled ());
    MCPClientManager.EvResume 0 ].

Definition managerConnected : MCPClientManager.Manager :=
  MCPClientManager.mkManager
    {[ notion := 0%nat ]} ∅
    [MCPClientManager.mkAttempt notion MCPClientManager.Connected true]
    [0%nat].

(** Two callers ask for [notion] while nobody is connected and the
    token service has no token: the attempt of the first fails before it
    comes to [client.connect]. *)
Definition connectWithoutToken : list MCPClientManager.Event :=
  [ MCPClientManager.EvGetClient notion;
    MCPClientManager.EvGetClient notion;
    MCPClientManager.EvSettle 0 (Fulfilled None) (Fulfilled ());
    MCPClientManager.EvResume 0 ].

(** The manager while the attempt is in flight. *)
Definition managerPending : MCPClientManager.Manager :=
  MCPClientManager.mkManager
    ∅ {[ notion := 0%nat ]}
    [MCPClientManager.mkAttempt notion MCPClientManager.Unsettled false]
    [].

(** A host whose clock stands in one millisecond, a server with a search
    tool that answers with two text items and an image, and a server
    without one that lists six resources. *)
Definition host : MCPClientManager.Host := {|
  MCPClientManager.toLowerCase := asciiToLowerCase;
  MCPClientManager.clock n := 1714557600000;
  MCPClientManager.randomText n := lit "0.5";
  MCPClientManager.toISOString := isoFormat
|}.

Definition sessionWithSearch : MCPClientManager.Session := {|
  MCPClientManager.listTools :=
    Fulfilled (Some [MCPClientManager.McpTool.mk (lit "fetch");
                     MCPClientManager.McpTool.mk (lit "API-post-Search");
                     MCPClientManager.McpTool.mk (lit "find-page")]);
  MCPClientManager.callTool name q :=
    if decide (name = lit "API-post-Search")
    then Fulfilled
           (MCPClientManager.ContentArray
              [MCPClientManager.ContentItem.mk (lit "text")
                 (Some (lit "Roadmap 2024"));
               MCPClientManager.ContentItem.mk (lit "image") None;
               MCPClientManager.ContentItem.mk (lit "text") (Some [])])
    else Rejected (lit "Unknown tool");
  MCPClientManager.listResources := Rejected (lit "Method not found")
|}.

Definition resourceNamed (n : string) : MCPClientManager.Resource.t :=
  MCPClientManager.Resource.mk (lit "asana://" ++ lit n) (Some (lit n)) None.

Definition sessionWithResources : MCPClientManager.Session := {|
  MCPClientManager.listTools :=
    Fulfilled (Some [MCPClientManager.McpTool.mk (lit "create-task")]);
  MCPClientManager.callTool name q := Rejected (lit "Unknown tool");
  MCPClientManager.listResources :=
    Fulfilled (Some [resourceNamed "a"; resourceNamed "b"; resourceNamed "c";
                     resourceNamed "d"; resourceNamed "e"; resourceNamed "f"])
|}.

End Samples.

(** ** Notions used in the statements *)

(** The state after [input] has been sent. *)
Definition logSend (input : ConverseCommandInput.t) (st : State) : State :=
  mkState (mkCalls (clockReads (calls st)) (randomDraws (calls st))
             (searches (calls st)) (sends (calls st) ++ [input]))
          (bedrockClient st) (agentService st).

(** The state with [conversationHistory] replaced. *)
Definition withHistory (h : list Message.t) (st : State) : State :=
  mkState (calls st) (mkBedrockClient (modelId (bedrockClient st)) h)
          (agentService st).

(** The request [converse] builds in state [st]. *)
Definition converseInput (st : State) (userMessage : jsstring)
    (tools : list Tool.t) (systemPrompt : option jsstring)
  : ConverseCommandInput.t :=
  ConverseCommandInput.mk
    (modelId (bedrockClient st))
    (conversationHistory (bedrockClient st)
     ++ [Message.mk user [CText userMessage]])
    (match truthy_opt systemPrompt with
     | Some p => Some [p]
     | None => None
     end)
    (match tools with [] => None | _ :: _ => Some tools end).

(** The request [continueWithToolResults] builds in state [st]. *)
Definition continueInput (st : State)
    (toolResults : list ToolExecutionResult.t) : ConverseCommandInput.t :=
  ConverseCommandInput.mk
    (modelId (bedrockClient st))
    (conversationHistory (bedrockClient st)
     ++ [Message.mk user
           (BedrockClientService.toolResultBlock <$> toolResults)])
    None None.

(** The assistant message a response adds to the history, if any. *)
Definition assistantEntry (response : ConverseResponse.t) : list Message.t :=
  match ConverseResponse.outputMessage response with
  | Some m => [Message.mk assistant (Message.content m)]
  | None => []
  end.

(** What [converse] resolves to for a response. *)
Definition converseResult (response : ConverseResponse.t)
  : BedrockClientService.ConverseResult :=
  BedrockClientService.mkConverseResult
    (BedrockClientService.textOf (BedrockClientService.contentOf response))
    (BedrockClientService.toolUsesOf
       (BedrockClientService.contentOf response))
    (bool_decide (ConverseResponse.stopReason response = tool_use)
     && bool_decide
          (0 < length (BedrockClientService.toolUsesOf
                         (BedrockClientService.contentOf response)))%nat).

(** A tool result is a payload without an error, or an error string
    without a payload. *)
Definition payloadOrError (r : ToolExecutionResult.t) : Prop :=
  (is_Some (ToolExecutionResult.result r) ∧ ToolExecutionResult.error r = None)
  ∨ (ToolExecutionResult.result r = None
     ∧ is_Some (ToolExecutionResult.error r)).

(** The result recorded for a tool use whose dispatch completed with [c]. *)
Definition toolResultOf (toolUse : ToolUse.t)
    (c : Completion (list SearchResult)) : ToolExecutionResult.t :=
  match c with
  | Normal payload =>
      ToolExecutionResult.mk (ToolUse.toolUseId toolUse) (Some payload) None
  | Throw e =>
      ToolExecutionResult.mk (ToolUse.toolUseId toolUse) None
                             (Some (errorMessage e))
  end.

(** How the dispatches of the tool uses complete, one after the other,
    each in the state the one before has left. *)
Fixpoint dispatches (toolUses : list ToolUse.t) (env : Environment)
    (st : State) : list (Completion (list SearchResult)) :=
  match toolUses with
  | [] => []
  | toolUse :: rest =>
      let '(c, st1) :=
        AgentService.executeMCPTool (ToolUse.name toolUse)
                                    (ToolUse.input toolUse) env st in
      c :: dispatches rest env st1
  end.

(** The state in which the tool loop of a chat turn starts: the request
    has been sent and the history holds the exchange. *)
Definition afterConverse (st : State) (input : ConverseCommandInput.t)
    (message : jsstring) (response : ConverseResponse.t) : State :=
  withHistory (conversationHistory (bedrockClient st)
               ++ [Message.mk user [CText message]]
               ++ assistantEntry response)
              (logSend input st).

(** The two entries a completed turn appends. *)
Definition userEntry (message : jsstring) (t : Z) : ChatMessage.t :=
  ChatMessage.mk user message t None.

Definition assistantReply (finalResponse : jsstring) (t : Z)
    (used : list jsstring) : ChatMessage.t :=
  ChatMessage.mk assistant finalResponse t
    (match used with [] => None | _ :: _ => Some used end).

(** The conversation object after a completed turn whose three clock
    readings start at reading [c]. *)
Definition turnRecorded (env : Environment) (c : nat)
    (message finalResponse : jsstring) (used : list jsstring)
    (conv : AgentConversation.t) : AgentConversation.t :=
  AgentConversation.mk
    (AgentConversation.id conv)
    (AgentConversation.messages conv
     ++ [userEntry message (now env c);
         assistantReply finalResponse (now env (S c)) used])
    (AgentConversation.createdAt conv)
    (now env (S (S c))).

(** The state after the end of the [try] block of [chat]: three clock
    readings, and the object at [addr] updated. *)
Definition recordTurn (env : Environment) (addr : nat)
    (message finalResponse : jsstring) (used : list jsstring)
    (st : State) : State :=
  mkState
    (mkCalls (S (S (S (clockReads (calls st))))) (randomDraws (calls st))
             (searches (calls st)) (sends (calls st)))
    (bedrockClient st)
    (mkAgent
       (alter (turnRecorded env (clockReads (calls st)) message
                            finalResponse used)
              addr (heap (agentService st)))
       (conversations (agentService st))
       (systemPrompt (agentService st))).

(** What [chat] resolves to. *)
Definition agentResponse (finalResponse conversationId : jsstring)
    (run : AgentService.ToolRun) : AgentResponse.t :=
  AgentResponse.mk finalResponse (AgentService.toolsUsed run)
    (match AgentService.searchResults run with
     | [] => None
     | _ :: _ => Some (AgentService.searchResults run)
     end)
    conversationId.

(** The first request of a chat turn that starts in state [st]. *)
Definition firstInput (st : State) (message : jsstring)
  : ConverseCommandInput.t :=
  converseInput st message AgentService.getMCPToolSpecs
                (Some (systemPrompt (agentService st))).

(** The results the tool loop records for the requested tool uses when
    it starts in state [st]. *)
Definition recordedResults (env : Environment) (st : State)
    (requested : list ToolUse.t) : list ToolExecutionResult.t :=
  zip_with toolResultOf requested (dispatches requested env st).

(** The id [createConversation] makes in state [st], the object it
    allocates, and the state it leaves. *)
Definition newConversationId (env : Environment) (st : State) : jsstring :=
  lit "conv_" ++ lit (pretty (now env (clockReads (calls st)))) ++ lit "_"
  ++ randomSuffix env (randomDraws (calls st)).

Definition newConversation (env : Environment) (st : State)
  : AgentConversation.t :=
  AgentConversation.mk (newConversationId env st) []
    (now env (S (clockReads (calls st))))
    (now env (S (S (clockReads (calls st))))).

Definition afterCreate (env : Environment) (st : State) : State :=
  mkState
    (mkCalls (S (S (S (clockReads (calls st))))) (S (randomDraws (calls st)))
             (searches (calls st)) (sends (calls st)))
    (bedrockClient st)
    (mkAgent
       (heap (agentService st) ++ [newConversation env st])
       (<[newConversationId env st := length (heap (agentService st))]>
          (conversations (agentService st)))
       (systemPrompt (agentService st))).

(** Every conversation object bears, as [updatedAt], a reading of the
    clock that has been made. *)
Definition stamped (env : Environment) (st : State) : Prop :=
  ∀ addr conv,
    heap (agentService st) !! addr = Some conv →
    ∃ n, (n < clockReads (calls st))%nat
         ∧ AgentConversation.updatedAt conv = now env n.

(** From [st] to [st'] the clock has not been set back, and every
    conversation object of [st] is still there, with the messages it had
    as the first of its messages, under its id, and no older. *)
Definition advances (env : Environment) (st st' : State) : Prop :=
  (clockReads (calls st) ≤ clockReads (calls st'))%nat
  ∧ (stamped env st →
     stamped env st'
     ∧ ∀ addr conv,
         heap (agentService st) !! addr = Some conv →
         ∃ conv',
           heap (agentService st') !! addr = Some conv'
           ∧ AgentConversation.messages conv
               `prefix_of` AgentConversation.messages conv'
           ∧ AgentConversation.id conv' = AgentConversation.id conv
           ∧ AgentConversation.createdAt conv'
             = AgentConversation.createdAt conv
           ∧ AgentConversation.updatedAt conv
             ≤ AgentConversation.updatedAt conv').

(** From [st] to [st'] every conversation object of [st] is still there,
    with the messages it had as the first of its messages, under its id and
    with the time of its creation.  Nothing is asked of the clock. *)
Definition grows (st st' : State) : Prop :=
  ∀ addr conv,
    heap (agentService st) !! addr = Some conv →
    ∃ conv',
      heap (agentService st') !! addr = Some conv'
      ∧ AgentConversation.messages conv
          `prefix_of` AgentConversation.messages conv'
      ∧ AgentConversation.id conv' = AgentConversation.id conv
      ∧ AgentConversation.createdAt conv'
        = AgentConversation.createdAt conv.

(** [m] leaves the component [f] of the state as it is, whether it
    completes or throws. *)
Definition preserves {X A} (f : State → X) (m : M A) : Prop :=
  ∀ env st, f (m env st).2 = f st.

(** Every entry of the [Map] of conversations refers to an object of the
    heap, and the object bears the key of the entry as its [id]. *)
Definition entriesValid (st : State) : Prop :=
  ∀ c addr,
    conversations (agentService st) !! c = Some addr →
    ∃ conv, heap (agentService st) !! addr = Some conv
            ∧ AgentConversation.id conv = c.

#[global] Instance Role_eq_dec : EqDecision Role.
Proof. solve_decision. Defined.

(** The messages come in pairs: a user message, which bears no
    [toolsUsed], and then an assistant message. *)
Fixpoint paired (messages : list ChatMessage.t) : bool :=
  match messages with
  | [] => true
  | u :: a :: rest =>
      bool_decide (ChatMessage.role u = user)
      && bool_decide (ChatMessage.toolsUsed u = None)
      && bool_decide (ChatMessage.role a = assistant)
      && paired rest
  | _ => false
  end.

(** The messages of every conversation object come in pairs. *)
Definition heapPaired (st : State) : Prop :=
  ∀ addr conv,
    heap (agentService st) !! addr = Some conv →
    paired (AgentConversation.messages conv) = true.

(** The times of a conversation object are readings of the clock, made
    in this order: [createdAt], then the [timestamp]s of the messages one
    after the other, then [updatedAt]; and all of them have been made. *)
Definition clockOrdered (env : Environment) (st : State)
    (conv : AgentConversation.t) : Prop :=
  ∃ (created : nat) (stamps : list nat) (updated : nat),
    AgentConversation.createdAt conv = now env created
    ∧ ChatMessage.timestamp <$> AgentConversation.messages conv
      = now env <$> stamps
    ∧ AgentConversation.updatedAt conv = now env updated
    ∧ StronglySorted lt (created :: stamps ++ [updated])
    ∧ (updated < clockReads (calls st))%nat.

Definition heapOrdered (env : Environment) (st : State) : Prop :=
  ∀ addr conv,
    heap (agentService st) !! addr = Some conv → clockOrdered env st conv.

(** The items of the content of a tool result that are turned into
    search results, and the content of the result made of an item. *)
Definition textItems (content : MCPClientManager.ToolContent)
  : list MCPClientManager.ContentItem.t :=
  filter (λ item, MCPClientManager.ContentItem.type item = lit "text")
         (match content with
          | MCPClientManager.ContentAbsent => []
          | MCPClientManager.ContentArray items => items
          | MCPClientManager.ContentSingle item => [item]
          end).

Definition textOrDefault (item : MCPClientManager.ContentItem.t) : jsstring :=
  default (lit "No content available")
          (truthy_opt (MCPClientManager.ContentItem.text item)).

(** The part of an [OAuthStatus] that is about a service. *)
Definition statusOf (service : MCPService) (status : Connections.OAuthStatus)
  : MCPClientManager.ConnectionStatus :=
  match service with
  | notion => Connections.notionStatus status
  | asana => Connections.asanaStatus status
  end.

(** How [searchService] of the manager hands on what its [try] block
    has come to: the results, or the error behind the name of the
    service. *)
Definition orSearchFailed (service : MCPService)
    (attempt : Settled (list SearchResult)) : Settled (list SearchResult) :=
  match attempt with
  | Fulfilled results => Fulfilled results
  | Rejected reason =>
      Rejected (lit "Search failed for " ++ serviceName service
                ++ lit ": " ++ reason)
  end.

(** The engine reads back the strings it writes for the readings of the
    clock of a host. *)
Definition readsBack (gt : jsstring → option Z)
    (host : MCPClientManager.Host) : Prop :=
  ∀ n,
    truthy (MCPClientManager.toISOString host (MCPClientManager.clock host n))
    = true
    ∧ is_Some (gt (MCPClientManager.toISOString host
                     (MCPClientManager.clock host n))).

(** The names of the tool uses whose dispatch completed, and the results
    the completed dispatches returned, in the order of the requests. *)
Definition completedTools (toolUses : list ToolUse.t)
    (outcomes : list (Completion (list SearchResult))) : list jsstring :=
  omap (λ p : ToolUse.t * Completion (list SearchResult),
          match p.2 with
          | Normal _ => Some (ToolUse.name p.1)
          | Throw _ => None
          end)
       (zip toolUses outcomes).

Definition completedResults
    (outcomes : list (Completion (list SearchResult))) : list SearchResult :=
  concat (omap (λ c : Completion (list SearchResult),
                  match c with
                  | Normal payload => Some payload
                  | Throw _ => None
                  end)
               outcomes).

(** * Properties *)

(** ** Trimming *)

Section TrimFacts.
Import JS.

Lemma trimStart_all_ws s : forallb isWhiteSpace s = true → trimStart s = [].
Proof.
  induction s as [|c s IH]; simpl; [done|].
  destruct (isWhiteSpace c); simpl; [exact IH | done].
Qed.

Lemma blank_nil : blank [] = true.
Proof. reflexivity. Qed.

Lemma blank_all_ws s : forallb isWhiteSpace s = true → blank s = true.
Proof.
  intros H. unfold blank, trim. by rewrite (trimStart_all_ws s H).
Qed.

Lemma blank_trimStart s : blank s = true → trimStart s = [].
Proof.
  unfold blank, trim, trimEnd. intros H.
  destruct (trimStart s) as [|c t] eqn:E; [done|].
  exfalso.
  assert (Hc : isWhiteSpace c = false).
  { clear H. induction s as [|d s IH]; simpl in E; [done|].
    destruct (isWhiteSpace d) eqn:Hd; [by apply IH|]. by simplify_eq. }
  revert H. rewrite reverse_cons.
  assert (Hx : ∀ u, trimStart (u ++ [c]) ≠ []).
  { induction u as [|e u IHu]; simpl.
    - by rewrite Hc.
    - destruct (isWhiteSpace e); [exact IHu | done]. }
  specialize (Hx (reverse t)).
  destruct (trimStart (reverse t ++ [c])) as [|e u] eqn:E2; [done|].
  intros H. destruct (reverse (e :: u)) eqn:E3; [|done].
  apply (f_equal reverse) in E3. rewrite reverse_involutive in E3. done.
Qed.

Lemma trimStart_nil_all_ws s : trimStart s = [] → forallb isWhiteSpace s = true.
Proof.
  induction s as [|c s IH]; simpl; [done|].
  destruct (isWhiteSpace c); simpl; [exact IH | done].
Qed.

(** Blank means: empty, or made of white space only. *)
Lemma blank_iff s : blank s = true ↔ forallb isWhiteSpace s = true.
Proof.
  split.
  - intros H. by apply trimStart_nil_all_ws, blank_trimStart.
  - apply blank_all_ws.
Qed.

Example trim_sample : trim (lit "  project plan ") = lit "project plan".
Proof. by vm_compute. Qed.

Example blank_sample : blank (lit "   ") = true ∧ blank (lit " q ") = false.
Proof. by vm_compute. Qed.

End TrimFacts.

(** ** The sort *)

Section ArraySortFacts.
Context {A : Type} (comparefn : A → A → option Z).

Local Abbreviation SortCompare := (SortCompare comparefn).
Local Abbreviation sortInsert := (sortInsert comparefn).
Local Abbreviation Array_sort := (Array_sort comparefn).
Local Abbreviation before := (before comparefn).
Local Abbreviation tie := (tie comparefn).

Lemma sortInsert_Permutation x l : sortInsert x l ≡ₚ x :: l.
Proof.
  induction l as [|y l IH]; simpl; [done|].
  destruct (SortCompare x y <=? 0); [done|].
  rewrite IH. apply Permutation_swap.
Qed.

Lemma Array_sort_Permutation l : Array_sort l ≡ₚ l.
Proof.
  induction l as [|x l IH]; simpl; [done|].
  by rewrite sortInsert_Permutation, IH.
Qed.

Lemma Array_sort_length l : length (Array_sort l) = length l.
Proof. apply Permutation_length, Array_sort_Permutation. Qed.

(** Where the comparator is consistent: on a class [D] of values it is
    total and transitive. *)
Section Consistent.
Variable D : A → Prop.
Hypothesis D_total : ∀ x y, D x → D y → before x y ∨ before y x.
Hypothesis D_trans :
  ∀ x y z, D x → D y → D z → before x y → before y z → before x z.

Lemma sortInsert_Forall (P : A → Prop) x l :
  P x → Forall P l → Forall P (sortInsert x l).
Proof.
  intros Hx Hl. rewrite sortInsert_Permutation. by constructor.
Qed.

Lemma Array_sort_Forall (P : A → Prop) l :
  Forall P l → Forall P (Array_sort l).
Proof. intros H. by rewrite Array_sort_Permutation. Qed.

Lemma sortInsert_sorted x l :
  D x → Forall D l →
  StronglySorted before l → StronglySorted before (sortInsert x l).
Proof.
  intros Hx Hl Hs.
  induction Hs as [|y l Hs IH Hy]; simpl.
  - repeat constructor.
  - apply Forall_cons in Hl as [HDy HDl].
    destruct (Z.leb_spec (SortCompare x y) 0) as [Hle|Hgt].
    + constructor; [by constructor|].
      constructor; [exact Hle|].
      rewrite Forall_forall in Hy, HDl. apply Forall_forall.
      intros z Hz. apply (D_trans x y z); auto.
    + constructor; [by apply IH|].
      rewrite sortInsert_Permutation. constructor; [|done].
      destruct (D_total x y Hx HDy) as [H|H]; [|done].
      unfold before in H. lia.
Qed.

Lemma Array_sort_sorted l :
  Forall D l → StronglySorted before (Array_sort l).
Proof.
  induction l as [|x l IH]; simpl; intros Hl; [constructor|].
  apply Forall_cons in Hl as [Hx Hl].
  apply sortInsert_sorted; auto. by apply Array_sort_Forall.
Qed.

Lemma sortInsert_stable c x l :
  D c → D x → Forall D l →
  filter (tie c) (sortInsert x l) = filter (tie c) (x :: l).
Proof.
  intros Hc Hx Hl.
  induction l as [|y l IH]; simpl; [done|].
  apply Forall_cons in Hl as [Hy Hl].
  destruct (Z.leb_spec (SortCompare x y) 0) as [Hle|Hgt]; [done|].
  rewrite filter_cons, (IH Hl), !filter_cons.
  destruct (decide (tie c y)) as [[Hcy Hyc]|Hny];
    destruct (decide (tie c x)) as [[Hcx Hxc]|Hnx]; try done.
  exfalso.
  assert (before x y) as H by (apply (D_trans x c y); auto).
  unfold before in H. lia.
Qed.

(** Stability: the values that compare equal to [c] keep the order
    they had in the input. *)
Lemma Array_sort_stable c l :
  D c → Forall D l →
  filter (tie c) (Array_sort l) = filter (tie c) l.
Proof.
  intros Hc. induction l as [|x l IH]; simpl; intros Hl; [done|].
  apply Forall_cons in Hl as [Hx Hl].
  rewrite sortInsert_stable; auto using Array_sort_Forall.
  rewrite !filter_cons, (IH Hl). done.
Qed.
(** A sorted and stable permutation is determined by the input: two
    of them are the same list.  So whatever algorithm an engine runs, on
    an array where the comparator is consistent [sort] returns what
    [Array_sort] returns. *)
Lemma stable_sorted_unique l1 l2 :
  Forall D l1 → l1 ≡ₚ l2 →
  StronglySorted before l1 → StronglySorted before l2 →
  (∀ c, D c → filter (tie c) l1 = filter (tie c) l2) →
  l1 = l2.
Proof.
  intros HD. revert l2.
  induction l1 as [|x l1 IH]; intros l2 Hperm Hs1 Hs2 Hst.
  - by apply Permutation_nil_l in Hperm.
  - destruct l2 as [|y l2]; [by apply Permutation_nil_r in Hperm|].
    apply Forall_cons in HD as [Hx HD].
    apply StronglySorted_inv in Hs1 as [Hs1 Hx1].
    apply StronglySorted_inv in Hs2 as [Hs2 Hy2].
    assert (Hy : D y).
    { assert (y ∈ x :: l1) as [->|Hin]%elem_of_cons
        by (rewrite Hperm; left); [done|].
      by eapply Forall_forall in HD. }
    assert (Hrefl : ∀ z, D z → before z z).
    { intros z Hz. by destruct (D_total z z Hz Hz). }
    assert (Hxy : before x y).
    { assert (y ∈ x :: l1) as [->|Hin]%elem_of_cons
        by (rewrite Hperm; left); [by apply Hrefl|].
      by eapply Forall_forall in Hx1. }
    assert (Hyx : before y x).
    { assert (x ∈ y :: l2) as [->|Hin]%elem_of_cons
        by (rewrite <- Hperm; left); [by apply Hrefl|].
      by eapply Forall_forall in Hy2. }
    pose proof (Hst x Hx) as Hfx.
    rewrite !filter_cons in Hfx.
    rewrite decide_True in Hfx by (split; by apply Hrefl).
    rewrite decide_True in Hfx by done.
    injection Hfx as <- _.
    f_equal. apply IH; try done.
    + by apply Permutation_cons_inv in Hperm.
    + intros c Hc. specialize (Hst c Hc). rewrite !filter_cons in Hst.
      destruct (decide (tie c x)); [by injection Hst|done].
Qed.

Lemma Array_sort_unique l l' :
  Forall D l → l' ≡ₚ l → StronglySorted before l' →
  (∀ c, D c → filter (tie c) l' = filter (tie c) l) →
  l' = Array_sort l.
Proof.
  intros HD Hperm Hs Hst. apply stable_sorted_unique; try done.
  - by rewrite Hperm.
  - by rewrite Array_sort_Permutation.
  - by apply Array_sort_sorted.
  - intros c Hc. by rewrite Hst, Array_sort_stable.
Qed.

End Consistent.

End ArraySortFacts.

(** ** The collation by code units is a total preorder *)

Lemma codeUnitCompare_total s t :
  codeUnitCompare s t ≤ 0 ∨ codeUnitCompare t s ≤ 0.
Proof.
  revert t. induction s as [|c s IH]; intros [|d t]; simpl; try lia.
  destruct (N.ltb_spec c d), (N.ltb_spec d c); try lia.
  apply IH.
Qed.

Lemma codeUnitCompare_trans s t u :
  codeUnitCompare s t ≤ 0 → codeUnitCompare t u ≤ 0 →
  codeUnitCompare s u ≤ 0.
Proof.
  revert t u.
  induction s as [|c s IH]; intros [|d t] [|e u]; simpl; try lia.
  destruct (N.ltb_spec c d), (N.ltb_spec d c), (N.ltb_spec d e),
    (N.ltb_spec e d), (N.ltb_spec c e), (N.ltb_spec e c);
    try lia.
  apply IH.
Qed.

Example isoGetTime_epoch :
  isoGetTime (lit "1970-01-01T00:00:00.000Z") = Some 0
  ∧ isoGetTime (lit "2024-01-01T00:00:00.000Z") = Some 1704067200000
  ∧ isoGetTime (lit "2024-02-30T00:00:00.000Z") = None
  ∧ isoGetTime (lit "yesterday") = None.
Proof. by vm_compute. Qed.

(** ** [SearchService.sortSearchResults] *)

Section SortSearchResults.
Import SearchResult SearchService.
Variable lc : jsstring → jsstring → Z.
Variable gt : jsstring → option Z.
Hypothesis lc_total : ∀ s t, lc s t ≤ 0 ∨ lc t s ≤ 0.
Hypothesis lc_trans : ∀ s t u, lc s t ≤ 0 → lc t u ≤ 0 → lc s u ≤ 0.

Local Abbreviation cmp := (compareResults lc gt).

Lemma compare_dated a b ta tb :
  timeOf gt a = Some ta → timeOf gt b = Some tb →
  SortCompare cmp a b = tb - ta.
Proof.
  unfold timeOf, SortCompare, compareResults. intros Ha Hb.
  destruct (truthy_opt (lastModified a)) as [sa|]; [|done].
  destruct (truthy_opt (lastModified b)) as [sb|]; [|done].
  simpl in Ha, Hb. by rewrite Ha, Hb.
Qed.

Lemma compare_undated a b :
  undated a ∨ undated b →
  cmp a b =
    Some (if decide (source a ≠ source b)
          then (if decide (source a = notion) then -1 else 1)
          else lc (title a) (title b)).
Proof.
  unfold undated, compareResults. intros [H|H]; rewrite H.
  - by case_decide.
  - destruct (truthy_opt (lastModified a)); by case_decide.
Qed.

Lemma before_dated a b :
  dated gt a → dated gt b → before cmp a b ↔ newerFirst gt a b.
Proof.
  intros [ta Ha] [tb Hb]. unfold before, newerFirst.
  rewrite (compare_dated a b ta tb Ha Hb), Ha, Hb. lia.
Qed.

Lemma before_undated a b :
  undated a → undated b → before cmp a b ↔ serviceThenTitle lc a b.
Proof.
  intros Ha Hb. unfold before, SortCompare, serviceThenTitle.
  rewrite compare_undated by auto. simpl.
  destruct (source a), (source b); repeat case_decide; simpl;
    try done; try lia; naive_solver lia.
Qed.

Lemma tie_dated c r :
  dated gt c → dated gt r → tie cmp c r ↔ sameTime gt c r.
Proof.
  intros [tc Hc] [tr Hr]. unfold tie, before, sameTime.
  rewrite (compare_dated c r tc tr Hc Hr), (compare_dated r c tr tc Hr Hc).
  rewrite Hc, Hr. split; [intros; f_equal; lia | intros [= ->]; lia].
Qed.

Lemma tie_undated c r :
  undated c → undated r → tie cmp c r ↔ sameServiceAndTitle lc c r.
Proof.
  intros Hc Hr. unfold tie.
  rewrite !before_undated by done.
  unfold serviceThenTitle, sameServiceAndTitle.
  destruct (source c), (source r); simpl; naive_solver lia.
Qed.

Lemma filter_iff_Forall {A} (P Q : A → Prop)
    `{∀ x, Decision (P x)} `{∀ x, Decision (Q x)} (D : A → Prop) l :
  (∀ x, D x → P x ↔ Q x) → Forall D l → filter P l = filter Q l.
Proof.
  intros HPQ. induction 1 as [|x l Hx Hl IH]; [done|].
  rewrite !filter_cons, IH.
  destruct (decide (P x)), (decide (Q x)); naive_solver.
Qed.

Lemma StronglySorted_iff_Forall {A} (R S : A → A → Prop) (D : A → Prop) l :
  (∀ x y, D x → D y → R x y → S x y) →
  Forall D l → StronglySorted R l → StronglySorted S l.
Proof.
  intros HRS HD. induction 1 as [|x l Hs IH Hx]; [constructor|].
  apply Forall_cons in HD as [HDx HDl].
  constructor; [by apply IH|].
  rewrite Forall_forall in Hx, HDl. apply Forall_forall.
  intros y Hy. apply HRS; auto.
Qed.

Lemma sortSearchResults_Permutation L : sortSearchResults lc gt L ≡ₚ L.
Proof. apply Array_sort_Permutation. Qed.

Lemma dated_total x y :
  dated gt x → dated gt y → before cmp x y ∨ before cmp y x.
Proof.
  intros [tx Hx] [ty Hy]. unfold before.
  rewrite (compare_dated x y tx ty Hx Hy), (compare_dated y x ty tx Hy Hx).
  lia.
Qed.

Lemma dated_trans x y z :
  dated gt x → dated gt y → dated gt z →
  before cmp x y → before cmp y z → before cmp x z.
Proof.
  intros [tx Hx] [ty Hy] [tz Hz]. unfold before.
  rewrite (compare_dated x y tx ty Hx Hy), (compare_dated y z ty tz Hy Hz),
    (compare_dated x z tx tz Hx Hz).
  lia.
Qed.

Lemma undated_total x y :
  undated x → undated y → before cmp x y ∨ before cmp y x.
Proof.
  intros Hx Hy. rewrite !before_undated by done.
  unfold serviceThenTitle.
  destruct (lc_total (title x) (title y)), (source x), (source y);
    simpl; naive_solver lia.
Qed.

Lemma undated_trans x y z :
  undated x → undated y → undated z →
  before cmp x y → before cmp y z → before cmp x z.
Proof.
  intros Hx Hy Hz. rewrite !before_undated by done.
  unfold serviceThenTitle.
  pose proof (lc_trans (title x) (title y) (title z)).
  destruct (source x), (source y), (source z); simpl; naive_solver lia.
Qed.

Lemma sortSearchResults_dated L :
  Forall (dated gt) L →
  StronglySorted (newerFirst gt) (sortSearchResults lc gt L)
  ∧ ∀ c, dated gt c →
      filter (sameTime gt c) (sortSearchResults lc gt L)
      = filter (sameTime gt c) L.
Proof.
  intros HL. split.
  - apply (StronglySorted_iff_Forall (before cmp) _ (dated gt)).
    + intros x y Hx Hy. by apply before_dated.
    + by apply Array_sort_Forall.
    + apply (Array_sort_sorted cmp (dated gt)); auto using dated_total.
      intros x y z Hx Hy Hz. by apply dated_trans.
  - intros c Hc. unfold sortSearchResults.
    rewrite <- (filter_iff_Forall (tie cmp c) (sameTime gt c) (dated gt) L);
      [|intros; by apply tie_dated|done].
    rewrite <- (filter_iff_Forall (tie cmp c) (sameTime gt c) (dated gt));
      [|intros; by apply tie_dated|by apply Array_sort_Forall].
    apply (Array_sort_stable cmp (dated gt)); auto using dated_total.
    intros x y z Hx Hy Hz. by apply dated_trans.
Qed.

Lemma sortSearchResults_undated L :
  Forall undated L →
  StronglySorted (serviceThenTitle lc) (sortSearchResults lc gt L)
  ∧ ∀ c, undated c →
      filter (sameServiceAndTitle lc c) (sortSearchResults lc gt L)
      = filter (sameServiceAndTitle lc c) L.
Proof.
  intros HL. split.
  - apply (StronglySorted_iff_Forall (before cmp) _ undated).
    + intros x y Hx Hy. by apply before_undated.
    + by apply Array_sort_Forall.
    + apply (Array_sort_sorted cmp undated); auto using undated_total.
      intros x y z Hx Hy Hz. by apply undated_trans.
  - intros c Hc. unfold sortSearchResults.
    rewrite <- (filter_iff_Forall (tie cmp c) (sameServiceAndTitle lc c)
                  undated L);
      [|intros; by apply tie_undated|done].
    rewrite <- (filter_iff_Forall (tie cmp c) (sameServiceAndTitle lc c)
                  undated);
      [|intros; by apply tie_undated|by apply Array_sort_Forall].
    apply (Array_sort_stable cmp undated); auto using undated_total.
    intros x y z Hx Hy Hz. by apply undated_trans.
Qed.

(** On a list whose entries all carry a date, and on one whose entries
    all lack one, the comparator is consistent, and the sorted and stable
    permutation is the one list an engine can return. *)
Lemma sortSearchResults_dated_unique L L' :
  Forall (dated gt) L → L' ≡ₚ L →
  StronglySorted (newerFirst gt) L' →
  (∀ c, dated gt c → filter (sameTime gt c) L' = filter (sameTime gt c) L) →
  L' = sortSearchResults lc gt L.
Proof.
  intros HL Hperm Hs Hst.
  assert (HL' : Forall (dated gt) L') by (by rewrite Hperm).
  apply (Array_sort_unique cmp (dated gt)); auto using dated_total.
  - intros x y z Hx Hy Hz. by apply dated_trans.
  - apply (StronglySorted_iff_Forall (newerFirst gt) _ (dated gt));
      [|done|done].
    intros x y Hx Hy. by apply before_dated.
  - intros c Hc.
    rewrite (filter_iff_Forall (tie cmp c) (sameTime gt c) (dated gt) L');
      [|intros; by apply tie_dated|done].
    rewrite (filter_iff_Forall (tie cmp c) (sameTime gt c) (dated gt) L);
      [|intros; by apply tie_dated|done].
    by apply Hst.
Qed.

Lemma sortSearchResults_undated_unique L L' :
  Forall undated L → L' ≡ₚ L →
  StronglySorted (serviceThenTitle lc) L' →
  (∀ c, undated c →
     filter (sameServiceAndTitle lc c) L'
     = filter (sameServiceAndTitle lc c) L) →
  L' = sortSearchResults lc gt L.
Proof.
  intros HL Hperm Hs Hst.
  assert (HL' : Forall undated L') by (by rewrite Hperm).
  apply (Array_sort_unique cmp undated); auto using undated_total.
  - intros x y z Hx Hy Hz. by apply undated_trans.
  - apply (StronglySorted_iff_Forall (serviceThenTitle lc) _ undated);
      [|done|done].
    intros x y Hx Hy. by apply before_undated.
  - intros c Hc.
    rewrite (filter_iff_Forall (tie cmp c) (sameServiceAndTitle lc c)
               undated L');
      [|intros; by apply tie_undated|done].
    rewrite (filter_iff_Forall (tie cmp c) (sameServiceAndTitle lc c)
               undated L);
      [|intros; by apply tie_undated|done].
    by apply Hst.
Qed.

End SortSearchResults.

(** C1, as the code has it.  The result of [sortSearchResults] is a
    permutation of the merged list, whatever the list.  On a list whose
    entries all carry a [lastModified] that is a date, the result is
    ordered newest first, and entries of the same time keep the order of
    the input: neither the source nor the title breaks such a tie.  On a
    list whose entries all lack [lastModified], the result is ordered by
    source ([notion] first), then by title, and entries equal in both keep
    the order of the input.  In both cases the result is the only
    permutation of the input that is ordered so and stable, hence what
    every engine returns.  Of a list that has entries of both kinds
    nothing but the permutation is stated: the comparator is not a
    consistent order there. *)
Theorem sortSearchResults_order
    (lc : jsstring → jsstring → Z) (gt : jsstring → option Z)
    (lc_total : ∀ s t, lc s t ≤ 0 ∨ lc t s ≤ 0)
    (lc_trans : ∀ s t u, lc s t ≤ 0 → lc t u ≤ 0 → lc s u ≤ 0)
    (L : list SearchResult) :
  SearchService.sortSearchResults lc gt L ≡ₚ L
  ∧ (Forall (SearchService.dated gt) L →
       StronglySorted (SearchService.newerFirst gt)
         (SearchService.sortSearchResults lc gt L)
       ∧ (∀ c, SearchService.dated gt c →
            filter (SearchService.sameTime gt c)
              (SearchService.sortSearchResults lc gt L)
            = filter (SearchService.sameTime gt c) L)
       ∧ ∀ L',
           L' ≡ₚ L →
           StronglySorted (SearchService.newerFirst gt) L' →
           (∀ c, SearchService.dated gt c →
              filter (SearchService.sameTime gt c) L'
              = filter (SearchService.sameTime gt c) L) →
           L' = SearchService.sortSearchResults lc gt L)
  ∧ (Forall SearchService.undated L →
       StronglySorted (SearchService.serviceThenTitle lc)
         (SearchService.sortSearchResults lc gt L)
       ∧ (∀ c, SearchService.undated c →
            filter (SearchService.sameServiceAndTitle lc c)
              (SearchService.sortSearchResults lc gt L)
            = filter (SearchService.sameServiceAndTitle lc c) L)
       ∧ ∀ L',
           L' ≡ₚ L →
           StronglySorted (SearchService.serviceThenTitle lc) L' →
           (∀ c, SearchService.undated c →
              filter (SearchService.sameServiceAndTitle lc c) L'
              = filter (SearchService.sameServiceAndTitle lc c) L) →
           L' = SearchService.sortSearchResults lc gt L).
Proof.
  split; [apply sortSearchResults_Permutation|].
  split.
  - intros HL.
    destruct (sortSearchResults_dated lc gt L HL) as [Hs Hst].
    split; [exact Hs|]. split; [exact Hst|].
    intros L'. by apply sortSearchResults_dated_unique.
  - intros HL.
    destruct (sortSearchResults_undated lc gt lc_total lc_trans L HL)
      as [Hs Hst].
    split; [exact Hs|]. split; [exact Hst|].
    intros L'. by apply sortSearchResults_undated_unique.
Qed.

Lemma sortSearchResults_order_witness :
  Forall (SearchService.dated isoGetTime)
    [Samples.olderAsana; Samples.pageBeta; Samples.pageAlpha]
  ∧ StronglySorted (SearchService.newerFirst isoGetTime)
      (SearchService.sortSearchResults codeUnitCompare isoGetTime
         [Samples.olderAsana; Samples.pageBeta; Samples.pageAlpha])
  ∧ Forall SearchService.undated
      [Samples.undatedAsana; Samples.undatedNotion;
       Samples.undatedNotionAgenda]
  ∧ StronglySorted (SearchService.serviceThenTitle codeUnitCompare)
      (SearchService.sortSearchResults codeUnitCompare isoGetTime
         [Samples.undatedAsana; Samples.undatedNotion;
          Samples.undatedNotionAgenda]).
Proof.
  assert (Hd : Forall (SearchService.dated isoGetTime)
                 [Samples.olderAsana; Samples.pageBeta; Samples.pageAlpha]).
  { repeat constructor; vm_compute; eauto. }
  assert (Hu : Forall SearchService.undated
                 [Samples.undatedAsana; Samples.undatedNotion;
                  Samples.undatedNotionAgenda]).
  { repeat constructor. }
  split; [exact Hd|].
  split.
  { exact (proj1 (proj1 (proj2
      (sortSearchResults_order codeUnitCompare isoGetTime
         codeUnitCompare_total codeUnitCompare_trans _)) Hd)). }
  split; [exact Hu|].
  exact (proj1 (proj2 (proj2
    (sortSearchResults_order codeUnitCompare isoGetTime
       codeUnitCompare_total codeUnitCompare_trans _)) Hu)).
Defined.

Example sortSearchResults_sample :
  SearchService.sortSearchResults codeUnitCompare isoGetTime
    [Samples.olderAsana; Samples.pageBeta; Samples.pageAlpha]
  = [Samples.pageBeta; Samples.pageAlpha; Samples.olderAsana].
Proof. by vm_compute. Qed.

(** C1, as the specification words it, fails.  The comparator puts a
    [notion] entry without [lastModified] before an [asana] entry with
    one, and so does the sort; and it answers [0] for two entries with the
    same time, so that two such entries of one service keep the order of
    the input, whatever their titles.  On each of the two inputs the
    comparator is consistent, and the result is that of every engine: the
    first has one ordered permutation, and the second one stable
    permutation. *)
Lemma sortSearchResults_not_specifiedOrder :
  SearchService.compareResults codeUnitCompare isoGetTime
    Samples.undatedNotion Samples.datedAsana = Some (-1)
  ∧ SearchService.compareResults codeUnitCompare isoGetTime
      Samples.datedAsana Samples.undatedNotion = Some 1
  ∧ SearchService.sortSearchResults codeUnitCompare isoGetTime
      [Samples.datedAsana; Samples.undatedNotion]
    = [Samples.undatedNotion; Samples.datedAsana]
  ∧ ¬ SearchService.presentBeforeAbsent
        (SearchService.sortSearchResults codeUnitCompare isoGetTime
           [Samples.datedAsana; Samples.undatedNotion])
  ∧ SearchService.compareResults codeUnitCompare isoGetTime
      Samples.pageBeta Samples.pageAlpha = Some 0
  ∧ SearchService.sortSearchResults codeUnitCompare isoGetTime
      [Samples.pageBeta; Samples.pageAlpha]
    = [Samples.pageBeta; Samples.pageAlpha]
  ∧ ¬ StronglySorted (SearchService.specifiedOrder codeUnitCompare isoGetTime)
        (SearchService.sortSearchResults codeUnitCompare isoGetTime
           [Samples.pageBeta; Samples.pageAlpha])
  ∧ (∀ L',
       L' ≡ₚ [Samples.datedAsana; Samples.undatedNotion] →
       StronglySorted
         (before (SearchService.compareResults codeUnitCompare isoGetTime))
         L' →
       L' = [Samples.undatedNotion; Samples.datedAsana])
  ∧ (∀ L',
       L' ≡ₚ [Samples.pageBeta; Samples.pageAlpha] →
       filter (tie (SearchService.compareResults codeUnitCompare isoGetTime)
                 Samples.pageBeta) L'
       = filter (tie (SearchService.compareResults codeUnitCompare isoGetTime)
                   Samples.pageBeta) [Samples.pageBeta; Samples.pageAlpha] →
       L' = [Samples.pageBeta; Samples.pageAlpha]).
Proof.
  split; [by vm_compute|].
  split; [by vm_compute|].
  split; [by vm_compute|].
  split.
  { intros H.
    specialize (H 0%nat 1%nat Samples.undatedNotion Samples.datedAsana).
    assert (1 < 0)%nat; [|lia].
    apply H; [by vm_compute | by vm_compute | | ].
    - vm_compute. eauto.
    - intros [x Hx]. vm_compute in Hx. done. }
  split; [by vm_compute|].
  split; [by vm_compute|].
  split.
  { intros H.
    replace (SearchService.sortSearchResults codeUnitCompare isoGetTime
               [Samples.pageBeta; Samples.pageAlpha])
      with [Samples.pageBeta; Samples.pageAlpha] in H by (by vm_compute).
    apply StronglySorted_inv in H as [_ H].
    apply Forall_cons in H as [H _].
    vm_compute in H.
    destruct H as [H|[_ [H|[_ H]]]]; done. }
  split.
  - intros L' Hperm Hs. symmetry in Hperm.
    apply Permutation_length_2_inv in Hperm as [->| ->]; [|done].
    apply StronglySorted_inv in Hs as [_ Hs].
    apply Forall_cons in Hs as [Hs _]. unfold before in Hs.
    assert (SortCompare
              (SearchService.compareResults codeUnitCompare isoGetTime)
              Samples.datedAsana Samples.undatedNotion = 1) as E
      by (by vm_compute).
    rewrite E in Hs. lia.
  - intros L' Hperm Hst. symmetry in Hperm.
    apply Permutation_length_2_inv in Hperm as [->| ->]; [done|].
    vm_compute in Hst. done.
Qed.

(** ** [SearchService.deduplicateResults] *)

Section Deduplicate.
Import SearchResult SearchService.

Lemma deduplicateLoop_acc seen acc l :
  deduplicateLoop seen acc l = acc ++ firstOccurrences seen l.
Proof.
  revert seen acc. induction l as [|r l IH]; intros seen acc; simpl.
  - by rewrite app_nil_r.
  - case_decide; [apply IH|].
    rewrite IH. by rewrite <- app_assoc.
Qed.

Lemma deduplicateResults_firstOccurrences l :
  deduplicateResults l = firstOccurrences ∅ l.
Proof. unfold deduplicateResults. by rewrite deduplicateLoop_acc. Qed.

Lemma firstOccurrences_sublist seen l : firstOccurrences seen l `sublist_of` l.
Proof.
  revert seen. induction l as [|r l IH]; intros seen; simpl; [done|].
  case_decide; [by apply sublist_cons | by apply sublist_skip].
Qed.

Lemma firstOccurrences_unseen seen l r :
  r ∈ firstOccurrences seen l → resultKey r ∉ seen.
Proof.
  revert seen. induction l as [|x l IH]; intros seen; simpl.
  - by intros ?%elem_of_nil.
  - case_decide as Hx; [apply IH|].
    intros [->|Hr]%elem_of_cons; [done|].
    apply IH in Hr. set_solver.
Qed.

Lemma firstOccurrences_NoDup seen l :
  NoDup (resultKey <$> firstOccurrences seen l).
Proof.
  revert seen. induction l as [|x l IH]; intros seen; simpl.
  - constructor.
  - case_decide as Hx; [apply IH|].
    rewrite fmap_cons. constructor; [|apply IH].
    intros (r & Hk & Hr)%list_elem_of_fmap.
    apply firstOccurrences_unseen in Hr. set_solver.
Qed.

(** A list without repeated keys, none of them seen, is left as it is. *)
Lemma firstOccurrences_fixed seen l :
  NoDup (resultKey <$> l) →
  (∀ r, r ∈ l → resultKey r ∉ seen) →
  firstOccurrences seen l = l.
Proof.
  revert seen. induction l as [|x l IH]; intros seen Hnd Hseen; simpl; [done|].
  rewrite fmap_cons in Hnd. apply NoDup_cons in Hnd as [Hx Hnd].
  rewrite decide_False by (apply Hseen; left).
  f_equal. apply IH; [done|].
  intros r Hr. specialize (Hseen r (list_elem_of_further _ _ _ Hr)).
  assert (resultKey r ≠ resultKey x).
  { intros Heq. apply Hx. rewrite <- Heq. by apply list_elem_of_fmap_2. }
  set_solver.
Qed.

(** Of the results with key [k], exactly the first one is kept. *)
Lemma firstOccurrences_filter seen l k :
  filter (λ r, resultKey r = k) (firstOccurrences seen l)
  = if decide (k ∈ seen) then []
    else option_list (head (filter (λ r, resultKey r = k) l)).
Proof.
  revert seen. induction l as [|x l IH]; intros seen; simpl.
  - by case_decide.
  - rewrite (filter_cons _ x l).
    destruct (decide (resultKey x ∈ seen)) as [Hx|Hx].
    + rewrite IH. destruct (decide (k ∈ seen)) as [Hk|Hk]; [done|].
      rewrite decide_False; [done|]. by intros <-.
    + rewrite filter_cons, IH.
      destruct (decide (resultKey x = k)) as [<-|Hne].
      * rewrite decide_True by set_solver.
        by rewrite decide_False.
      * destruct (decide (k ∈ seen)) as [Hk|Hk].
        -- by rewrite decide_True by set_solver.
        -- by rewrite decide_False by set_solver.
Qed.

(** [deduplicateResults] is idempotent. *)
Lemma deduplicateResults_idempotent l :
  deduplicateResults (deduplicateResults l) = deduplicateResults l.
Proof.
  rewrite !deduplicateResults_firstOccurrences.
  apply firstOccurrences_fixed; [apply firstOccurrences_NoDup|set_solver].
Qed.

(** It keeps the first result of every key, and keeps the order. *)
Lemma deduplicateResults_first_wins l :
  deduplicateResults l `sublist_of` l
  ∧ NoDup (resultKey <$> deduplicateResults l)
  ∧ ∀ k, filter (λ r, resultKey r = k) (deduplicateResults l)
         = option_list (head (filter (λ r, resultKey r = k) l)).
Proof.
  rewrite deduplicateResults_firstOccurrences.
  split; [apply firstOccurrences_sublist|].
  split; [apply firstOccurrences_NoDup|].
  intros k. by rewrite firstOccurrences_filter, decide_False by set_solver.
Qed.

(** Results that agree on source, title and the first 100 code units of
    the content have the same key. *)
Lemma keyTriple_resultKey a b :
  keyTriple a = keyTriple b → resultKey a = resultKey b.
Proof.
  intros H. unfold resultKey.
  pose proof (f_equal (λ x, x.1.1) H) as Hs.
  pose proof (f_equal (λ x, x.1.2) H) as Ht.
  pose proof (f_equal snd H) as Hc.
  unfold keyTriple in Hs, Ht, Hc. cbn [fst snd] in Hs, Ht, Hc.
  by rewrite Hs, Ht, Hc.
Qed.

End Deduplicate.

Example deduplicateResults_sample :
  SearchService.deduplicateResults
    [Samples.datedAsana; Samples.undatedNotion; Samples.datedAsana;
     Samples.pageBeta; Samples.undatedNotion]
  = [Samples.datedAsana; Samples.undatedNotion; Samples.pageBeta].
Proof. by vm_compute. Qed.

(** C5: the key of [deduplicateResults] does not separate all triples.
    The two resources [Q4-plan] / [draft] and [Q4] / [plan-draft] differ in
    title and in content; the key of both is the string
    [notion-Q4-plan-draft], and the second resource is dropped as a
    duplicate of the first. *)
Theorem deduplicateResults_key_collision :
  SearchService.keyTriple Samples.resourceQ4plan
    ≠ SearchService.keyTriple Samples.resourceQ4
  ∧ SearchService.resultKey Samples.resourceQ4plan
    = lit "notion-Q4-plan-draft"
  ∧ SearchService.resultKey Samples.resourceQ4 = lit "notion-Q4-plan-draft"
  ∧ SearchService.deduplicateResults
      [Samples.resourceQ4plan; Samples.resourceQ4]
    = [Samples.resourceQ4plan].
Proof.
  split; [by vm_compute|].
  split; [by vm_compute|].
  split; by vm_compute.
Qed.

(** ** Running computations *)

#[local] Opaque lit.

Ltac run_M :=
  unfold mbind, M_bind, mret, M_ret, throw, tryCatch, settle, ask, get,
    modifyCalls, modifyBedrock, modifyAgent;
  simpl.

Lemma blank_false_truthy s : blank s = false → truthy s = true.
Proof. by destruct s. Qed.

Lemma bind_Normal {A B} (m : M A) (k : A → M B) env st a st1 :
  m env st = (Normal a, st1) → (m ≫= k) env st = k a env st1.
Proof. intros H. run_M. by rewrite H. Qed.

Lemma bind_Throw {A B} (m : M A) (k : A → M B) env st e st1 :
  m env st = (Throw e, st1) → (m ≫= k) env st = (Throw e, st1).
Proof. intros H. run_M. by rewrite H. Qed.

Lemma readClock_run env st :
  readClock env st =
    (Normal (now env (clockReads (calls st))),
     mkState (mkCalls (S (clockReads (calls st))) (randomDraws (calls st))
                (searches (calls st)) (sends (calls st)))
             (bedrockClient st) (agentService st)).
Proof. reflexivity. Qed.

Lemma drawRandom_run env st :
  drawRandom env st =
    (Normal (randomSuffix env (randomDraws (calls st))),
     mkState (mkCalls (clockReads (calls st)) (S (randomDraws (calls st)))
                (searches (calls st)) (sends (calls st)))
             (bedrockClient st) (agentService st)).
Proof. reflexivity. Qed.

Lemma searchService_run service q env st :
  searchService service q env st =
    (completionOf (searchOutcome env (length (searches (calls st))) service q),
     mkState (mkCalls (clockReads (calls st)) (randomDraws (calls st))
                (searches (calls st) ++ [(service, q)]) (sends (calls st)))
             (bedrockClient st) (agentService st)).
Proof.
  unfold searchService. run_M.
  by destruct (searchOutcome env (length (searches (calls st))) service q).
Qed.

Lemma send_run input env st :
  send input env st =
    (completionOf (sendOutcome env (length (sends (calls st))) input),
     mkState (mkCalls (clockReads (calls st)) (randomDraws (calls st))
                (searches (calls st)) (sends (calls st) ++ [input]))
             (bedrockClient st) (agentService st)).
Proof.
  unfold send. run_M.
  by destruct (sendOutcome env (length (sends (calls st))) input).
Qed.

(** ** [SearchService.search] *)

Section Search.
Import SearchService.

Lemma search_runs env st query :
  blank query = false →
  search query env st =
    (Normal (sortSearchResults (localeCompare env) (getTime env)
               (fulfilledValues (notionOutcome env st (trim query))
                ++ fulfilledValues (asanaOutcome env st (trim query)))),
     mkState (mkCalls (clockReads (calls st)) (randomDraws (calls st))
                (searches (calls st)
                 ++ [(notion, trim query); (asana, trim query)])
                (sends (calls st)))
             (bedrockClient st) (agentService st)).
Proof.
  intros Hb. unfold search, notionOutcome, asanaOutcome.
  rewrite Hb, (blank_false_truthy _ Hb). cbn [negb orb].
  destruct (searchOutcome env (length (searches (calls st))) notion
              (trim query)) eqn:E1;
    destruct (searchOutcome env (S (length (searches (calls st)))) asana
                (trim query)) eqn:E2;
    run_M; rewrite searchService_run, E1; simpl;
    rewrite searchService_run; simpl;
    rewrite length_app, Nat.add_1_r; simpl; rewrite E2; simpl;
    by rewrite <- app_assoc.
Qed.

End Search.

(** C2: a search with a query that is not blank calls both backends, the
    second also when the first has failed, and does not throw.  It returns
    the results of the backends that succeeded and nothing else, in the
    order of [sortSearchResults]: all of them when both succeed, those of
    the one that succeeded when the other fails, and the empty list when
    both fail. *)
Theorem search_tolerates_backend_failure env st query :
  blank query = false →
  ∃ results st',
    SearchService.search query env st = (Normal results, st')
    ∧ searches (calls st')
      = searches (calls st) ++ [(notion, trim query); (asana, trim query)]
    ∧ results ≡ₚ
        SearchService.fulfilledValues
          (SearchService.notionOutcome env st (trim query))
        ++ SearchService.fulfilledValues
             (SearchService.asanaOutcome env st (trim query))
    ∧ (∀ v r, SearchService.notionOutcome env st (trim query) = Fulfilled v →
              SearchService.asanaOutcome env st (trim query) = Rejected r →
              results ≡ₚ v)
    ∧ (∀ r v, SearchService.notionOutcome env st (trim query) = Rejected r →
              SearchService.asanaOutcome env st (trim query) = Fulfilled v →
              results ≡ₚ v)
    ∧ (∀ r1 r2,
         SearchService.notionOutcome env st (trim query) = Rejected r1 →
         SearchService.asanaOutcome env st (trim query) = Rejected r2 →
         results = []).
Proof.
  intros Hb. rewrite (search_runs env st query Hb).
  eexists _, _. split; [done|]. split; [done|].
  split; [apply sortSearchResults_Permutation|].
  split; [|split].
  - intros v r -> ->. simpl. rewrite app_nil_r.
    apply sortSearchResults_Permutation.
  - intros r v -> ->. simpl. apply sortSearchResults_Permutation.
  - by intros r1 r2 -> ->.
Qed.

Lemma search_tolerates_backend_failure_witness :
  ∃ results st',
    SearchService.search (lit " backlog ") Samples.env Samples.state0
    = (Normal results, st')
    ∧ searches (calls st')
      = searches (calls Samples.state0)
        ++ [(notion, trim (lit " backlog "));
            (asana, trim (lit " backlog "))]
    ∧ results ≡ₚ
        SearchService.fulfilledValues
          (SearchService.notionOutcome Samples.env Samples.state0
             (trim (lit " backlog ")))
        ++ SearchService.fulfilledValues
             (SearchService.asanaOutcome Samples.env Samples.state0
                (trim (lit " backlog ")))
    ∧ (∀ v r,
         SearchService.notionOutcome Samples.env Samples.state0
           (trim (lit " backlog ")) = Fulfilled v →
         SearchService.asanaOutcome Samples.env Samples.state0
           (trim (lit " backlog ")) = Rejected r →
         results ≡ₚ v)
    ∧ (∀ r v,
         SearchService.notionOutcome Samples.env Samples.state0
           (trim (lit " backlog ")) = Rejected r →
         SearchService.asanaOutcome Samples.env Samples.state0
           (trim (lit " backlog ")) = Fulfilled v →
         results ≡ₚ v)
    ∧ (∀ r1 r2,
         SearchService.notionOutcome Samples.env Samples.state0
           (trim (lit " backlog ")) = Rejected r1 →
         SearchService.asanaOutcome Samples.env Samples.state0
           (trim (lit " backlog ")) = Rejected r2 →
         results = []).
Proof.
  apply (search_tolerates_backend_failure Samples.env Samples.state0
           (lit " backlog ")).
  reflexivity.
Defined.

(** The search of the sample run: the [notion] backend fails, and the
    result is the one entry of [asana]. *)
Example search_sample :
  (SearchService.search (lit " backlog ") Samples.env Samples.state0).1
  = Normal [Samples.datedAsana].
Proof. by vm_compute. Qed.

(** ** What a computation leaves unchanged *)

Section Preserves.
Context {X : Type} (f : State → X).

Lemma preserves_ret {A} (a : A) : preserves f (mret a).
Proof. by intros env st. Qed.

Lemma preserves_throw {A} e : preserves f (@throw A e).
Proof. by intros env st. Qed.

Lemma preserves_ask : preserves f ask.
Proof. by intros env st. Qed.

Lemma preserves_get : preserves f get.
Proof. by intros env st. Qed.

Lemma preserves_bind {A B} (m : M A) (k : A → M B) :
  preserves f m → (∀ a, preserves f (k a)) → preserves f (m ≫= k).
Proof.
  intros Hm Hk env st. specialize (Hm env st). run_M.
  destruct (m env st) as [[a|e] st1]; simpl in *; [|done].
  by rewrite Hk.
Qed.

Lemma preserves_tryCatch {A} (m : M A) h :
  preserves f m → (∀ e, preserves f (h e)) → preserves f (tryCatch m h).
Proof.
  intros Hm Hh env st. specialize (Hm env st). run_M.
  destruct (m env st) as [[a|e] st1]; simpl in *; [done|].
  by rewrite Hh.
Qed.

Lemma preserves_settle {A} (m : M A) : preserves f m → preserves f (settle m).
Proof.
  intros Hm env st. specialize (Hm env st). run_M.
  by destruct (m env st) as [[a|e] st1].
Qed.

End Preserves.

Ltac preserves_step :=
  first
    [ apply preserves_ret
    | apply preserves_throw
    | apply preserves_ask
    | apply preserves_get
    | apply preserves_settle
    | apply preserves_bind; [|intros ?]
    | apply preserves_tryCatch; [|intros ?]
    | match goal with
      | |- preserves _ (match ?x with _ => _ end) => destruct x
      end
    | assumption ].

(** The primitive computations, component by component. *)
Lemma readClock_agent : preserves agentService readClock.
Proof. by intros env st. Qed.
Lemma readClock_bedrock : preserves bedrockClient readClock.
Proof. by intros env st. Qed.
Lemma readClock_sends : preserves (λ st, sends (calls st)) readClock.
Proof. by intros env st. Qed.
Lemma readClock_searches : preserves (λ st, searches (calls st)) readClock.
Proof. by intros env st. Qed.

Lemma drawRandom_agent : preserves agentService drawRandom.
Proof. by intros env st. Qed.
Lemma drawRandom_bedrock : preserves bedrockClient drawRandom.
Proof. by intros env st. Qed.
Lemma drawRandom_sends : preserves (λ st, sends (calls st)) drawRandom.
Proof. by intros env st. Qed.
Lemma drawRandom_searches : preserves (λ st, searches (calls st)) drawRandom.
Proof. by intros env st. Qed.

Lemma searchService_agent s q : preserves agentService (searchService s q).
Proof. intros env st. by rewrite searchService_run. Qed.
Lemma searchService_bedrock s q : preserves bedrockClient (searchService s q).
Proof. intros env st. by rewrite searchService_run. Qed.
Lemma searchService_sends s q :
  preserves (λ st, sends (calls st)) (searchService s q).
Proof. intros env st. by rewrite searchService_run. Qed.
Lemma searchService_clock s q :
  preserves (λ st, clockReads (calls st)) (searchService s q).
Proof. intros env st. by rewrite searchService_run. Qed.

Lemma send_agent input : preserves agentService (send input).
Proof. intros env st. by rewrite send_run. Qed.
Lemma send_clock input : preserves (λ st, clockReads (calls st)) (send input).
Proof. intros env st. by rewrite send_run. Qed.
Lemma send_searches input :
  preserves (λ st, searches (calls st)) (send input).
Proof. intros env st. by rewrite send_run. Qed.

Lemma modifyBedrock_agent g : preserves agentService (modifyBedrock g).
Proof. by intros env st. Qed.
Lemma modifyBedrock_calls g : preserves calls (modifyBedrock g).
Proof. by intros env st. Qed.
Lemma modifyAgent_bedrock g : preserves bedrockClient (modifyAgent g).
Proof. by intros env st. Qed.
Lemma modifyAgent_calls g : preserves calls (modifyAgent g).
Proof. by intros env st. Qed.

Lemma preserves_calls_field {X A} (g : Calls → X) (m : M A) :
  preserves calls m → preserves (λ st, g (calls st)) m.
Proof. intros H env st. by rewrite H. Qed.

Create HintDb frames discriminated.
#[local] Hint Resolve readClock_agent readClock_bedrock readClock_sends
  readClock_searches drawRandom_agent drawRandom_bedrock drawRandom_sends
  drawRandom_searches searchService_agent searchService_bedrock
  searchService_sends searchService_clock send_agent send_clock
  send_searches modifyBedrock_agent modifyBedrock_calls modifyAgent_bedrock
  modifyAgent_calls : frames.

Ltac solve_preserves :=
  repeat first
    [ solve [eauto with frames]
    | apply preserves_calls_field; solve [eauto with frames]
    | preserves_step ].

Section AgentFrames.
Import BedrockClientService AgentService.

Lemma pushHistory_agent m : preserves agentService (pushHistory m).
Proof. by intros env st. Qed.
Lemma pushHistory_calls m : preserves calls (pushHistory m).
Proof. by intros env st. Qed.

Lemma pushAssistant_agent r : preserves agentService (pushAssistant r).
Proof. unfold pushAssistant. destruct (ConverseResponse.outputMessage r); by intros env st. Qed.
Lemma pushAssistant_calls r : preserves calls (pushAssistant r).
Proof. unfold pushAssistant. destruct (ConverseResponse.outputMessage r); by intros env st. Qed.

Hint Resolve pushHistory_agent pushHistory_calls pushAssistant_agent
  pushAssistant_calls : frames.

Lemma converse_agent msg tools sp : preserves agentService (converse msg tools sp).
Proof. unfold converse. solve_preserves. Qed.

Lemma converse_clock msg tools sp :
  preserves (λ st, clockReads (calls st)) (converse msg tools sp).
Proof. unfold converse. solve_preserves. Qed.

Lemma continueWithToolResults_agent rs :
  preserves agentService (continueWithToolResults rs).
Proof. unfold continueWithToolResults. solve_preserves. Qed.

Lemma continueWithToolResults_clock rs :
  preserves (λ st, clockReads (calls st)) (continueWithToolResults rs).
Proof. unfold continueWithToolResults. solve_preserves. Qed.

Lemma executeMCPTool_agent name input :
  preserves agentService (executeMCPTool name input).
Proof. unfold executeMCPTool. solve_preserves. Qed.

Lemma executeMCPTool_bedrock name input :
  preserves bedrockClient (executeMCPTool name input).
Proof. unfold executeMCPTool. solve_preserves. Qed.

Lemma executeMCPTool_sends name input :
  preserves (λ st, sends (calls st)) (executeMCPTool name input).
Proof. unfold executeMCPTool. solve_preserves. Qed.

Lemma executeMCPTool_clock name input :
  preserves (λ st, clockReads (calls st)) (executeMCPTool name input).
Proof. unfold executeMCPTool. solve_preserves. Qed.

Hint Resolve executeMCPTool_agent executeMCPTool_bedrock
  executeMCPTool_sends executeMCPTool_clock : frames.

Lemma toolStep_preserves {X} (f : State → X) tu run :
  preserves f (executeMCPTool (ToolUse.name tu) (ToolUse.input tu)) →
  preserves f (toolStep tu run).
Proof. intros H. unfold toolStep. solve_preserves. Qed.

Lemma toolLoop_preserves {X} (f : State → X) tus run :
  (∀ name input, preserves f (executeMCPTool name input)) →
  preserves f (toolLoop tus run).
Proof.
  intros H. revert run. induction tus as [|tu tus IH]; intros run; simpl.
  - apply preserves_ret.
  - apply preserves_bind; [by apply toolStep_preserves|]. intros run'. apply IH.
Qed.

End AgentFrames.

(** ** [BedrockClientService]: what one call does *)

Section InvokerRuns.
Import BedrockClientService.

Lemma converse_run msg tools sp env st :
  converse msg tools sp env st =
    let input := converseInput st msg tools sp in
    match sendOutcome env (length (sends (calls st))) input with
    | Fulfilled response =>
        (Normal (converseResult response),
         withHistory (conversationHistory (bedrockClient st)
                      ++ [Message.mk user [CText msg]]
                      ++ assistantEntry response)
                     (logSend input st))
    | Rejected reason =>
        (Throw (ThrowError (lit "LLM conversation failed: " ++ reason)),
         logSend input st)
    end.
Proof.
  unfold converse. run_M. rewrite send_run. fold (converseInput st msg tools sp).
  destruct (sendOutcome env (length (sends (calls st)))
              (converseInput st msg tools sp)) as [response|reason]; simpl;
    [|done].
  unfold pushAssistant, assistantEntry, pushHistory.
  destruct (ConverseResponse.outputMessage response); run_M;
    unfold withHistory, logSend, converseResult; simpl;
    by rewrite <- ?app_assoc, ?app_nil_r.
Qed.

Lemma continueWithToolResults_run results env st :
  continueWithToolResults results env st =
    let input := continueInput st results in
    let st1 :=
      logSend input
        (withHistory (ConverseCommandInput.messages input) st) in
    match sendOutcome env (length (sends (calls st))) input with
    | Fulfilled response =>
        (Normal (textOf (contentOf response)),
         withHistory (ConverseCommandInput.messages input
                      ++ assistantEntry response) st1)
    | Rejected reason =>
        (Throw (ThrowError (lit "Tool result processing failed: "
                            ++ reason)), st1)
    end.
Proof.
  unfold continueWithToolResults, pushHistory. run_M. rewrite send_run.
  simpl. fold (continueInput st results).
  destruct (sendOutcome env (length (sends (calls st)))
              (continueInput st results)) as [response|reason]; simpl;
    [|done].
  unfold pushAssistant, assistantEntry, pushHistory.
  destruct (ConverseResponse.outputMessage response); run_M;
    unfold withHistory, logSend; simpl;
    by rewrite ?app_nil_r.
Qed.

End InvokerRuns.

(** ** The tool loop *)

Section ToolLoop.
Import BedrockClientService AgentService.

Lemma toolStep_run tu run env st :
  toolStep tu run env st =
    let '(c, st1) :=
      executeMCPTool (ToolUse.name tu) (ToolUse.input tu) env st in
    (Normal
       (mkToolRun
          (toolResults run ++ [toolResultOf tu c])
          (match c with
           | Normal _ => toolsUsed run ++ [ToolUse.name tu]
           | Throw _ => toolsUsed run
           end)
          (match c with
           | Normal (x :: result) => searchResults run ++ x :: result
           | _ => searchResults run
           end)),
     st1).
Proof.
  unfold toolStep. run_M.
  destruct (executeMCPTool (ToolUse.name tu) (ToolUse.input tu) env st)
    as [[result|e] st1]; [|done].
  by destruct result.
Qed.

(** The loop never throws, and it records the result of every dispatch,
    in the order of the requests. *)
Lemma toolLoop_run tus run env st :
  ∃ run' st',
    toolLoop tus run env st = (Normal run', st')
    ∧ toolResults run'
      = toolResults run ++ zip_with toolResultOf tus (dispatches tus env st).
Proof.
  revert run st. induction tus as [|tu tus IH]; intros run st; simpl.
  - eexists _, _. split; [done|]. by rewrite app_nil_r.
  - run_M. rewrite toolStep_run.
    destruct (executeMCPTool (ToolUse.name tu) (ToolUse.input tu) env st)
      as [c st1].
    destruct (IH (mkToolRun
                    (toolResults run ++ [toolResultOf tu c])
                    (match c with
                     | Normal _ => toolsUsed run ++ [ToolUse.name tu]
                     | Throw _ => toolsUsed run
                     end)
                    (match c with
                     | Normal (x :: result) => searchResults run ++ x :: result
                     | _ => searchResults run
                     end)) st1) as (run' & st' & Hrun & Hres).
    exists run', st'. rewrite Hrun. split; [done|].
    rewrite Hres. simpl. by rewrite <- app_assoc.
Qed.

Lemma dispatches_length tus env st :
  length (dispatches tus env st) = length tus.
Proof.
  revert st. induction tus as [|tu tus IH]; intros st; simpl; [done|].
  destruct (executeMCPTool _ _ env st). simpl. by rewrite IH.
Qed.

Lemma zip_toolResultOf_ids tus cs :
  length cs = length tus →
  ToolExecutionResult.toolUseId <$> zip_with toolResultOf tus cs
  = ToolUse.toolUseId <$> tus.
Proof.
  revert cs. induction tus as [|tu tus IH]; intros [|c cs] Hlen;
    simpl in *; try done.
  f_equal; [by destruct c|]. apply IH. lia.
Qed.

Lemma zip_toolResultOf_payloadOrError tus cs :
  Forall payloadOrError (zip_with toolResultOf tus cs).
Proof.
  revert cs. induction tus as [|tu tus IH]; intros [|c cs]; simpl;
    try constructor; [|apply IH].
  destruct c; [left|right]; simpl; eauto.
Qed.

(** A tool name the service does not know makes the dispatch throw. *)
Lemma executeMCPTool_unknown name q env st :
  truthy q = true →
  name ≠ lit "searchNotion" → name ≠ lit "searchAsana" →
  name ≠ lit "searchAll" →
  executeMCPTool name {| query := VString q |} env st
  = (Throw (ThrowError (lit "Unknown tool: " ++ name)), st).
Proof.
  intros Hq H1 H2 H3. unfold executeMCPTool. simpl. rewrite Hq.
  by rewrite !decide_False.
Qed.

End ToolLoop.

(** ** One chat turn *)

Section ChatTurn.
Import BedrockClientService AgentService.

Lemma alter_alter {A} (f g : A → A) i (l : list A) :
  alter f i (alter g i l) = alter (f ∘ g) i l.
Proof.
  revert i. induction l as [|x l IH]; intros [|i]; simpl; try done.
  f_equal. apply IH.
Qed.

Arguments recordAndReturn : simpl never.

Lemma alter_list_ext {A} (f g : A → A) i (l : list A) :
  (∀ x, f x = g x) → alter f i l = alter g i l.
Proof.
  intros H. revert i. induction l as [|x l IH]; intros [|i]; simpl; try done.
  - by rewrite H.
  - f_equal. apply IH.
Qed.

Lemma recordAndReturn_run message cid addr final run env st :
  recordAndReturn message cid addr final run env st
  = (Normal (agentResponse final cid run),
     recordTurn env addr message final (toolsUsed run) st).
Proof.
  unfold recordAndReturn, pushMessage, setUpdatedAt. run_M.
  unfold recordTurn, agentResponse. simpl.
  rewrite !alter_alter. do 3 f_equal.
  apply alter_list_ext. intros conv. unfold turnRecorded, userEntry, assistantReply.
  simpl. by rewrite <- app_assoc.
Qed.

Lemma chatTurn_run message cid addr env st :
  chatTurn message cid addr env st =
    match sendOutcome env (length (sends (calls st))) (firstInput st message)
    with
    | Rejected reason =>
        (Throw (ThrowError (lit "LLM conversation failed: " ++ reason)),
         logSend (firstInput st message) st)
    | Fulfilled reply =>
        let st1 := afterConverse st (firstInput st message) message reply in
        if needsToolExecution (converseResult reply) then
          match toolLoop (toolUses (converseResult reply))
                         (mkToolRun [] [] []) env st1 with
          | (Normal run, st2) =>
              match continueWithToolResults (toolResults run) env st2 with
              | (Normal final, st3) =>
                  (Normal (agentResponse final cid run),
                   recordTurn env addr message final (toolsUsed run) st3)
              | (Throw e, st3) => (Throw e, st3)
              end
          | (Throw e, st2) => (Throw e, st2)
          end
        else
          (Normal (agentResponse (response (converseResult reply)) cid
                                 (mkToolRun [] [] [])),
           recordTurn env addr message (response (converseResult reply))
                      [] st1)
    end.
Proof.
  assert (Hneeds : ∀ reply,
    needsToolExecution (converseResult reply)
    && bool_decide (0 < length (toolUses (converseResult reply)))%nat
    = needsToolExecution (converseResult reply)).
  { intros reply. unfold converseResult. simpl.
    destruct (bool_decide (ConverseResponse.stopReason reply = tool_use));
      simpl; [|done].
    by destruct (bool_decide _). }
  unfold chatTurn. cbv zeta.
  rewrite (bind_Normal get _ env st st st) by done.
  pose proof (converse_run message getMCPToolSpecs
                (Some (systemPrompt (agentService st))) env st) as Hc.
  cbv zeta in Hc. change (converseInput st message getMCPToolSpecs (Some (systemPrompt (agentService st)))) with (firstInput st message) in Hc.
  destruct (sendOutcome env (length (sends (calls st)))
              (firstInput st message)) as [reply|reason].
  2: { by rewrite (bind_Throw _ _ _ _ _ _ Hc). }
  rewrite (bind_Normal _ _ _ _ _ _ Hc). rewrite Hneeds.
  fold (afterConverse st (firstInput st message) message reply).
  cbv zeta.
  destruct (needsToolExecution (converseResult reply)).
  - destruct (toolLoop (toolUses (converseResult reply))
                (mkToolRun [] [] [])
                env (afterConverse st (firstInput st message) message reply))
      as [[run|e] st2] eqn:Hloop.
    2: { erewrite bind_Throw; [done|]. by erewrite bind_Throw. }
    destruct (continueWithToolResults (toolResults run) env st2)
      as [[final|e] st3] eqn:Hcont.
    2: { erewrite bind_Throw; [done|].
         erewrite bind_Normal by exact Hloop. by erewrite bind_Throw. }
    erewrite bind_Normal.
    2: { erewrite bind_Normal by exact Hloop.
         erewrite bind_Normal by exact Hcont. done. }
    apply (recordAndReturn_run message cid addr final run env st3).
  - erewrite bind_Normal by done.
    apply (recordAndReturn_run message cid addr
             (response (converseResult reply)) (mkToolRun [] [] [])).
Qed.

End ChatTurn.

(** ** One chat call *)

Section Chat.
Import BedrockClientService AgentService.

Lemma createConversation_run env st :
  createConversation env st
  = (Normal (newConversationId env st), afterCreate env st).
Proof. reflexivity. Qed.

Lemma lookupConversation_afterCreate env st :
  lookupConversation (afterCreate env st) (newConversationId env st)
  = Some (length (heap (agentService st))).
Proof.
  unfold lookupConversation, afterCreate. simpl.
  rewrite lookup_insert_eq. simpl.
  rewrite lookup_app_r by done. by rewrite Nat.sub_diag.
Qed.

Lemma resolveConversation_run cid env st :
  resolveConversation cid env st =
    match truthy_opt cid with
    | Some c =>
        match lookupConversation st c with
        | Some addr => (Normal (c, addr), st)
        | None =>
            (Throw (ThrowApiError (lit "Conversation not found") None), st)
        end
    | None =>
        (Normal (newConversationId env st, length (heap (agentService st))),
         afterCreate env st)
    end.
Proof.
  unfold resolveConversation.
  destruct (truthy_opt cid) as [c|].
  - rewrite (bind_Normal (mret c) _ env st c st) by done.
    rewrite (bind_Normal get _ env st st st) by done.
    by destruct (lookupConversation st c).
  - rewrite (bind_Normal _ _ _ _ _ _ (createConversation_run env st)).
    rewrite (bind_Normal get _ env _ (afterCreate env st) (afterCreate env st))
      by done.
    by rewrite lookupConversation_afterCreate.
Qed.

Lemma chat_run message cid env st :
  chat message cid env st =
    if negb (truthy message) || blank message
    then (Throw (ThrowApiError (lit "Message cannot be empty") None), st)
    else
      match resolveConversation cid env st with
      | (Normal (c, addr), st1) =>
          match chatTurn message c addr env st1 with
          | (Normal r, st2) => (Normal r, st2)
          | (Throw e, st2) =>
              (Throw (ThrowApiError (lit "Agent conversation failed: "
                                     ++ errorMessage e) None), st2)
          end
      | (Throw e, st1) => (Throw e, st1)
      end.
Proof.
  unfold chat. destruct (negb (truthy message) || blank message); [done|].
  destruct (resolveConversation cid env st) as [[[c addr]|e] st1] eqn:Hr.
  - rewrite (bind_Normal _ _ _ _ _ _ Hr). unfold tryCatch.
    by destruct (chatTurn message c addr env st1) as [[r|e] st2].
  - by rewrite (bind_Throw _ _ _ _ _ _ Hr).
Qed.

Lemma continueWithToolResults_sends rs env st :
  sends (calls (continueWithToolResults rs env st).2)
  = sends (calls st) ++ [continueInput st rs].
Proof.
  rewrite continueWithToolResults_run. cbv zeta.
  by destruct (sendOutcome env (length (sends (calls st)))
                 (continueInput st rs)).
Qed.

(** The requests one chat turn sends: the first one, and the
    continuation when tools were requested. *)
Lemma chatTurn_sends message cid addr env st :
  ∃ more,
    sends (calls (chatTurn message cid addr env st).2)
    = sends (calls st) ++ firstInput st message :: more.
Proof.
  rewrite chatTurn_run.
  destruct (sendOutcome env (length (sends (calls st)))
              (firstInput st message)) as [reply|reason]; [|by exists []].
  cbv zeta.
  destruct (needsToolExecution (converseResult reply)); [|by exists []].
  pose proof (toolLoop_preserves (λ st, sends (calls st))
                (toolUses (converseResult reply)) (mkToolRun [] [] [])
                executeMCPTool_sends env
                (afterConverse st (firstInput st message) message reply))
    as Hs.
  destruct (toolLoop _ _ env _) as [[run|e] st2]; simpl in Hs.
  - pose proof (continueWithToolResults_sends (toolResults run) env st2) as Hc.
    destruct (continueWithToolResults (toolResults run) env st2)
      as [[final|e] st3]; unfold recordTurn; simpl in Hc |- *;
      rewrite Hc, Hs;
      exists [continueInput st2 (toolResults run)]; by rewrite <- app_assoc.
  - exists []. simpl. by rewrite Hs.
Qed.

End Chat.

Section ChatOutcomes.
Import BedrockClientService AgentService.

(** Up to the end of the [try] block a chat turn neither reads the clock
    nor touches the conversations. *)
Lemma chatTurn_cases message cid addr env st :
  (∃ e st',
      chatTurn message cid addr env st = (Throw e, st')
      ∧ agentService st' = agentService st
      ∧ clockReads (calls st') = clockReads (calls st))
  ∨ (∃ final run stp,
      chatTurn message cid addr env st
      = (Normal (agentResponse final cid run),
         recordTurn env addr message final (toolsUsed run) stp)
      ∧ agentService stp = agentService st
      ∧ clockReads (calls stp) = clockReads (calls st)).
Proof.
  rewrite chatTurn_run.
  destruct (sendOutcome env (length (sends (calls st)))
              (firstInput st message)) as [reply|reason].
  2: { left. by eexists _, _. }
  cbv zeta.
  destruct (needsToolExecution (converseResult reply)).
  2: { right. by eexists _, (mkToolRun [] [] []), _. }
  pose proof (toolLoop_preserves agentService
                (toolUses (converseResult reply)) (mkToolRun [] [] [])
                executeMCPTool_agent env
                (afterConverse st (firstInput st message) message reply))
    as Ha.
  pose proof (toolLoop_preserves (λ st, clockReads (calls st))
                (toolUses (converseResult reply)) (mkToolRun [] [] [])
                executeMCPTool_clock env
                (afterConverse st (firstInput st message) message reply))
    as Hk.
  destruct (toolLoop _ _ env _) as [[run|e] st2]; simpl in Ha, Hk.
  2: { left. by eexists _, _. }
  pose proof (continueWithToolResults_agent (toolResults run) env st2) as Ha'.
  pose proof (continueWithToolResults_clock (toolResults run) env st2) as Hk'.
  destruct (continueWithToolResults (toolResults run) env st2)
    as [[final|e] st3]; simpl in Ha', Hk'.
  - right. eexists _, _, _. split; [done|]. split; congruence.
  - left. eexists _, _. split; [done|]. split; congruence.
Qed.

Lemma chatTurn_Throw message cid addr env st e st' :
  chatTurn message cid addr env st = (Throw e, st') →
  agentService st' = agentService st.
Proof.
  intros H.
  destruct (chatTurn_cases message cid addr env st)
    as [(e' & st'' & H' & Ha & _)|(final & run & stp & H' & _)];
    rewrite H' in H; by simplify_eq.
Qed.

Lemma recordTurn_lookup env addr message final used st conv :
  heap (agentService st) !! addr = Some conv →
  heap (agentService (recordTurn env addr message final used st)) !! addr
  = Some (turnRecorded env (clockReads (calls st)) message final used conv).
Proof.
  intros H. unfold recordTurn. simpl.
  by rewrite list_lookup_alter_eq, H.
Qed.

Lemma recordTurn_lookup_ne env addr message final used st a :
  a ≠ addr →
  heap (agentService (recordTurn env addr message final used st)) !! a
  = heap (agentService st) !! a.
Proof.
  intros H. unfold recordTurn. simpl. by rewrite list_lookup_alter_ne.
Qed.

Lemma lookupConversation_Some st c addr :
  lookupConversation st c = Some addr →
  conversations (agentService st) !! c = Some addr
  ∧ is_Some (heap (agentService st) !! addr).
Proof.
  unfold lookupConversation. intros H.
  destruct (conversations (agentService st) !! c) as [a|]; [|done].
  simpl in H. destruct (heap (agentService st) !! a) eqn:Ha; [|done].
  simpl in H. simplify_eq. eauto.
Qed.

End ChatOutcomes.

(** C8: a query or a message that is empty or consists of white space
    only is rejected with a validation error, and the state is left as it
    was: no backend was called, and nothing was sent to the model. *)
Theorem blank_requests_rejected env st s cid :
  forallb isWhiteSpace s = true →
  SearchService.search s env st
  = (Throw (ThrowApiError (lit "Search query cannot be empty") None), st)
  ∧ AgentService.chat s cid env st
    = (Throw (ThrowApiError (lit "Message cannot be empty") None), st).
Proof.
  intros Hs. apply blank_all_ws in Hs.
  unfold SearchService.search, AgentService.chat.
  by rewrite Hs, orb_true_r.
Qed.

Lemma blank_requests_rejected_witness :
  SearchService.search (lit "   ") Samples.env Samples.state1
  = (Throw (ThrowApiError (lit "Search query cannot be empty") None),
     Samples.state1)
  ∧ AgentService.chat (lit "   ") (Some Samples.conversation1)
      Samples.env Samples.state1
    = (Throw (ThrowApiError (lit "Message cannot be empty") None),
       Samples.state1).
Proof.
  apply (blank_requests_rejected Samples.env Samples.state1 (lit "   ")
           (Some Samples.conversation1)).
  reflexivity.
Defined.

(** The empty string is the first case of it. *)
Example chat_empty_rejected env st cid :
  AgentService.chat [] cid env st
  = (Throw (ThrowApiError (lit "Message cannot be empty") None), st).
Proof. reflexivity. Qed.

(** The first chat call of the sample run: the model asks for
    [searchAsana] and for a tool that does not exist; the answer names the
    tool that ran. *)
Example chat_sample :
  (AgentService.chat (lit "find the backlog") None Samples.env
     Samples.state0).1
  = Normal (AgentResponse.mk (lit "There is one item in Asana.")
              [lit "searchAsana"] (Some [Samples.datedAsana])
              Samples.conversation1)
  ∧ (AgentService.getConversation Samples.conversation1 Samples.env
       Samples.state1).1
    = Normal (Some (AgentConversation.mk Samples.conversation1
                      [ChatMessage.mk user (lit "find the backlog")
                         1714557600003 None;
                       ChatMessage.mk assistant
                         (lit "There is one item in Asana.")
                         1714557600004 (Some [lit "searchAsana"])]
                      1714557600001 1714557600005)).
Proof. split; by vm_compute. Qed.

(** C10: a chat call that throws leaves every conversation object as it
    was, the resolved one among them: its messages and its [updatedAt]
    are unchanged.  When the call names its conversation, the whole state
    of the agent service is unchanged. *)
Theorem failed_chat_keeps_conversations env st message cid e st' :
  AgentService.chat message cid env st = (Throw e, st') →
  (∀ addr conv,
     heap (agentService st) !! addr = Some conv →
     heap (agentService st') !! addr = Some conv)
  ∧ (is_Some (truthy_opt cid) → agentService st' = agentService st).
Proof.
  rewrite chat_run.
  destruct (negb (truthy message) || blank message).
  { intros [= <- <-]. done. }
  rewrite resolveConversation_run.
  destruct (truthy_opt cid) as [c|].
  - destruct (AgentService.lookupConversation st c) as [addr|].
    + destruct (AgentService.chatTurn message c addr env st)
        as [[r|e'] st2] eqn:Ht; [done|].
      intros [= <- <-]. apply chatTurn_Throw in Ht. rewrite Ht. done.
    + intros [= <- <-]. done.
  - destruct (AgentService.chatTurn message (newConversationId env st)
                (length (heap (agentService st))) env (afterCreate env st))
      as [[r|e'] st2] eqn:Ht; [done|].
    intros [= <- <-]. apply chatTurn_Throw in Ht. rewrite Ht.
    split; [|by intros [? ?]].
    intros addr conv H. simpl. by apply lookup_app_l_Some.
Qed.

Lemma failed_chat_keeps_conversations_witness :
  ∃ st',
    AgentService.chat (lit "more") (Some Samples.conversation1)
      Samples.env Samples.state2
    = (Throw (ThrowApiError
                (lit "Agent conversation failed: LLM conversation failed: ThrottlingException")
                None), st')
    ∧ agentService st' = agentService Samples.state2.
Proof.
  eexists. split; [vm_compute; reflexivity|].
  refine (proj2 (failed_chat_keeps_conversations Samples.env Samples.state2
            (lit "more") (Some Samples.conversation1) _ _ _) _).
  - vm_compute. reflexivity.
  - vm_compute. eauto.
Defined.

(** C3, as the code has it.  The requests of a chat call are added to
    those sent before, and the first of them, if the call reaches the
    model, carries the history the model invoker keeps itself, followed by
    the new user message.  The messages of the resolved conversation are
    not what is sent. *)
Theorem chat_sends_invoker_history env st message cid :
  ∃ requests,
    sends (calls (AgentService.chat message cid env st).2)
    = sends (calls st) ++ requests
    ∧ ∀ input,
        head requests = Some input →
        ConverseCommandInput.messages input
        = conversationHistory (bedrockClient st)
          ++ [Message.mk user [CText message]].
Proof.
  rewrite chat_run.
  destruct (negb (truthy message) || blank message).
  { exists []. by rewrite app_nil_r. }
  rewrite resolveConversation_run.
  destruct (truthy_opt cid) as [c|].
  - destruct (AgentService.lookupConversation st c) as [addr|].
    2: { exists []. by rewrite app_nil_r. }
    destruct (chatTurn_sends message c addr env st) as [more Hs].
    exists (firstInput st message :: more).
    split; [|by intros input [= <-]].
    by destruct (AgentService.chatTurn message c addr env st) as [[r|e] st2].
  - destruct (chatTurn_sends message (newConversationId env st)
                (length (heap (agentService st))) env (afterCreate env st))
      as [more Hs].
    exists (firstInput (afterCreate env st) message :: more).
    split; [|by intros input [= <-]].
    by destruct (AgentService.chatTurn _ _ _ env (afterCreate env st))
      as [[r|e] st2].
Qed.

(** C3, as the specification words it, fails.  The second chat call of
    the sample run is made in the conversation of the first.  That
    conversation holds two messages; the request carries the four entries
    of the invoker's history, the tool request and the tool results among
    them, and then the new message. *)
Lemma chat_transcript_not_conversation :
  ∃ input conv,
    sends (calls Samples.state2) = sends (calls Samples.state1) ++ [input]
    ∧ (AgentService.getConversation Samples.conversation1
         Samples.env Samples.state1).1 = Normal (Some conv)
    ∧ length (AgentService.transcriptOf conv) = 2%nat
    ∧ length (ConverseCommandInput.messages input) = 5%nat
    ∧ ConverseCommandInput.messages input
      ≠ AgentService.transcriptOf conv
        ++ [Message.mk user [CText (lit "hello")]].
Proof.
  eexists _, _.
  split; [vm_compute; reflexivity|].
  split; [vm_compute; reflexivity|].
  split; [by vm_compute|].
  split; [by vm_compute|].
  intros H. apply (f_equal length) in H. vm_compute in H. done.
Qed.

(** C6: in a chat turn whose first response requests tools, every
    requested tool use is dispatched, each in turn, and the loop records
    one result for it under its [toolUseId]: the payload if the dispatch
    completed, and no payload but the message of the error if it threw, as
    it does for a tool name the service does not know.  The continuation
    request is sent after the loop and ends with these results, one
    [toolResult] block for each. *)
Theorem tool_calls_answered_once env st message cid addr reply :
  sendOutcome env (length (sends (calls st))) (firstInput st message)
  = Fulfilled reply →
  BedrockClientService.needsToolExecution (converseResult reply) = true →
  ∃ input2,
    sends (calls (AgentService.chatTurn message cid addr env st).2)
    = sends (calls st) ++ [firstInput st message; input2]
    ∧ last (ConverseCommandInput.messages input2)
      = Some (Message.mk user
                (BedrockClientService.toolResultBlock
                   <$> recordedResults env
                         (afterConverse st (firstInput st message) message
                                        reply)
                         (BedrockClientService.toolUses
                            (converseResult reply))))
    ∧ ToolExecutionResult.toolUseId
        <$> recordedResults env
              (afterConverse st (firstInput st message) message reply)
              (BedrockClientService.toolUses (converseResult reply))
      = ToolUse.toolUseId
          <$> BedrockClientService.toolUses (converseResult reply)
    ∧ Forall payloadOrError
        (recordedResults env
           (afterConverse st (firstInput st message) message reply)
           (BedrockClientService.toolUses (converseResult reply)))
    ∧ ∀ name q id env' st',
        truthy q = true →
        name ∉ [lit "searchNotion"; lit "searchAsana"; lit "searchAll"] →
        toolResultOf (ToolUse.mk name {| query := VString q |} id)
          (AgentService.executeMCPTool name {| query := VString q |}
             env' st').1
        = ToolExecutionResult.mk id None
            (Some (lit "Unknown tool: " ++ name)).
Proof.
  intros Hreply Hneeds.
  set (st1 := afterConverse st (firstInput st message) message reply).
  set (requested := BedrockClientService.toolUses (converseResult reply)).
  destruct (toolLoop_run requested (AgentService.mkToolRun [] [] []) env st1)
    as (run & st2 & Hloop & Hres).
  simpl in Hres. fold (recordedResults env st1 requested) in Hres.
  pose proof (toolLoop_preserves (λ st, sends (calls st)) requested
                (AgentService.mkToolRun [] [] [])
                executeMCPTool_sends env st1) as Hs.
  pose proof (toolLoop_preserves bedrockClient requested
                (AgentService.mkToolRun [] [] [])
                executeMCPTool_bedrock env st1) as Hb.
  rewrite Hloop in Hs, Hb. simpl in Hs, Hb.
  exists (continueInput st2 (AgentService.toolResults run)).
  split; [|split; [|split; [|split]]].
  - rewrite chatTurn_run, Hreply. cbv zeta. rewrite Hneeds.
    fold st1 requested. rewrite Hloop.
    pose proof (continueWithToolResults_sends
                  (AgentService.toolResults run) env st2) as Hc.
    destruct (BedrockClientService.continueWithToolResults
                (AgentService.toolResults run) env st2) as [[final|e] st3];
      unfold recordTurn; simpl in Hc |- *; rewrite Hc, Hs;
      by rewrite <- app_assoc.
  - unfold continueInput. simpl. by rewrite last_snoc, Hres.
  - apply zip_toolResultOf_ids, dispatches_length.
  - apply zip_toolResultOf_payloadOrError.
  - intros name q id env' st' Hq Hname.
    rewrite executeMCPTool_unknown; [done|done|..];
      intros ->; apply Hname; set_solver.
Qed.

Lemma tool_calls_answered_once_witness :
  ∃ input2,
    sends (calls (AgentService.chatTurn (lit "find the backlog")
                    Samples.conversation1 0
                    Samples.env (afterCreate Samples.env Samples.state0)).2)
    = sends (calls (afterCreate Samples.env Samples.state0))
      ++ [firstInput (afterCreate Samples.env Samples.state0)
                     (lit "find the backlog"); input2]
    ∧ last (ConverseCommandInput.messages input2)
      = Some (Message.mk user
                [CToolResult (lit "tooluse_1")
                   [TRJson (Some [Samples.datedAsana])];
                 CToolResult (lit "tooluse_2")
                   [TRText (lit "Error: Unknown tool: searchJira")]]).
Proof.
  destruct (tool_calls_answered_once Samples.env
              (afterCreate Samples.env Samples.state0)
              (lit "find the backlog") Samples.conversation1 0
              Samples.toolRequest)
    as (input2 & Hsends & Hlast & _); [reflexivity|reflexivity|].
  exists input2. split; [exact Hsends|].
  rewrite Hlast. reflexivity.
Defined.

(** ** Conversations only grow *)

Section Grows.
Import BedrockClientService AgentService.
Variable env : Environment.

Lemma grows_refl st : grows st st.
Proof. intros addr conv H. exists conv. repeat split; done. Qed.

Lemma grows_trans st1 st2 st3 : grows st1 st2 → grows st2 st3 → grows st1 st3.
Proof.
  intros H1 H2 addr conv H.
  destruct (H1 addr conv H) as (conv2 & Hl2 & Hp2 & Hi2 & Hcr2).
  destruct (H2 addr conv2 Hl2) as (conv3 & Hl3 & Hp3 & Hi3 & Hcr3).
  exists conv3. split; [done|].
  split; [by etrans|]. split; congruence.
Qed.

Lemma grows_same_heap st st' :
  heap (agentService st') = heap (agentService st) → grows st st'.
Proof.
  intros Hh addr conv H. exists conv. rewrite Hh. repeat split; done.
Qed.

Lemma grows_afterCreate st : grows st (afterCreate env st).
Proof.
  intros addr conv H. exists conv. simpl.
  split; [by apply lookup_app_l_Some|]. repeat split; done.
Qed.

Lemma grows_recordTurn addr message final used st :
  grows st (recordTurn env addr message final used st).
Proof.
  intros a conv H. unfold recordTurn. simpl.
  rewrite list_lookup_alter. case_decide as Ha.
  - subst a. rewrite H. simpl. eexists. split; [done|]. simpl.
    split; [by apply prefix_app_r|]. split; done.
  - exists conv. repeat split; done.
Qed.

Lemma grows_chatTurn message cid addr st :
  grows st (chatTurn message cid addr env st).2.
Proof.
  destruct (chatTurn_cases message cid addr env st)
    as [(e & st' & -> & Ha & Hc)|(final & run & stp & -> & Ha & Hc)]; simpl.
  - apply grows_same_heap. by rewrite Ha.
  - apply (grows_trans _ stp).
    + apply grows_same_heap. by rewrite Ha.
    + apply grows_recordTurn.
Qed.

Lemma grows_chat message cid st : grows st (chat message cid env st).2.
Proof.
  rewrite chat_run.
  destruct (negb (truthy message) || blank message); [apply grows_refl|].
  rewrite resolveConversation_run.
  destruct (truthy_opt cid) as [c|].
  - destruct (lookupConversation st c) as [addr|]; [|apply grows_refl].
    pose proof (grows_chatTurn message c addr st) as H.
    by destruct (chatTurn message c addr env st) as [[r|e] st2].
  - apply (grows_trans _ (afterCreate env st)); [apply grows_afterCreate|].
    pose proof (grows_chatTurn message (newConversationId env st)
                  (length (heap (agentService st))) (afterCreate env st)) as H.
    by destruct (chatTurn _ _ _ env (afterCreate env st)) as [[r|e] st2].
Qed.

(** No call of the service changes or removes a message, whatever the
    clock reads. *)
Lemma grows_perform op st : grows st (perform op env st).2.
Proof.
  destruct op as [|message cid|c|c| |p]; simpl.
  - apply grows_afterCreate.
  - pose proof (grows_chat message cid st) as H.
    unfold perform. run_M.
    by destruct (chat message cid env st) as [[r|e] st'].
  - apply grows_refl.
  - unfold clearConversation. run_M.
    destruct (lookupConversation st c); simpl; [|apply grows_refl].
    by apply grows_same_heap.
  - by apply grows_same_heap.
  - by apply grows_same_heap.
Qed.

End Grows.

(** ** With a clock that is not set back, [updatedAt] does not decrease *)

Section AppendOnly.
Import BedrockClientService AgentService.
Variable env : Environment.
Hypothesis clock_monotone : ∀ n, now env n ≤ now env (S n).

Lemma now_le n m : (n ≤ m)%nat → now env n ≤ now env m.
Proof.
  induction 1 as [|m _ IH]; [lia|].
  pose proof (clock_monotone m). lia.
Qed.

Lemma advances_refl st : advances env st st.
Proof.
  split; [done|]. intros Hst. split; [done|].
  intros addr conv H. exists conv. repeat split; done.
Qed.

Lemma advances_trans st1 st2 st3 :
  advances env st1 st2 → advances env st2 st3 → advances env st1 st3.
Proof.
  intros [Hc1 H1] [Hc2 H2]. split; [lia|].
  intros Hst. destruct (H1 Hst) as [Hst2 Hg1].
  destruct (H2 Hst2) as [Hst3 Hg2]. split; [done|].
  intros addr conv H.
  destruct (Hg1 addr conv H) as (conv2 & Hl2 & Hp2 & Hi2 & Hcr2 & Hu2).
  destruct (Hg2 addr conv2 Hl2) as (conv3 & Hl3 & Hp3 & Hi3 & Hcr3 & Hu3).
  exists conv3. split; [done|].
  split; [by etrans|]. split; [congruence|]. split; [congruence|lia].
Qed.

(** The heap is the same and the clock has not been set back. *)
Lemma advances_same_heap st st' :
  heap (agentService st') = heap (agentService st) →
  (clockReads (calls st) ≤ clockReads (calls st'))%nat →
  advances env st st'.
Proof.
  intros Hh Hc. split; [done|]. intros Hst. split.
  - intros addr conv H. rewrite Hh in H.
    destruct (Hst addr conv H) as (n & Hn & Hu). exists n. split; [lia|done].
  - intros addr conv H. exists conv. rewrite Hh. repeat split; done.
Qed.

Lemma advances_afterCreate st : advances env st (afterCreate env st).
Proof.
  split; [simpl; lia|]. intros Hst. split.
  - intros addr conv. simpl. intros H.
    apply lookup_app_Some in H as [H|[_ H]].
    + destruct (Hst addr conv H) as (n & Hn & Hu). exists n. split; [lia|done].
    + destruct (addr - length (heap (agentService st)))%nat; [|done].
      simpl in H. simplify_eq. exists (S (S (clockReads (calls st)))).
      split; [lia|done].
  - intros addr conv H. exists conv. simpl.
    split; [by apply lookup_app_l_Some|]. repeat split; done.
Qed.

Lemma advances_recordTurn addr message final used st :
  advances env st (recordTurn env addr message final used st).
Proof.
  split; [simpl; lia|]. intros Hst. split.
  - intros a conv. unfold recordTurn. simpl. intros H.
    rewrite list_lookup_alter in H. case_decide as Ha.
    + subst a. destruct (heap (agentService st) !! addr) as [c|] eqn:Hc;
        [|done].
      simpl in H. simplify_eq. exists (S (S (clockReads (calls st)))).
      split; [lia|done].
    + destruct (Hst a conv H) as (n & Hn & Hu). exists n. split; [lia|done].
  - intros a conv H. unfold recordTurn. simpl.
    rewrite list_lookup_alter. case_decide as Ha.
    + subst a. rewrite H. simpl. eexists. split; [done|]. simpl.
      split; [by apply prefix_app_r|]. split; [done|]. split; [done|].
      destruct (Hst addr conv H) as (n & Hn & ->).
      apply now_le. lia.
    + exists conv. repeat split; done.
Qed.

Lemma advances_chatTurn message cid addr st :
  advances env st (chatTurn message cid addr env st).2.
Proof.
  destruct (chatTurn_cases message cid addr env st)
    as [(e & st' & -> & Ha & Hc)|(final & run & stp & -> & Ha & Hc)]; simpl.
  - apply advances_same_heap; [by rewrite Ha|lia].
  - apply (advances_trans _ stp).
    + apply advances_same_heap; [by rewrite Ha|lia].
    + apply advances_recordTurn.
Qed.

Lemma advances_chat message cid st :
  advances env st (chat message cid env st).2.
Proof.
  rewrite chat_run.
  destruct (negb (truthy message) || blank message); [apply advances_refl|].
  rewrite resolveConversation_run.
  destruct (truthy_opt cid) as [c|].
  - destruct (lookupConversation st c) as [addr|]; [|apply advances_refl].
    pose proof (advances_chatTurn message c addr st) as H.
    by destruct (chatTurn message c addr env st) as [[r|e] st2].
  - apply (advances_trans _ (afterCreate env st));
      [apply advances_afterCreate|].
    pose proof (advances_chatTurn message (newConversationId env st)
                  (length (heap (agentService st))) (afterCreate env st)) as H.
    by destruct (chatTurn _ _ _ env (afterCreate env st)) as [[r|e] st2].
Qed.

Lemma advances_perform op st : advances env st (perform op env st).2.
Proof.
  destruct op as [|message cid|c|c| |p]; simpl.
  - apply advances_afterCreate.
  - pose proof (advances_chat message cid st) as H.
    unfold perform. run_M.
    by destruct (chat message cid env st) as [[r|e] st'].
  - apply advances_refl.
  - unfold clearConversation. run_M.
    destruct (lookupConversation st c); simpl; [|apply advances_refl].
    by apply advances_same_heap.
  - by apply advances_same_heap.
  - by apply advances_same_heap.
Qed.

Lemma reachable_stamped st : reachable env st → stamped env st.
Proof.
  induction 1 as [model|st op _ IH].
  - intros addr conv H. done.
  - by apply (advances_perform op st).
Qed.

End AppendOnly.

(** C7, as the code has it.  A chat call that completes has resolved a
    conversation object, and leaves it with exactly two more messages,
    the user message and then the assistant message, the latter with the
    names of the tools that were used when there were any; its [updatedAt]
    is set to the reading of the clock at that moment, and no other object
    is touched.  No call of the service changes or removes a message of a
    conversation object: after any call the object is still there and the
    messages it had are the first of its messages ([clearConversation] and
    [clearAllConversations] delete entries of the [Map], not messages).
    All this holds whatever the clock reads.  That [updatedAt] does not
    decrease holds with a clock that is not set back, and only then.  A
    call is taken to run without steps of other callers in between. *)
Theorem conversations_append_only env st :
  AgentService.reachable env st →
  (∀ message cid resp st',
     AgentService.chat message cid env st = (Normal resp, st') →
     ∃ st1 addr conv,
       AgentService.resolveConversation cid env st
       = (Normal (AgentResponse.conversationId resp, addr), st1)
       ∧ heap (agentService st1) !! addr = Some conv
       ∧ heap (agentService st') !! addr
         = Some (AgentConversation.mk
                   (AgentConversation.id conv)
                   (AgentConversation.messages conv
                    ++ [ChatMessage.mk user message
                          (now env (clockReads (calls st1))) None;
                        ChatMessage.mk assistant
                          (AgentResponse.response resp)
                          (now env (S (clockReads (calls st1))))
                          (match AgentResponse.toolsUsed resp with
                           | [] => None
                           | _ :: _ => Some (AgentResponse.toolsUsed resp)
                           end)])
                   (AgentConversation.createdAt conv)
                   (now env (S (S (clockReads (calls st1))))))
       ∧ ((∀ n, now env n ≤ now env (S n)) →
          AgentConversation.updatedAt conv
          ≤ now env (S (S (clockReads (calls st1)))))
       ∧ ∀ a, a ≠ addr →
           heap (agentService st') !! a = heap (agentService st1) !! a)
  ∧ (∀ op addr conv,
       heap (agentService st) !! addr = Some conv →
       ∃ conv',
         heap (agentService (AgentService.perform op env st).2) !! addr
         = Some conv'
         ∧ AgentConversation.messages conv
             `prefix_of` AgentConversation.messages conv'
         ∧ ((∀ n, now env n ≤ now env (S n)) →
            AgentConversation.updatedAt conv
            ≤ AgentConversation.updatedAt conv')).
Proof.
  intros Hreach. split.
  - intros message cid resp st'. rewrite chat_run.
    destruct (negb (truthy message) || blank message); [done|].
    destruct (AgentService.resolveConversation cid env st)
      as [[[c addr]|e] st1] eqn:Hres; [|done].
    assert (Hlook : is_Some (heap (agentService st1) !! addr)).
    { rewrite resolveConversation_run in Hres.
      destruct (truthy_opt cid) as [c'|].
      - destruct (AgentService.lookupConversation st c') as [a|] eqn:Hl;
          simplify_eq.
        by apply lookupConversation_Some in Hl as [_ ?].
      - simplify_eq. simpl. rewrite lookup_app_r by done.
        rewrite Nat.sub_diag. eauto. }
    destruct Hlook as [conv Hconv].
    destruct (chatTurn_cases message c addr env st1)
      as [(e & st2 & -> & _)|(final & run & stp & -> & Ha & Hc)]; [done|].
    intros [= <- <-]. exists st1, addr, conv.
    split; [done|]. split; [done|].
    split; [|split].
    + rewrite <- Ha in Hconv.
      rewrite (recordTurn_lookup _ _ _ _ _ _ _ Hconv), Hc. done.
    + intros Hmono.
      pose proof (reachable_stamped env Hmono st Hreach) as Hst.
      assert (Hadv : advances env st st1).
      { rewrite resolveConversation_run in Hres.
        destruct (truthy_opt cid) as [c'|].
        - destruct (AgentService.lookupConversation st c'); simplify_eq.
          apply advances_refl.
        - simplify_eq. by apply advances_afterCreate. }
      destruct (proj2 Hadv Hst) as [Hst1 _].
      destruct (Hst1 addr conv Hconv) as (n & Hn & ->).
      apply now_le; [done|lia].
    + intros a Hne. by rewrite recordTurn_lookup_ne, Ha.
  - intros op addr conv H.
    destruct (grows_perform env op st addr conv H) as (conv' & Hl & Hp & _).
    exists conv'. split; [exact Hl|]. split; [exact Hp|].
    intros Hmono.
    pose proof (reachable_stamped env Hmono st Hreach) as Hst.
    destruct (proj2 (advances_perform env Hmono op st) Hst) as [_ Hg].
    destruct (Hg addr conv H) as (conv2 & Hl2 & _ & _ & _ & Hu).
    rewrite Hl in Hl2. by simplify_eq.
Qed.

Lemma state1_reachable : AgentService.reachable Samples.env Samples.state1.
Proof.
  assert (E : Samples.state1
              = (AgentService.perform
                   (AgentService.OpChat (lit "find the backlog") None)
                   Samples.env
                   (AgentService.initialState AgentService.defaultModelId)).2)
    by (by vm_compute).
  rewrite E. apply AgentService.reachable_perform.
  apply AgentService.reachable_initial.
Defined.

Lemma conversations_append_only_witness :
  ∃ conv conv',
    heap (agentService Samples.state1) !! 0%nat = Some conv
    ∧ length (AgentConversation.messages conv) = 2%nat
    ∧ heap (agentService
              (AgentService.perform
                 (AgentService.OpChat (lit "hello")
                    (Some Samples.conversation1))
                 Samples.env Samples.state1).2) !! 0%nat
      = Some conv'
    ∧ AgentConversation.messages conv
        `prefix_of` AgentConversation.messages conv'
    ∧ AgentConversation.updatedAt conv ≤ AgentConversation.updatedAt conv'.
Proof.
  assert (Hmono : ∀ n, now Samples.env n ≤ now Samples.env (S n)).
  { intros n. simpl. lia. }
  eexists _.
  assert (Hc : heap (agentService Samples.state1) !! 0%nat = Some _)
    by (vm_compute; reflexivity).
  destruct (proj2 (conversations_append_only Samples.env Samples.state1
                     state1_reachable)
              (AgentService.OpChat (lit "hello") (Some Samples.conversation1))
              0%nat _ Hc)
    as (conv' & Hl & Hp & Hu).
  exists conv'. split; [exact Hc|]. split; [by vm_compute|].
  split; [exact Hl|]. split; [exact Hp|exact (Hu Hmono)].
Defined.

(** C7, as the specification words it, fails: [updatedAt] is the reading
    of the clock, which the code takes as it comes.  On a host whose clock
    is set back, the first chat call creates the conversation and leaves
    it with two messages; the second completes in the same conversation,
    appends its two messages to them, and leaves the conversation with an
    [updatedAt] before the one it had. *)
Lemma updatedAt_decreases_when_clock_set_back :
  ∃ st1 resp st2 conv conv',
    AgentService.reachable Samples.envSetBack st1
    ∧ heap (agentService st1) !! 0%nat = Some conv
    ∧ AgentConversation.id conv = Samples.conversation1
    ∧ length (AgentConversation.messages conv) = 2%nat
    ∧ AgentService.chat (lit "hello") (Some Samples.conversation1)
        Samples.envSetBack st1 = (Normal resp, st2)
    ∧ heap (agentService st2) !! 0%nat = Some conv'
    ∧ AgentConversation.messages conv
        `prefix_of` AgentConversation.messages conv'
    ∧ length (AgentConversation.messages conv') = 4%nat
    ∧ AgentConversation.updatedAt conv = 1714557595000
    ∧ AgentConversation.updatedAt conv' = 1714557592000
    ∧ AgentConversation.updatedAt conv' < AgentConversation.updatedAt conv.
Proof.
  pose (st1 := (AgentService.perform
                  (AgentService.OpChat (lit "find the backlog") None)
                  Samples.envSetBack
                  (AgentService.initialState AgentService.defaultModelId)).2).
  assert (Hreach : AgentService.reachable Samples.envSetBack st1).
  { apply AgentService.reachable_perform, AgentService.reachable_initial. }
  destruct (AgentService.chat (lit "hello") (Some Samples.conversation1)
              Samples.envSetBack st1) as [[resp|e] st2] eqn:Hchat;
    [|by vm_compute in Hchat].
  destruct (heap (agentService st1) !! 0%nat) as [conv|] eqn:Hconv;
    [|by vm_compute in Hconv].
  destruct (grows_chat Samples.envSetBack (lit "hello")
              (Some Samples.conversation1) st1 0%nat conv Hconv)
    as (conv' & Hl & Hp & _).
  rewrite Hchat in Hl. simpl in Hl.
  exists st1, resp, st2, conv, conv'.
  split; [exact Hreach|]. split; [exact Hconv|].
  assert (Hc' : heap (agentService
                        (AgentService.chat (lit "hello")
                           (Some Samples.conversation1)
                           Samples.envSetBack st1).2) !! 0%nat = Some conv')
    by (by rewrite Hchat).
  vm_compute in Hconv. vm_compute in Hc'.
  injection Hconv as <-. injection Hc' as <-.
  split; [by vm_compute|]. split; [by vm_compute|].
  split; [done|]. split; [exact Hl|]. split; [exact Hp|].
  split; [by vm_compute|]. split; [by vm_compute|].
  split; [by vm_compute|]. by vm_compute.
Qed.

(** ** [MCPClientManager]: the invariant *)

Section Manager.
Import MCPClientManager.

Lemma createClient_settled service token connect :
  (createClient service token connect).1 ≠ Unsettled.
Proof.
  unfold createClient.
  destruct token as [[t|]|r]; [destruct connect|..]; done.
Qed.

Lemma wellFormed_initial : wellFormed initial.
Proof.
  split; [|split; [|split]].
  - intros s p. split; [done|]. by intros [st H].
  - done.
  - constructor.
  - by intros p ?%elem_of_nil.
Qed.

Lemma inFlight_lt m s p : inFlight m s p → (p < length (attempts m))%nat.
Proof. intros [st H]. by apply lookup_lt_Some in H. Qed.

Lemma wellFormed_getClient service m :
  wellFormed m → wellFormed (getClient service m).2.
Proof.
  intros (Hp & Hc & Hnd & Hcc). unfold getClient.
  destruct (clients m !! service) as [c|] eqn:Hcl; [done|].
  destruct (connectionPromises m !! service) as [p|] eqn:Hpr; [done|].
  simpl. split; [|split; [|split]]; simpl.
  - intros s p. unfold inFlight. simpl.
    destruct (decide (s = service)) as [->|Hne].
    + rewrite lookup_insert_eq. split.
      * intros [= <-]. exists Unsettled.
        rewrite lookup_app_r by done. by rewrite Nat.sub_diag.
      * intros [st H]. apply lookup_app_Some in H as [H|[Hle H]].
        -- assert (connectionPromises m !! service = Some p) as Hq
             by (apply Hp; by exists st).
           congruence.
        -- destruct (p - length (attempts m))%nat eqn:Hd; [|done].
           f_equal. lia.
    + rewrite lookup_insert_ne by done. rewrite Hp. unfold inFlight.
      split.
      * intros [st H]. exists st. by apply lookup_app_l_Some.
      * intros [st H]. apply lookup_app_Some in H as [H|[Hle H]]; [eauto|].
        destruct (p - length (attempts m))%nat; [|done].
        simpl in H. by simplify_eq.
  - intros s c H.
    destruct (decide (s = service)) as [->|Hne]; [congruence|].
    rewrite lookup_insert_ne by done. eauto.
  - done.
  - intros p Hin. destruct (Hcc p Hin) as (a & Ha & Hs).
    exists a. split; [by apply lookup_app_l_Some|done].
Qed.

Lemma wellFormed_settleAttempt p token connect m m' :
  wellFormed m → settleAttempt p token connect m = Some m' → wellFormed m'.
Proof.
  intros (Hp & Hc & Hnd & Hcc). unfold settleAttempt.
  destruct (attempts m !! p) as [[service [] r]|] eqn:Ha; try done.
  pose proof (createClient_settled service token connect) as Hset.
  destruct (createClient service token connect) as [outcome called].
  simpl in Hset. intros [= <-].
  pose proof (lookup_lt_Some _ _ _ Ha) as Hlt.
  assert (Hfl : ∀ s q,
    inFlight (mkManager (clients m) (connectionPromises m)
                (<[p:=mkAttempt service outcome r]> (attempts m))
                (if called then connectCalls m ++ [p] else connectCalls m))
      s q ↔ inFlight m s q).
  { intros s q. unfold inFlight. simpl.
    destruct (decide (q = p)) as [->|Hne].
    - rewrite list_lookup_insert_eq by done. rewrite Ha.
      split; intros [st H]; simplify_eq; eauto.
    - by rewrite list_lookup_insert_ne. }
  split; [|split; [|split]]; simpl.
  - intros s q. by rewrite Hfl.
  - done.
  - destruct called; [|done].
    apply NoDup_app. split; [done|]. split; [|apply NoDup_singleton].
    intros q Hq ->%list_elem_of_singleton.
    destruct (Hcc p Hq) as (a & Ha' & Hs). rewrite Ha in Ha'.
    by simplify_eq.
  - intros q Hq.
    destruct (decide (q = p)) as [->|Hne].
    + rewrite list_lookup_insert_eq by done. eauto.
    + rewrite list_lookup_insert_ne by done. apply Hcc.
      destruct called; [|done].
      apply elem_of_app in Hq as [Hq|Hq%list_elem_of_singleton]; done.
Qed.

Lemma resumeCreator_Some p m m' :
  resumeCreator p m = Some m' →
  ∃ service st,
    attempts m !! p = Some (mkAttempt service st false)
    ∧ st ≠ Unsettled
    ∧ connectionPromises m' = delete service (connectionPromises m)
    ∧ attempts m' = <[p := mkAttempt service st true]> (attempts m)
    ∧ connectCalls m' = connectCalls m
    ∧ clients m' = match st with
                   | Connected => <[service := p]> (clients m)
                   | _ => clients m
                   end.
Proof.
  unfold resumeCreator.
  destruct (attempts m !! p) as [[service [| |reason] []]|]; try done;
    intros [= <-]; eexists _, _; repeat split; done.
Qed.

Lemma wellFormed_resumeCreator p m m' :
  wellFormed m → resumeCreator p m = Some m' → wellFormed m'.
Proof.
  intros (Hp & Hc & Hnd & Hcc) Hres.
  destruct (resumeCreator_Some p m m' Hres)
    as (service & st & Ha & Hst & Hcp & Hat & Hco & Hcl).
  pose proof (lookup_lt_Some _ _ _ Ha) as Hlt.
  assert (Hpend : connectionPromises m !! service = Some p)
    by (apply Hp; by exists st).
  split; [|split; [|split]].
  - intros s q. rewrite Hcp. unfold inFlight. rewrite Hat.
    destruct (decide (s = service)) as [->|Hne].
    + rewrite lookup_delete_eq. split; [done|].
      intros [st' H]. destruct (decide (q = p)) as [->|Hqp].
      * rewrite list_lookup_insert_eq in H by done. done.
      * rewrite list_lookup_insert_ne in H by done.
        assert (connectionPromises m !! service = Some q)
          by (apply Hp; by exists st').
        congruence.
    + rewrite lookup_delete_ne by done. rewrite Hp. unfold inFlight.
      destruct (decide (q = p)) as [->|Hqp].
      * rewrite list_lookup_insert_eq by done. rewrite Ha.
        split; intros [st' H]; simplify_eq.
      * by rewrite list_lookup_insert_ne.
  - intros s c. rewrite Hcp, Hcl.
    destruct (decide (s = service)) as [->|Hne].
    + intros _. apply lookup_delete_eq.
    + rewrite lookup_delete_ne by done. intros H. apply (Hc s c).
      destruct st; [done| |done].
      by rewrite lookup_insert_ne in H.
  - by rewrite Hco.
  - intros q. rewrite Hco, Hat. intros Hq.
    destruct (decide (q = p)) as [->|Hqp].
    + rewrite list_lookup_insert_eq by done. eauto.
    + rewrite list_lookup_insert_ne by done. by apply Hcc.
Qed.

Lemma wellFormed_evict service m : wellFormed m → wellFormed (evict service m).
Proof.
  intros (Hp & Hc & Hnd & Hcc). split; [|split; [|split]]; try done.
  intros s c. simpl. intros H.
  apply (Hc s c). by apply lookup_delete_Some in H as [_ H].
Qed.

Lemma wellFormed_step e m m' : wellFormed m → step e m = Some m' → wellFormed m'.
Proof.
  intros Hwf. destruct e as [s|p token connect|p|s auth lt|s close]; simpl.
  - intros [= <-]. by apply wellFormed_getClient.
  - by apply wellFormed_settleAttempt.
  - by apply wellFormed_resumeCreator.
  - intros [= <-]. unfold getConnectionStatus.
    destruct auth as [[]|]; try done.
    destruct (clients m !! s); [|done].
    destruct (lt _); [done|]. by apply wellFormed_evict.
  - intros [= <-]. unfold disconnect.
    destruct (clients m !! s); [|done].
    destruct (close _); [|done]. by apply wellFormed_evict.
Qed.

Lemma reachable_wellFormed m : reachable m → wellFormed m.
Proof.
  induction 1 as [|m e m' _ IH Hstep]; [apply wellFormed_initial|].
  by apply (wellFormed_step e m).
Qed.

Lemma run_reachable events m m' :
  reachable m → run events m = Some m' → reachable m'.
Proof.
  revert m. induction events as [|e events IH]; intros m Hm; simpl.
  - by intros [= <-].
  - destruct (step e m) as [m1|] eqn:Hs; [|done]. simpl.
    apply IH. by apply (reachable_step m e).
Qed.

End Manager.

Section ManagerWindow.
Import MCPClientManager.

Lemma filter_length_insert {A} (P : A → Prop) `{∀ x, Decision (P x)}
    (l : list A) q a a' :
  l !! q = Some a → (P a ↔ P a') →
  length (filter P (<[q:=a']> l)) = length (filter P l).
Proof.
  intros Hq HP. revert q Hq.
  induction l as [|x l IH]; intros [|q] Hq; simpl in *; try done.
  - simplify_eq. rewrite !filter_cons.
    destruct (decide (P a)), (decide (P a')); naive_solver.
  - rewrite !filter_cons. destruct (decide (P x)); simpl; by rewrite IH.
Qed.

(** While the promise of [p] is in the [Map], a segment other than the
    continuation of its creator leaves it there, and starts no attempt
    for the service. *)
Lemma pending_step m s p e m' :
  wellFormed m →
  connectionPromises m !! s = Some p →
  e ≠ EvResume p →
  step e m = Some m' →
  connectionPromises m' !! s = Some p ∧ attemptsFor s m' = attemptsFor s m.
Proof.
  intros (Hp & Hc & Hnd & Hcc) Hpend Hne.
  assert (Hcl : clients m !! s = None).
  { destruct (clients m !! s) as [c|] eqn:H; [|done].
    rewrite (Hc s c H) in Hpend. done. }
  destruct e as [s'|q token connect|q|s' auth lt|s' close]; simpl.
  - intros [= <-]. unfold getClient.
    destruct (decide (s' = s)) as [->|Hs].
    + by rewrite Hcl, Hpend.
    + destruct (clients m !! s'); [done|].
      destruct (connectionPromises m !! s'); [done|]. simpl.
      rewrite lookup_insert_ne by done. split; [done|].
      unfold attemptsFor. simpl. rewrite filter_app, filter_cons_False; [|done].
      by rewrite filter_nil, app_nil_r.
  - unfold settleAttempt.
    destruct (attempts m !! q) as [[service [] r]|] eqn:Ha; try done.
    destruct (createClient service token connect) as [outcome called].
    intros [= <-]. simpl. split; [done|].
    unfold attemptsFor. simpl.
    by apply (filter_length_insert _ _ _ (mkAttempt service Unsettled r)).
  - intros Hres.
    destruct (resumeCreator_Some q m m' Hres)
      as (service & st & Ha & Hst & Hcp & Hat & Hco & Hcl').
    assert (service ≠ s) as Hs.
    { intros ->. assert (connectionPromises m !! s = Some q) as Hq
        by (apply Hp; by exists st).
      rewrite Hpend in Hq. simplify_eq. }
    rewrite Hcp, lookup_delete_ne by done. split; [done|].
    unfold attemptsFor. rewrite Hat.
    by apply (filter_length_insert _ _ _ (mkAttempt service st false)).
  - intros [= <-]. unfold getConnectionStatus.
    destruct auth as [[]|]; try done.
    destruct (clients m !! s'); [|done]. by destruct (lt _).
  - intros [= <-]. unfold disconnect.
    destruct (clients m !! s'); [|done]. by destruct (close _).
Qed.

Lemma pending_run events m s p m' :
  wellFormed m →
  connectionPromises m !! s = Some p →
  EvResume p ∉ events →
  run events m = Some m' →
  connectionPromises m' !! s = Some p ∧ attemptsFor s m' = attemptsFor s m.
Proof.
  revert m. induction events as [|e events IH]; intros m Hwf Hpend Hno; simpl.
  - by intros [= <-].
  - destruct (step e m) as [m1|] eqn:Hs; [|done]. simpl. intros Hrun.
    destruct (pending_step m s p e m1 Hwf Hpend) as [Hp1 Ha1];
      [set_solver|done|].
    destruct (IH m1) as [Hp2 Ha2]; [by eapply wellFormed_step|done|set_solver
                                   |done|].
    split; [done|congruence].
Qed.

Lemma insert_at_end {A} (l : list A) (x y : A) :
  <[length l := y]> (l ++ [x]) = l ++ [y].
Proof.
  rewrite insert_app_r_alt by done. by rewrite Nat.sub_diag.
Qed.

Lemma lookup_at_end {A} (l : list A) (x : A) :
  (l ++ [x]) !! length l = Some x.
Proof. rewrite lookup_app_r by done. by rewrite Nat.sub_diag. Qed.

Lemma run_app events1 events2 m :
  run (events1 ++ events2) m = run events1 m ≫= run events2.
Proof.
  revert m. induction events1 as [|e events1 IH]; intros m; simpl; [done|].
  destruct (step e m) as [m1|]; simpl; [apply IH|done].
Qed.

(** The calls that find the promise of a service in the [Map] wait for
    it, and leave the manager as it is. *)
Lemma joins_run s p n m :
  clients m !! s = None → connectionPromises m !! s = Some p →
  run (replicate n (EvGetClient s)) m = Some m.
Proof.
  intros Hc Hp. induction n as [|n IH]; simpl; [done|].
  unfold getClient. by rewrite Hc, Hp.
Qed.

(** [client.connect] is called by the attempt that settles with a token,
    once, and by nothing else. *)
Lemma step_connectCalls e m m' :
  step e m = Some m' →
  connectCalls m' =
    connectCalls m ++ match e with
                      | EvSettle p (Fulfilled (Some _)) _ => [p]
                      | _ => []
                      end.
Proof.
  destruct e as [s|p token connect|p|s auth lt|s close]; simpl.
  - intros [= <-]. rewrite app_nil_r. unfold getClient.
    destruct (clients m !! s); [done|].
    by destruct (connectionPromises m !! s).
  - unfold settleAttempt.
    destruct (attempts m !! p) as [[service [] r]|]; try done.
    destruct token as [[t|]|reason]; [destruct connect|..]; simpl;
      intros [= <-]; simpl; by rewrite ?app_nil_r.
  - intros Hres. rewrite app_nil_r.
    by destruct (resumeCreator_Some p m m' Hres) as (_ & _ & _ & _ & _ & _ & H & _).
  - intros [= <-]. rewrite app_nil_r. unfold getConnectionStatus.
    destruct auth as [[]|]; try done.
    destruct (clients m !! s); [|done]. by destruct (lt _).
  - intros [= <-]. rewrite app_nil_r. unfold disconnect.
    destruct (clients m !! s); [|done]. by destruct (close _).
Qed.

(** The calls for a service that has neither a client nor a promise,
    made before the first of them has its client: the first starts the one
    attempt, the others wait for it, the attempt settles, and the
    continuation of the first runs.  One [createClient] call has been
    made, and [client.connect] has been called once when there was a
    token and not at all when there was none. *)
Lemma shared_attempt s n token connect m :
  clients m !! s = None → connectionPromises m !! s = None →
  ∃ m',
    run (EvGetClient s :: replicate n (EvGetClient s)
         ++ [EvSettle (length (attempts m)) token connect;
             EvResume (length (attempts m))]) m = Some m'
    ∧ attemptsFor s m' = S (attemptsFor s m)
    ∧ connectCalls m' =
        connectCalls m ++ match token with
                          | Fulfilled (Some _) => [length (attempts m)]
                          | _ => []
                          end
    ∧ connectionPromises m' !! s = None.
Proof.
  intros Hc Hp.
  assert (Hfor : ∀ a,
    attemptService a = s →
    length (filter (λ a, attemptService a = s) (attempts m ++ [a]))
    = S (attemptsFor s m)).
  { intros a Ha. unfold attemptsFor.
    rewrite filter_app, length_app, filter_cons, decide_True by done.
    simpl. lia. }
  cbn [run]. unfold step at 1, getClient. rewrite Hc, Hp.
  cbn [snd mbind option_bind]. rewrite run_app.
  rewrite (joins_run s (length (attempts m)));
    [|done|cbn [connectionPromises]; apply lookup_insert_eq].
  cbn [mbind option_bind run step].
  unfold settleAttempt. cbn [attempts]. rewrite lookup_at_end.
  destruct token as [[t|]|reason]; [destruct connect as [u|reason]|..];
    cbn [createClient mbind option_bind];
    unfold resumeCreator; cbn [attempts];
    rewrite insert_at_end, lookup_at_end;
    cbn [mbind option_bind];
    (eexists; split; [done|]);
    unfold attemptsFor;
    cbn [attempts clients connectionPromises connectCalls];
    rewrite insert_at_end, Hfor, lookup_delete_eq, ?app_nil_r by done;
    done.
Qed.

End ManagerWindow.

(** C4, as the code has it.  In every state the connection manager
    reaches, the promise in the [Map] of a service is the one attempt in
    flight for it, and a service with a stored client has none.  The
    continuation of the call that started an attempt runs once the attempt
    has settled, on success and on failure alike, and removes the promise
    from the [Map].  While the promise is there a call of [getClient] for
    the service gets this promise and starts nothing; and whatever runs in
    between, as long as that continuation has not run, the promise stays
    and no further [createClient] call is made for the service.
    [client.connect] is called by an attempt that settles after it got a
    token, once, and by nothing else: so the calls made for a service
    before the first of them has its client share one [createClient]
    call, and [client.connect] has then been called once when there was a
    token, and not at all when there was none. *)
Theorem single_attempt_in_flight m :
  MCPClientManager.reachable m →
  (∀ s p, MCPClientManager.connectionPromises m !! s = Some p
          ↔ MCPClientManager.inFlight m s p)
  ∧ (∀ s p q,
       MCPClientManager.inFlight m s p → MCPClientManager.inFlight m s q →
       p = q)
  ∧ (∀ s, ¬ (is_Some (MCPClientManager.clients m !! s)
             ∧ is_Some (MCPClientManager.connectionPromises m !! s)))
  ∧ (∀ p s st,
       MCPClientManager.attempts m !! p
       = Some (MCPClientManager.mkAttempt s st false) →
       st ≠ MCPClientManager.Unsettled →
       ∃ m', MCPClientManager.resumeCreator p m = Some m'
             ∧ MCPClientManager.connectionPromises m' !! s = None)
  ∧ (∀ s p,
       MCPClientManager.connectionPromises m !! s = Some p →
       MCPClientManager.getClient s m = (MCPClientManager.Joined p, m))
  ∧ (∀ s p events m',
       MCPClientManager.connectionPromises m !! s = Some p →
       MCPClientManager.EvResume p ∉ events →
       MCPClientManager.run events m = Some m' →
       MCPClientManager.connectionPromises m' !! s = Some p
       ∧ MCPClientManager.attemptsFor s m' = MCPClientManager.attemptsFor s m)
  ∧ (∀ s,
       MCPClientManager.clients m !! s = None →
       MCPClientManager.connectionPromises m !! s = None →
       MCPClientManager.attemptsFor s (MCPClientManager.getClient s m).2
       = S (MCPClientManager.attemptsFor s m))
  ∧ NoDup (MCPClientManager.connectCalls m)
  ∧ (∀ p, p ∈ MCPClientManager.connectCalls m →
       ∃ a, MCPClientManager.attempts m !! p = Some a
            ∧ MCPClientManager.promiseState a ≠ MCPClientManager.Unsettled)
  ∧ (∀ e m',
       MCPClientManager.step e m = Some m' →
       MCPClientManager.connectCalls m' =
         MCPClientManager.connectCalls m
         ++ match e with
            | MCPClientManager.EvSettle p (Fulfilled (Some _)) _ => [p]
            | _ => []
            end)
  ∧ (∀ s n token connect,
       MCPClientManager.clients m !! s = None →
       MCPClientManager.connectionPromises m !! s = None →
       (length (MCPClientManager.attempts m)
        ∉ MCPClientManager.connectCalls m)
       ∧ ∃ m',
           MCPClientManager.run
             (MCPClientManager.EvGetClient s
              :: replicate n (MCPClientManager.EvGetClient s)
              ++ [MCPClientManager.EvSettle
                    (length (MCPClientManager.attempts m)) token connect;
                  MCPClientManager.EvResume
                    (length (MCPClientManager.attempts m))]) m
           = Some m'
           ∧ MCPClientManager.attemptsFor s m'
             = S (MCPClientManager.attemptsFor s m)
           ∧ MCPClientManager.connectCalls m' =
               MCPClientManager.connectCalls m
               ++ match token with
                  | Fulfilled (Some _) =>
                      [length (MCPClientManager.attempts m)]
                  | _ => []
                  end
           ∧ MCPClientManager.connectionPromises m' !! s = None).
Proof.
  intros Hreach. pose proof (reachable_wellFormed m Hreach) as Hwf.
  destruct Hwf as (Hp & Hc & Hnd & Hcc).
  split; [exact Hp|].
  split.
  { intros s p q H1 H2. apply Hp in H1, H2. congruence. }
  split.
  { intros s [[c H1] [p H2]]. rewrite (Hc s c H1) in H2. done. }
  split.
  { intros p s st Ha Hst. unfold MCPClientManager.resumeCreator.
    rewrite Ha. destruct st; [done|..]; eexists; (split; [done|]); simpl;
      apply lookup_delete_eq. }
  split.
  { intros s p Hpend. unfold MCPClientManager.getClient.
    destruct (MCPClientManager.clients m !! s) as [c|] eqn:Hcl.
    - rewrite (Hc s c Hcl) in Hpend. done.
    - by rewrite Hpend. }
  split.
  { intros s p events m' Hpend Hno Hrun.
    by apply (pending_run events m s p m'). }
  split.
  { intros s Hcl Hpr. unfold MCPClientManager.getClient. rewrite Hcl, Hpr.
    unfold MCPClientManager.attemptsFor. simpl.
    rewrite filter_app, filter_cons_True by done.
    rewrite length_app. simpl. lia. }
  split; [exact Hnd|]. split; [exact Hcc|].
  split; [intros e m'; apply step_connectCalls|].
  intros s n token connect Hcl Hpr. split.
  - intros Hin. destruct (Hcc _ Hin) as (a & Ha & _).
    apply lookup_lt_Some in Ha. lia.
  - by apply shared_attempt.
Qed.

Lemma managerPending_reachable :
  MCPClientManager.reachable Samples.managerPending.
Proof.
  apply (run_reachable [MCPClientManager.EvGetClient notion]
           MCPClientManager.initial); [constructor|].
  by vm_compute.
Defined.

Lemma single_attempt_in_flight_witness :
  MCPClientManager.getClient notion Samples.managerPending
  = (MCPClientManager.Joined 0, Samples.managerPending)
  ∧ ∀ m',
      MCPClientManager.run
        [MCPClientManager.EvGetClient notion;
         MCPClientManager.EvGetClient asana;
         MCPClientManager.EvSettle 0 (Fulfilled None) (Fulfilled ());
         MCPClientManager.EvGetClient notion]
        Samples.managerPending = Some m' →
      MCPClientManager.connectionPromises m' !! notion = Some 0%nat
      ∧ MCPClientManager.attemptsFor notion m'
        = MCPClientManager.attemptsFor notion Samples.managerPending.
Proof.
  pose proof (single_attempt_in_flight Samples.managerPending
                managerPending_reachable)
    as (_ & _ & _ & _ & Hjoin & Hrun & _).
  split.
  - apply Hjoin. reflexivity.
  - intros m'. apply Hrun; [reflexivity|].
    intros H. repeat (apply elem_of_cons in H as [H|H]; [done|]).
    by apply elem_of_nil in H.
Defined.

(** C4, as the specification words it, fails: the calls that share an
    attempt need not come to a [connect] call.  Two callers ask for
    [notion] while the token service has no token.  The second waits for
    the promise of the first, one [createClient] call is made, it fails,
    and [client.connect] has not been called. *)
Lemma shared_attempt_without_connect_call :
  ∃ m',
    MCPClientManager.run Samples.connectWithoutToken MCPClientManager.initial
    = Some m'
    ∧ MCPClientManager.reachable m'
    ∧ (MCPClientManager.getClient notion
         (MCPClientManager.getClient notion MCPClientManager.initial).2).1
      = MCPClientManager.Joined 0
    ∧ MCPClientManager.attemptsFor notion m' = 1%nat
    ∧ MCPClientManager.attempts m'
      = [MCPClientManager.mkAttempt notion
           (MCPClientManager.Failed
              (lit "Failed to connect to notion: No OAuth token available for notion. Please authenticate first."))
           true]
    ∧ MCPClientManager.connectCalls m' = []
    ∧ MCPClientManager.clients m' !! notion = None
    ∧ MCPClientManager.connectionPromises m' !! notion = None.
Proof.
  destruct (MCPClientManager.run Samples.connectWithoutToken
              MCPClientManager.initial) as [m'|] eqn:Hrun;
    [|by vm_compute in Hrun].
  exists m'. split; [done|].
  split.
  { apply (run_reachable Samples.connectWithoutToken MCPClientManager.initial);
      [constructor|done]. }
  vm_compute in Hrun. injection Hrun as <-.
  by vm_compute.
Qed.

(** The sample run ends with the client stored and nothing pending. *)
Example connectNotion_runs :
  MCPClientManager.run Samples.connectNotion MCPClientManager.initial
  = Some Samples.managerConnected.
Proof. by vm_compute. Qed.

(** C9: with a credential and a stored client whose [listTools] fails,
    [getConnectionStatus] removes the client and reports
    [connected = false], [needsAuth = false]; the next [getClient] for the
    service finds neither a client nor a promise and starts a new attempt,
    the dead client is not handed out again.  Without a credential the
    report is [needsAuth = true], and nothing changes. *)
Theorem dead_session_evicted m s c listTools reason :
  MCPClientManager.reachable m →
  MCPClientManager.clients m !! s = Some c →
  listTools c = Rejected reason →
  MCPClientManager.getConnectionStatus s (Fulfilled true) listTools m
  = (MCPClientManager.mkStatus false false, MCPClientManager.evict s m)
  ∧ MCPClientManager.clients (MCPClientManager.evict s m) !! s = None
  ∧ MCPClientManager.reachable (MCPClientManager.evict s m)
  ∧ (MCPClientManager.getClient s (MCPClientManager.evict s m)).1
    = MCPClientManager.Created (length (MCPClientManager.attempts m))
  ∧ MCPClientManager.attemptsFor s
      (MCPClientManager.getClient s (MCPClientManager.evict s m)).2
    = S (MCPClientManager.attemptsFor s m)
  ∧ ∀ m0 lt,
      MCPClientManager.getConnectionStatus s (Fulfilled false) lt m0
      = (MCPClientManager.mkStatus false true, m0).
Proof.
  intros Hreach Hc Hlt.
  assert (Hstatus :
    MCPClientManager.getConnectionStatus s (Fulfilled true) listTools m
    = (MCPClientManager.mkStatus false false, MCPClientManager.evict s m)).
  { unfold MCPClientManager.getConnectionStatus. by rewrite Hc, Hlt. }
  assert (Hreach' : MCPClientManager.reachable (MCPClientManager.evict s m)).
  { apply (MCPClientManager.reachable_step m
             (MCPClientManager.EvStatus s (Fulfilled true) listTools));
      [done|].
    unfold MCPClientManager.step. by rewrite Hstatus. }
  destruct (reachable_wellFormed m Hreach) as (_ & Hcl & _).
  pose proof (Hcl s c Hc) as Hnone.
  split; [exact Hstatus|].
  split; [apply lookup_delete_eq|].
  split; [exact Hreach'|].
  unfold MCPClientManager.getClient. simpl.
  rewrite lookup_delete_eq, Hnone. simpl.
  split; [done|]. split; [|done].
  unfold MCPClientManager.attemptsFor. simpl.
  rewrite filter_app, filter_cons_True by done.
  rewrite length_app. simpl. lia.
Qed.

Lemma managerConnected_reachable :
  MCPClientManager.reachable Samples.managerConnected.
Proof.
  apply (run_reachable Samples.connectNotion MCPClientManager.initial);
    [constructor|].
  by vm_compute.
Defined.

Lemma dead_session_evicted_witness :
  MCPClientManager.getConnectionStatus notion (Fulfilled true)
    (λ _, Rejected (lit "socket hang up")) Samples.managerConnected
  = (MCPClientManager.mkStatus false false,
     MCPClientManager.evict notion Samples.managerConnected)
  ∧ (MCPClientManager.getClient notion
       (MCPClientManager.evict notion Samples.managerConnected)).1
    = MCPClientManager.Created 1.
Proof.
  pose proof (dead_session_evicted Samples.managerConnected notion 0%nat
                (λ _, Rejected (lit "socket hang up")) (lit "socket hang up")
                managerConnected_reachable eq_refl eq_refl)
    as (Hstatus & _ & _ & Hnext & _).
  split; [exact Hstatus|exact Hnext].
Defined.

(** * Further properties of the code *)

(** ** [deduplicateResults], [filterBySource] and [getSearchStats] *)

Section ResultLists.
Import SearchResult SearchService.

Lemma NoDup_fmap_elem_eq {A B} (f : A → B) (l : list A) x y :
  NoDup (f <$> l) → x ∈ l → y ∈ l → f x = f y → x = y.
Proof.
  induction l as [|z l IH]; intros Hnd Hx Hy Hf; [by apply elem_of_nil in Hx|].
  rewrite fmap_cons in Hnd. apply NoDup_cons in Hnd as [Hz Hnd].
  apply elem_of_cons in Hx as [->|Hx]; apply elem_of_cons in Hy as [->|Hy];
    try done.
  - exfalso. apply Hz. rewrite Hf. by apply list_elem_of_fmap_2.
  - exfalso. apply Hz. rewrite <- Hf. by apply list_elem_of_fmap_2.
  - by apply IH.
Qed.

Lemma firstOccurrences_covers seen l r :
  r ∈ l → resultKey r ∉ seen →
  ∃ r0, r0 ∈ firstOccurrences seen l ∧ resultKey r0 = resultKey r.
Proof.
  revert seen. induction l as [|x l IH]; intros seen Hr Hk;
    [by apply elem_of_nil in Hr|].
  simpl. apply elem_of_cons in Hr as [->|Hr].
  - rewrite decide_False by done. exists x. split; [by left|done].
  - case_decide as Hx; [by apply IH|].
    destruct (decide (resultKey r = resultKey x)) as [Heq|Hne].
    + exists x. split; [by left|done].
    + destruct (IH ({[resultKey x]} ∪ seen) Hr) as (r0 & Hr0 & Hk0);
        [set_solver|].
      exists r0. split; [by right|done].
Qed.

Lemma filter_source_length (l : list SearchResult) :
  length l
  = (length (filter (λ r, source r = notion) l)
     + length (filter (λ r, source r = asana) l))%nat.
Proof.
  induction l as [|x l IH]; [done|].
  rewrite !filter_cons. destruct (source x) eqn:Hs.
  - rewrite decide_True, decide_False by done. simpl. lia.
  - rewrite decide_False, decide_True by done. simpl. lia.
Qed.

Lemma filter_sublist_mono {A} (P : A → Prop) `{∀ x, Decision (P x)}
    (l1 l2 : list A) :
  l1 `sublist_of` l2 → filter P l1 `sublist_of` filter P l2.
Proof.
  induction 1 as [|x l1 l2 Hs IH|x l1 l2 Hs IH]; [done| |].
  - rewrite !filter_cons. case_decide; [by constructor|done].
  - rewrite filter_cons. case_decide; [by constructor|done].
Qed.

Lemma getSearchStats_Permutation l l' :
  l ≡ₚ l' → getSearchStats l = getSearchStats l'.
Proof.
  intros H. unfold getSearchStats. by rewrite H.
Qed.

End ResultLists.

(** X1: [deduplicateResults] keeps the order of the input and drops
    entries only: its result is a sublist of the input in which no two
    entries have the same key, and every entry of the input has an entry
    with its key in the result, namely the first entry of the input with
    that key.  A list it has returned it returns unchanged. *)
Theorem deduplicateResults_keeps_first (l : list SearchResult) :
  SearchService.deduplicateResults l `sublist_of` l
  ∧ NoDup (SearchService.resultKey <$> SearchService.deduplicateResults l)
  ∧ SearchService.deduplicateResults (SearchService.deduplicateResults l)
    = SearchService.deduplicateResults l
  ∧ (∀ r, r ∈ l →
       ∃ r0, r0 ∈ SearchService.deduplicateResults l
             ∧ SearchService.resultKey r0 = SearchService.resultKey r
             ∧ head (filter (λ x, SearchService.resultKey x
                                  = SearchService.resultKey r) l)
               = Some r0).
Proof.
  rewrite !deduplicateResults_firstOccurrences.
  split; [apply firstOccurrences_sublist|].
  split; [apply firstOccurrences_NoDup|].
  split.
  { apply firstOccurrences_fixed; [apply firstOccurrences_NoDup|set_solver]. }
  intros r Hr.
  destruct (firstOccurrences_covers ∅ l r Hr) as (r0 & Hr0 & Hk);
    [set_solver|].
  exists r0. split; [done|]. split; [done|].
  pose proof (firstOccurrences_filter ∅ l (SearchService.resultKey r)) as Hf.
  rewrite decide_False in Hf by set_solver.
  assert (Hin : r0 ∈ filter (λ x, SearchService.resultKey x
                                  = SearchService.resultKey r)
                       (SearchService.firstOccurrences ∅ l)).
  { by apply list_elem_of_filter. }
  rewrite Hf in Hin.
  destruct (head _) as [h|]; simpl in Hin; [|by apply elem_of_nil in Hin].
  apply list_elem_of_singleton in Hin. by subst.
Qed.

(** X2: two entries of a deduplicated list that agree on the source, on
    the title and on the first 100 code units of the content are one and
    the same entry. *)
Theorem deduplicateResults_one_per_triple (l : list SearchResult) a b :
  a ∈ SearchService.deduplicateResults l →
  b ∈ SearchService.deduplicateResults l →
  SearchService.keyTriple a = SearchService.keyTriple b →
  a = b.
Proof.
  intros Ha Hb Ht.
  apply (NoDup_fmap_elem_eq SearchService.resultKey
           (SearchService.deduplicateResults l)); try done.
  - rewrite deduplicateResults_firstOccurrences. apply firstOccurrences_NoDup.
  - by apply keyTriple_resultKey.
Qed.

Lemma deduplicateResults_one_per_triple_witness :
  Samples.datedAsana
  ∈ SearchService.deduplicateResults
      [Samples.datedAsana; Samples.undatedNotion; Samples.datedAsana]
  ∧ Samples.datedAsana = Samples.datedAsana.
Proof.
  assert (H : Samples.datedAsana
              ∈ SearchService.deduplicateResults
                  [Samples.datedAsana; Samples.undatedNotion;
                   Samples.datedAsana]).
  { vm_compute. left. }
  split; [exact H|].
  exact (deduplicateResults_one_per_triple _ _ _ H H eq_refl).
Defined.

(** X3: the statistics of a result list add up: every result is counted
    for exactly one of the two services, [total] is the sum of the two
    counts, and each count is the length of what [filterBySource] returns
    for the service. *)
Theorem getSearchStats_adds_up (results : list SearchResult) :
  let stats := SearchService.getSearchStats results in
  SearchService.SearchStats.total stats
  = (SearchService.SearchStats.notion stats
     + SearchService.SearchStats.asana stats)%nat
  ∧ SearchService.SearchStats.notion stats
    = length (SearchService.filterBySource results notion)
  ∧ SearchService.SearchStats.asana stats
    = length (SearchService.filterBySource results asana).
Proof.
  simpl. split; [apply filter_source_length|]. by split.
Qed.

(** X4: [filterBySource] splits a result list in two: the results of
    [notion] followed by those of [asana] are a permutation of the list,
    each part is a sublist of it, filtering a part again for its own
    service changes nothing, and filtering it for the other service
    leaves nothing. *)
Theorem filterBySource_splits (results : list SearchResult) :
  SearchService.filterBySource results notion
  ++ SearchService.filterBySource results asana ≡ₚ results
  ∧ (∀ s, SearchService.filterBySource results s `sublist_of` results)
  ∧ (∀ s, SearchService.filterBySource
            (SearchService.filterBySource results s) s
          = SearchService.filterBySource results s)
  ∧ (∀ s s', s ≠ s' →
       SearchService.filterBySource
         (SearchService.filterBySource results s) s' = []).
Proof.
  unfold SearchService.filterBySource. split; [|split; [|split]].
  - induction results as [|x l IH]; [done|].
    rewrite !filter_cons. destruct (SearchResult.source x) eqn:Hs.
    + rewrite decide_True, decide_False by done. simpl. by rewrite IH.
    + rewrite decide_False, decide_True by done.
      rewrite <- Permutation_middle. by rewrite IH.
  - intros s. apply sublist_filter.
  - intros s. rewrite list_filter_filter. apply list_filter_iff. naive_solver.
  - intros s s' Hne. rewrite list_filter_filter.
    induction results as [|x l IH]; [done|].
    rewrite filter_cons. rewrite decide_False; [done|].
    intros [H1 H2]. congruence.
Qed.

(** X5: sorting does not change the statistics of a result list, and
    deduplication can only lower them. *)
Theorem getSearchStats_sort_dedup
    (lc : jsstring → jsstring → Z) (gt : jsstring → option Z)
    (results : list SearchResult) :
  SearchService.getSearchStats (SearchService.sortSearchResults lc gt results)
  = SearchService.getSearchStats results
  ∧ (SearchService.SearchStats.total
       (SearchService.getSearchStats
          (SearchService.deduplicateResults results))
     ≤ SearchService.SearchStats.total
         (SearchService.getSearchStats results))%nat
  ∧ (SearchService.SearchStats.notion
       (SearchService.getSearchStats
          (SearchService.deduplicateResults results))
     ≤ SearchService.SearchStats.notion
         (SearchService.getSearchStats results))%nat
  ∧ (SearchService.SearchStats.asana
       (SearchService.getSearchStats
          (SearchService.deduplicateResults results))
     ≤ SearchService.SearchStats.asana
         (SearchService.getSearchStats results))%nat.
Proof.
  split.
  { apply getSearchStats_Permutation, sortSearchResults_Permutation. }
  pose proof (firstOccurrences_sublist ∅ results) as Hsub.
  rewrite <- deduplicateResults_firstOccurrences in Hsub.
  simpl. split; [by apply sublist_length|].
  split; by apply sublist_length, filter_sublist_mono.
Qed.

(** ** [BedrockClientService]: the history across calls *)

Section InvokerHistory.
Import BedrockClientService.

Lemma converse_sends msg tools sp env st :
  sends (calls (converse msg tools sp env st).2)
  = sends (calls st) ++ [converseInput st msg tools sp].
Proof.
  rewrite converse_run. cbv zeta.
  by destruct (sendOutcome env (length (sends (calls st)))
                 (converseInput st msg tools sp)).
Qed.

Lemma toolUsesOf_named content :
  Forall (λ tu, truthy (ToolUse.name tu) = true
                ∧ truthy (ToolUse.toolUseId tu) = true)
         (toolUsesOf content).
Proof.
  unfold toolUsesOf. induction content as [|block content IH]; simpl;
    [constructor|].
  destruct block as [text|[name|] input [toolUseId|]|id body|]; simpl;
    try done.
  destruct (truthy name) eqn:Hn, (truthy toolUseId) eqn:Hi; simpl; try done.
  by constructor.
Qed.

Lemma omap_length_le {A B} (f : A → option B) (l : list A) :
  (length (omap f l) ≤ length l)%nat.
Proof.
  induction l as [|x l IH]; [done|].
  cbn [omap list_omap]. destruct (f x); simpl; lia.
Qed.

Lemma toolUsesOf_length content :
  (length (toolUsesOf content) ≤ length content)%nat.
Proof. apply omap_length_le. Qed.

End InvokerHistory.

(** X6: a call of [converse] that throws has sent its one request and
    has changed nothing else: the history and the model of the invoker,
    and the state of the agent service, are as they were.  The error is
    the reason of the rejected request behind the words [LLM conversation
    failed]. *)
Theorem converse_failure_keeps_history msg tools sp env st e st' :
  BedrockClientService.converse msg tools sp env st = (Throw e, st') →
  bedrockClient st' = bedrockClient st
  ∧ agentService st' = agentService st
  ∧ sends (calls st') = sends (calls st) ++ [converseInput st msg tools sp]
  ∧ ∃ reason,
      sendOutcome env (length (sends (calls st)))
                  (converseInput st msg tools sp) = Rejected reason
      ∧ e = ThrowError (lit "LLM conversation failed: " ++ reason).
Proof.
  rewrite converse_run. cbv zeta.
  destruct (sendOutcome env (length (sends (calls st)))
              (converseInput st msg tools sp)) as [response|reason];
    [done|].
  intros [= <- <-]. repeat split; try done. by exists reason.
Qed.

Lemma converse_failure_keeps_history_witness :
  ∃ st',
    BedrockClientService.converse (lit "more") [] None
      Samples.env Samples.state2
    = (Throw (ThrowError (lit "LLM conversation failed: ThrottlingException")),
       st')
    ∧ bedrockClient st' = bedrockClient Samples.state2.
Proof.
  eexists. split; [vm_compute; reflexivity|].
  refine (proj1 (converse_failure_keeps_history (lit "more") [] None
                   Samples.env Samples.state2 _ _ _)).
  vm_compute. reflexivity.
Defined.

(** X7: a call of [continueWithToolResults] that throws has already put
    the tool results into the history, and they stay there: the history
    ends with a user message that no assistant message answers, and the
    next request of [converse] carries the new user message directly
    after it. *)
Theorem failed_continuation_leaves_tool_results rs env st e st' :
  BedrockClientService.continueWithToolResults rs env st = (Throw e, st') →
  conversationHistory (bedrockClient st')
  = conversationHistory (bedrockClient st)
    ++ [Message.mk user (BedrockClientService.toolResultBlock <$> rs)]
  ∧ ∀ msg tools sp env',
      ∃ input,
        sends (calls (BedrockClientService.converse msg tools sp env' st').2)
        = sends (calls st') ++ [input]
        ∧ ConverseCommandInput.messages input
          = conversationHistory (bedrockClient st)
            ++ [Message.mk user (BedrockClientService.toolResultBlock <$> rs);
                Message.mk user [CText msg]].
Proof.
  rewrite continueWithToolResults_run. cbv zeta.
  destruct (sendOutcome env (length (sends (calls st)))
              (continueInput st rs)) as [response|reason]; [done|].
  intros [= <- <-]. split; [done|].
  intros msg tools sp env'. eexists. split; [apply converse_sends|].
  simpl. by rewrite <- app_assoc.
Qed.

Lemma failed_continuation_leaves_tool_results_witness :
  ∃ st',
    BedrockClientService.continueWithToolResults
      [ToolExecutionResult.mk (lit "tooluse_9") None (Some (lit "timeout"))]
      Samples.env Samples.state2
    = (Throw (ThrowError
                (lit "Tool result processing failed: ThrottlingException")),
       st')
    ∧ last (conversationHistory (bedrockClient st'))
      = Some (Message.mk user
                [CToolResult (lit "tooluse_9")
                   [TRText (lit "Error: timeout")]]).
Proof.
  eexists. split; [vm_compute; reflexivity|].
  rewrite (proj1 (failed_continuation_leaves_tool_results
                    [ToolExecutionResult.mk (lit "tooluse_9") None
                       (Some (lit "timeout"))]
                    Samples.env Samples.state2 _ _ ltac:(vm_compute; reflexivity))).
  by rewrite last_snoc.
Defined.

(** X8: what [converse] resolves to is consistent: every tool use it
    returns has a name and an id that are not empty, there are no more
    tool uses than content blocks in the response, and
    [needsToolExecution] is set only when there is a tool use to
    execute. *)
Theorem converse_tool_uses_named msg tools sp env st result st' :
  BedrockClientService.converse msg tools sp env st = (Normal result, st') →
  Forall (λ tu, truthy (ToolUse.name tu) = true
                ∧ truthy (ToolUse.toolUseId tu) = true)
         (BedrockClientService.toolUses result)
  ∧ (BedrockClientService.needsToolExecution result = true →
     BedrockClientService.toolUses result ≠ [])
  ∧ ∃ response,
      sendOutcome env (length (sends (calls st)))
                  (converseInput st msg tools sp) = Fulfilled response
      ∧ (length (BedrockClientService.toolUses result)
         ≤ length (BedrockClientService.contentOf response))%nat
      ∧ (BedrockClientService.needsToolExecution result = true →
         ConverseResponse.stopReason response = tool_use).
Proof.
  rewrite converse_run. cbv zeta.
  destruct (sendOutcome env (length (sends (calls st)))
              (converseInput st msg tools sp)) as [response|reason];
    [|done].
  intros [= <- <-]. unfold converseResult. simpl.
  split; [apply toolUsesOf_named|].
  split.
  - intros [_ H]%andb_prop. apply bool_decide_eq_true in H.
    intros Hnil. rewrite Hnil in H. simpl in H. lia.
  - exists response. split; [done|]. split; [apply toolUsesOf_length|].
    intros [H _]%andb_prop. by apply bool_decide_eq_true in H.
Qed.

Lemma converse_tool_uses_named_witness :
  ∃ result st',
    BedrockClientService.converse (lit "find the backlog")
      AgentService.getMCPToolSpecs None Samples.env Samples.state0
    = (Normal result, st')
    ∧ Forall (λ tu, truthy (ToolUse.name tu) = true
                    ∧ truthy (ToolUse.toolUseId tu) = true)
             (BedrockClientService.toolUses result)
    ∧ BedrockClientService.toolUses result ≠ [].
Proof.
  eexists _, _. split; [vm_compute; reflexivity|].
  destruct (converse_tool_uses_named (lit "find the backlog")
              AgentService.getMCPToolSpecs None Samples.env Samples.state0
              _ _ ltac:(vm_compute; reflexivity)) as (Hnamed & Hneeds & _).
  split; [exact Hnamed|]. apply Hneeds. reflexivity.
Defined.

(** ** [AgentService]: the requests of a chat call *)

Section ChatRequests.
Import BedrockClientService AgentService.

Lemma chatTurn_requests message cid addr env st :
  ∃ more,
    sends (calls (chatTurn message cid addr env st).2)
    = sends (calls st) ++ firstInput st message :: more
    ∧ (more = []
       ∨ ∃ st2 rs,
           more = [continueInput st2 rs]
           ∧ modelId (bedrockClient st2) = modelId (bedrockClient st)).
Proof.
  rewrite chatTurn_run.
  destruct (sendOutcome env (length (sends (calls st)))
              (firstInput st message)) as [reply|reason].
  2: { exists []. split; [done|by left]. }
  cbv zeta.
  destruct (needsToolExecution (converseResult reply)).
  2: { exists []. split; [done|by left]. }
  pose proof (toolLoop_preserves (λ st, sends (calls st))
                (toolUses (converseResult reply)) (mkToolRun [] [] [])
                executeMCPTool_sends env
                (afterConverse st (firstInput st message) message reply))
    as Hs.
  pose proof (toolLoop_preserves bedrockClient
                (toolUses (converseResult reply)) (mkToolRun [] [] [])
                executeMCPTool_bedrock env
                (afterConverse st (firstInput st message) message reply))
    as Hb.
  destruct (toolLoop _ _ env _) as [[run|e] st2]; simpl in Hs, Hb.
  - pose proof (continueWithToolResults_sends (toolResults run) env st2) as Hc.
    exists [continueInput st2 (toolResults run)]. split.
    + destruct (continueWithToolResults (toolResults run) env st2)
        as [[final|e] st3]; unfold recordTurn; simpl in Hc |- *;
        rewrite Hc, Hs; by rewrite <- app_assoc.
    + right. eexists _, _. split; [done|]. by rewrite Hb.
  - exists []. simpl. rewrite Hs. split; [done|by left].
Qed.

Lemma chat_requests message cid env st :
  ∃ requests,
    sends (calls (chat message cid env st).2) = sends (calls st) ++ requests
    ∧ (requests = []
       ∨ ∃ st1 more,
           bedrockClient st1 = bedrockClient st
           ∧ systemPrompt (agentService st1) = systemPrompt (agentService st)
           ∧ requests = firstInput st1 message :: more
           ∧ (more = []
              ∨ ∃ st2 rs,
                  more = [continueInput st2 rs]
                  ∧ modelId (bedrockClient st2)
                    = modelId (bedrockClient st))).
Proof.
  rewrite chat_run.
  destruct (negb (truthy message) || blank message).
  { exists []. rewrite app_nil_r. split; [done|by left]. }
  rewrite resolveConversation_run.
  destruct (truthy_opt cid) as [c|].
  - destruct (lookupConversation st c) as [addr|].
    2: { exists []. rewrite app_nil_r. split; [done|by left]. }
    destruct (chatTurn_requests message c addr env st) as (more & Hs & Hm).
    exists (firstInput st message :: more). split.
    + by destruct (chatTurn message c addr env st) as [[r|e] st2].
    + right. by exists st, more.
  - destruct (chatTurn_requests message (newConversationId env st)
                (length (heap (agentService st))) env (afterCreate env st))
      as (more & Hs & Hm).
    exists (firstInput (afterCreate env st) message :: more). split.
    + by destruct (chatTurn _ _ _ env (afterCreate env st)) as [[r|e] st2].
    + right. by exists (afterCreate env st), more.
Qed.

End ChatRequests.

(** X9: a chat call sends at most two requests to the model.  The
    first carries the model id of the invoker, the system prompt of the
    agent service in one block (no block at all when the prompt is the
    empty string), and the three tools of [getMCPToolSpecs]; the second,
    the continuation with the tool results, goes to the same model and
    carries neither a system prompt nor tools. *)
Theorem chat_at_most_two_requests env st message cid :
  ∃ requests,
    sends (calls (AgentService.chat message cid env st).2)
    = sends (calls st) ++ requests
    ∧ (length requests ≤ 2)%nat
    ∧ (∀ first, requests !! 0%nat = Some first →
         ConverseCommandInput.modelId first = modelId (bedrockClient st)
         ∧ ConverseCommandInput.system first
           = (if truthy (systemPrompt (agentService st))
              then Some [systemPrompt (agentService st)] else None)
         ∧ ConverseCommandInput.toolConfig first
           = Some AgentService.getMCPToolSpecs
         ∧ (Tool.name <$> AgentService.getMCPToolSpecs
            = [lit "searchNotion"; lit "searchAsana"; lit "searchAll"]))
    ∧ (∀ second, requests !! 1%nat = Some second →
         ConverseCommandInput.modelId second = modelId (bedrockClient st)
         ∧ ConverseCommandInput.system second = None
         ∧ ConverseCommandInput.toolConfig second = None).
Proof.
  destruct (chat_requests message cid env st) as (requests & Hs & Hr).
  exists requests. split; [done|].
  destruct Hr as [->|(st1 & more & Hb & Hp & -> & Hm)].
  { split; [simpl; lia|]. by split. }
  split; [|split].
  - destruct Hm as [->|(st2 & rs & -> & _)]; simpl; lia.
  - intros first [= <-]. unfold firstInput, converseInput. simpl.
    rewrite Hb, Hp. split; [done|]. split; [|done].
    by destruct (truthy (systemPrompt (agentService st))).
  - intros second Hsecond.
    destruct Hm as [->|(st2 & rs & -> & Hmodel)]; [done|].
    simpl in Hsecond. simplify_eq. by rewrite <- Hmodel.
Qed.

(** X10: [setSystemPrompt] and [setModel] take effect at the next chat
    call and touch nothing else.  Afterwards [getSystemPrompt] and
    [getModelId] answer what was set, the history of the invoker and the
    conversations are as they were, and every request of the next chat
    call goes to the new model, the first with the new system prompt
    (without one when the prompt is the empty string). *)
Theorem settings_take_effect prompt model message cid env st :
  let st1 :=
    (BedrockClientService.setModel model env
       (AgentService.setSystemPrompt prompt env st).2).2 in
  AgentService.getSystemPrompt env st1 = (Normal prompt, st1)
  ∧ BedrockClientService.getModelId env st1 = (Normal model, st1)
  ∧ BedrockClientService.getHistory env st1
    = (Normal (conversationHistory (bedrockClient st)), st1)
  ∧ conversations (agentService st1) = conversations (agentService st)
  ∧ heap (agentService st1) = heap (agentService st)
  ∧ calls st1 = calls st
  ∧ ∃ requests,
      sends (calls (AgentService.chat message cid env st1).2)
      = sends (calls st) ++ requests
      ∧ Forall (λ input, ConverseCommandInput.modelId input = model) requests
      ∧ ∀ first,
          head requests = Some first →
          ConverseCommandInput.system first
          = (if truthy prompt then Some [prompt] else None).
Proof.
  intros st1. repeat (split; [done|]).
  destruct (chat_requests message cid env st1) as (requests & Hs & Hr).
  exists requests. split; [done|].
  destruct Hr as [->|(st2 & more & Hb & Hp & -> & Hm)]; [by split|].
  split.
  - constructor.
    + unfold firstInput, converseInput. simpl. by rewrite Hb.
    + destruct Hm as [->|(st3 & rs & -> & Hmodel)]; [constructor|].
      repeat constructor. simpl. by rewrite Hmodel.
  - intros first [= <-]. unfold firstInput, converseInput. simpl.
    rewrite Hp. simpl. by destruct (truthy prompt).
Qed.

(** ** [AgentService]: ids, creation and clearing *)

Section ConversationIds.
Import BedrockClientService AgentService.

Lemma lookupConversation_None st c :
  conversations (agentService st) !! c = None →
  lookupConversation st c = None.
Proof. unfold lookupConversation. by intros ->. Qed.

Lemma clearConversation_run c env st :
  clearConversation c env st =
    match lookupConversation st c with
    | Some _ =>
        (Normal true,
         mkState (calls st)
                 (mkBedrockClient (modelId (bedrockClient st)) [])
                 (mkAgent (heap (agentService st))
                          (delete c (conversations (agentService st)))
                          (systemPrompt (agentService st))))
    | None => (Normal false, st)
    end.
Proof.
  unfold clearConversation. run_M. by destruct (lookupConversation st c).
Qed.

End ConversationIds.

(** X11: an id that is in nobody's [Map] is refused everywhere, and
    nothing happens: [chat] throws [Conversation not found] before it
    calls the model, [clearConversation] answers [false] and leaves the
    history of the invoker alone, and [getConversation] answers [null]. *)
Theorem unknown_conversation_refused env st message c :
  blank message = false →
  truthy c = true →
  conversations (agentService st) !! c = None →
  AgentService.chat message (Some c) env st
  = (Throw (ThrowApiError (lit "Conversation not found") None), st)
  ∧ AgentService.clearConversation c env st = (Normal false, st)
  ∧ AgentService.getConversation c env st = (Normal None, st).
Proof.
  intros Hb Ht Hc. split; [|split].
  - rewrite chat_run, Hb, (blank_false_truthy _ Hb). cbn [negb orb].
    rewrite resolveConversation_run. simpl. rewrite Ht.
    by rewrite lookupConversation_None.
  - by rewrite clearConversation_run, lookupConversation_None.
  - unfold AgentService.getConversation. run_M. by rewrite Hc.
Qed.

Lemma unknown_conversation_refused_witness :
  AgentService.chat (lit "hello") (Some (lit "conv_0_missing"))
    Samples.env Samples.state1
  = (Throw (ThrowApiError (lit "Conversation not found") None),
     Samples.state1)
  ∧ AgentService.clearConversation (lit "conv_0_missing")
      Samples.env Samples.state1
    = (Normal false, Samples.state1)
  ∧ AgentService.getConversation (lit "conv_0_missing")
      Samples.env Samples.state1
    = (Normal None, Samples.state1).
Proof.
  apply (unknown_conversation_refused Samples.env Samples.state1
           (lit "hello") (lit "conv_0_missing")).
  - reflexivity.
  - reflexivity.
  - by vm_compute.
Defined.

(** X12: [clearConversation] of a conversation that exists answers
    [true], deletes the entry of that conversation only, and empties the
    history of the model invoker, which all conversations share: the
    first request of the next chat call, in whatever conversation,
    carries the new user message and nothing before it. *)
Theorem clearConversation_resets_invoker env st c addr :
  AgentService.lookupConversation st c = Some addr →
  ∃ st1,
    AgentService.clearConversation c env st = (Normal true, st1)
    ∧ BedrockClientService.getHistory env st1 = (Normal [], st1)
    ∧ BedrockClientService.getConversationLength env st1
      = (Normal 0%nat, st1)
    ∧ modelId (bedrockClient st1) = modelId (bedrockClient st)
    ∧ conversations (agentService st1)
      = delete c (conversations (agentService st))
    ∧ heap (agentService st1) = heap (agentService st)
    ∧ AgentService.getConversation c env st1 = (Normal None, st1)
    ∧ ∀ message cid,
        ∃ requests,
          sends (calls (AgentService.chat message cid env st1).2)
          = sends (calls st) ++ requests
          ∧ ∀ input,
              head requests = Some input →
              ConverseCommandInput.messages input
              = [Message.mk user [CText message]].
Proof.
  intros Hl. rewrite clearConversation_run, Hl. eexists. split; [done|].
  simpl. repeat (split; [done|]). split.
  - unfold AgentService.getConversation. run_M.
    by rewrite lookup_delete_eq.
  - intros message cid.
    match goal with |- context [AgentService.chat _ _ _ ?s] =>
      destruct (chat_requests message cid env s) as (requests & Hs & Hr)
    end.
    exists requests. split; [done|].
    destruct Hr as [->|(st1 & more & Hb & _ & -> & _)]; [done|].
    intros input [= <-]. unfold firstInput, converseInput. simpl.
    by rewrite Hb.
Qed.

Lemma clearConversation_resets_invoker_witness :
  ∃ st1,
    AgentService.clearConversation Samples.conversation1
      Samples.env Samples.state1
    = (Normal true, st1)
    ∧ (BedrockClientService.getConversationLength Samples.env
         Samples.state1).1 = Normal 4%nat
    ∧ BedrockClientService.getConversationLength Samples.env st1
      = (Normal 0%nat, st1).
Proof.
  destruct (clearConversation_resets_invoker Samples.env Samples.state1
              Samples.conversation1 0%nat)
    as (st1 & Hrun & _ & Hlen & _); [by vm_compute|].
  exists st1. split; [exact Hrun|]. split; [by vm_compute|exact Hlen].
Defined.

(** X13: [createConversation] and [getConversation] fit together: the
    id that [createConversation] returns starts with [conv_] and resolves
    to a conversation with that id, no messages, and the two times read
    from the clock after the one in the id, also when an entry with that
    id was there before.  The entries under other ids, the objects on
    the heap and the model invoker are left as they were. *)
Theorem createConversation_then_get env st :
  ∃ id st1,
    AgentService.createConversation env st = (Normal id, st1)
    ∧ take 5 id = lit "conv_"
    ∧ AgentService.getConversation id env st1
      = (Normal (Some (AgentConversation.mk id []
                         (now env (S (clockReads (calls st))))
                         (now env (S (S (clockReads (calls st))))))),
         st1)
    ∧ (∀ c, c ≠ id →
         conversations (agentService st1) !! c
         = conversations (agentService st) !! c)
    ∧ heap (agentService st) `prefix_of` heap (agentService st1)
    ∧ bedrockClient st1 = bedrockClient st
    ∧ sends (calls st1) = sends (calls st)
    ∧ searches (calls st1) = searches (calls st).
Proof.
  rewrite createConversation_run. eexists _, _. split; [done|].
  split; [done|]. split; [|split; [|split]].
  - unfold AgentService.getConversation. run_M.
    rewrite lookup_insert_eq. simpl.
    rewrite lookup_app_r by done. by rewrite Nat.sub_diag.
  - intros c Hc. simpl. by rewrite lookup_insert_ne.
  - by apply prefix_app_r.
  - done.
Qed.

(** ** [AgentService]: dispatching tools *)

Section Dispatch.
Import BedrockClientService AgentService.

Lemma toolLoop_accumulates tus run env st :
  ∃ run' st',
    toolLoop tus run env st = (Normal run', st')
    ∧ toolsUsed run'
      = toolsUsed run ++ completedTools tus (dispatches tus env st)
    ∧ searchResults run'
      = searchResults run ++ completedResults (dispatches tus env st).
Proof.
  revert run st. induction tus as [|tu tus IH]; intros run st; simpl.
  - eexists _, _. split; [done|].
    unfold completedTools, completedResults. simpl.
    by rewrite !app_nil_r.
  - run_M. rewrite toolStep_run.
    destruct (executeMCPTool (ToolUse.name tu) (ToolUse.input tu) env st)
      as [c st1].
    destruct (IH (mkToolRun
                    (toolResults run ++ [toolResultOf tu c])
                    (match c with
                     | Normal _ => toolsUsed run ++ [ToolUse.name tu]
                     | Throw _ => toolsUsed run
                     end)
                    (match c with
                     | Normal (x :: result) => searchResults run ++ x :: result
                     | _ => searchResults run
                     end)) st1) as (run' & st' & Hrun & Hused & Hres).
    exists run', st'. rewrite Hrun. split; [done|].
    rewrite Hused, Hres. unfold completedTools, completedResults. simpl.
    destruct c as [[|x result]|e]; simpl;
      by rewrite <- ?app_assoc, ?app_nil_r.
Qed.

Lemma completedTools_sublist tus cs :
  completedTools tus cs `sublist_of` (ToolUse.name <$> tus).
Proof.
  unfold completedTools. revert cs.
  induction tus as [|tu tus IH]; intros [|c cs]; simpl;
    try apply sublist_nil_l.
  destruct c; simpl; [by apply sublist_skip|by apply sublist_cons].
Qed.

End Dispatch.

(** X14: what a chat turn with tools reports.  When the first response
    requests tools and the turn completes, [toolsUsed] of the answer
    names the tools whose dispatch completed, in the order of the
    requests, and no tool whose dispatch threw; [searchResults] holds
    the results of the completed dispatches, one after the other, and is
    absent when there is none. *)
Theorem chat_turn_reports_completed_tools
    env st message cid addr reply resp st' :
  sendOutcome env (length (sends (calls st))) (firstInput st message)
  = Fulfilled reply →
  BedrockClientService.needsToolExecution (converseResult reply) = true →
  AgentService.chatTurn message cid addr env st = (Normal resp, st') →
  let requested := BedrockClientService.toolUses (converseResult reply) in
  let outcomes :=
    dispatches requested env
      (afterConverse st (firstInput st message) message reply) in
  AgentResponse.toolsUsed resp = completedTools requested outcomes
  ∧ AgentResponse.toolsUsed resp `sublist_of` (ToolUse.name <$> requested)
  ∧ AgentResponse.searchResults resp
    = match completedResults outcomes with
      | [] => None
      | _ :: _ => Some (completedResults outcomes)
      end
  ∧ AgentResponse.conversationId resp = cid.
Proof.
  intros Hreply Hneeds. rewrite chatTurn_run, Hreply. cbv zeta.
  rewrite Hneeds.
  destruct (toolLoop_accumulates
              (BedrockClientService.toolUses (converseResult reply))
              (AgentService.mkToolRun [] [] []) env
              (afterConverse st (firstInput st message) message reply))
    as (run & st2 & Hloop & Hused & Hres).
  rewrite Hloop.
  destruct (BedrockClientService.continueWithToolResults
              (AgentService.toolResults run) env st2) as [[final|e] st3];
    [|done].
  intros [= <- <-]. unfold agentResponse. simpl in *.
  rewrite Hused, Hres. split; [done|].
  split; [apply completedTools_sublist|]. by split.
Qed.

Lemma chat_turn_reports_completed_tools_witness :
  ∃ resp st',
    AgentService.chatTurn (lit "find the backlog") Samples.conversation1 0
      Samples.env (afterCreate Samples.env Samples.state0)
    = (Normal resp, st')
    ∧ AgentResponse.toolsUsed resp = [lit "searchAsana"]
    ∧ AgentResponse.searchResults resp = Some [Samples.datedAsana].
Proof.
  eexists _, _. split; [vm_compute; reflexivity|].
  destruct (chat_turn_reports_completed_tools Samples.env
              (afterCreate Samples.env Samples.state0)
              (lit "find the backlog") Samples.conversation1 0
              Samples.toolRequest _ _ eq_refl eq_refl
              ltac:(vm_compute; reflexivity))
    as (Hused & _ & Hres & _).
  split; [rewrite Hused|rewrite Hres]; by vm_compute.
Defined.

(** X15: [executeMCPTool] looks at the query before it looks at the
    name.  Without a query that is a non-empty string it throws, for
    every tool name, and the state is left as it was.  The calls of the
    backends it makes are at most the call of [notion] and then the call
    of [asana], both with the query string as it was given; nothing else
    of the state changes.  With a query, [searchAll] does not throw: it
    returns the results of the calls that fulfilled. *)
Theorem executeMCPTool_dispatch name input env st :
  ((∀ q, query input = VString q → truthy q = false) →
   AgentService.executeMCPTool name input env st
   = (Throw (ThrowError
               (lit "Query parameter is required and must be a string")),
      st))
  ∧ (∃ made,
       searches (calls (AgentService.executeMCPTool name input env st).2)
       = searches (calls st) ++ made
       ∧ ∀ q, query input = VString q →
              made `sublist_of` [(notion, q); (asana, q)])
  ∧ (∀ q, name = lit "searchAll" → query input = VString q →
          truthy q = true →
          ∃ st',
            AgentService.executeMCPTool name input env st
            = (Normal
                 (SearchService.fulfilledValues
                    (SearchService.notionOutcome env st q)
                  ++ SearchService.fulfilledValues
                       (SearchService.asanaOutcome env st q)),
               st')
            ∧ searches (calls st')
              = searches (calls st) ++ [(notion, q); (asana, q)])
  ∧ bedrockClient (AgentService.executeMCPTool name input env st).2
    = bedrockClient st
  ∧ agentService (AgentService.executeMCPTool name input env st).2
    = agentService st
  ∧ sends (calls (AgentService.executeMCPTool name input env st).2)
    = sends (calls st).
Proof.
  assert (Hall : ∀ q,
    ∃ st',
      (notionResults ← settle (searchService notion q);
       asanaResults ← settle (searchService asana q);
       mret (SearchService.fulfilledValues notionResults
             ++ SearchService.fulfilledValues asanaResults)) env st
      = (Normal
           (SearchService.fulfilledValues
              (SearchService.notionOutcome env st q)
            ++ SearchService.fulfilledValues
                 (SearchService.asanaOutcome env st q)),
         st')
      ∧ searches (calls st')
        = searches (calls st) ++ [(notion, q); (asana, q)]).
  { intros q.
    unfold SearchService.notionOutcome, SearchService.asanaOutcome.
    destruct (searchOutcome env (length (searches (calls st))) notion q)
      eqn:E1;
      destruct (searchOutcome env (S (length (searches (calls st)))) asana q)
        eqn:E2;
      run_M; rewrite searchService_run, E1; simpl;
      rewrite searchService_run; simpl;
      rewrite length_app, Nat.add_1_r; simpl; rewrite E2; simpl;
      eexists; (split; [done|]); simpl; by rewrite <- app_assoc. }
  split; [|split; [|split; [|split; [|split]]]].
  - intros Hq. unfold AgentService.executeMCPTool.
    destruct (query input) as [|q|b]; try done.
    by rewrite (Hq q eq_refl).
  - unfold AgentService.executeMCPTool.
    destruct (query input) as [|q|b];
      try (exists []; rewrite app_nil_r; split; [done|by intros q [=]]).
    destruct (truthy q).
    2: { exists []. rewrite app_nil_r. split; [done|].
         intros q' _. apply sublist_nil_l. }
    repeat case_decide.
    + exists [(notion, q)]. rewrite searchService_run. split; [done|].
      intros q' [= <-]. by apply sublist_skip, sublist_nil_l.
    + exists [(asana, q)]. rewrite searchService_run. split; [done|].
      intros q' [= <-]. by apply sublist_cons, sublist_skip, sublist_nil_l.
    + destruct (Hall q) as (st' & -> & Hs).
      exists [(notion, q); (asana, q)]. split; [done|].
      by intros q' [= <-].
    + exists []. rewrite app_nil_r. split; [done|].
      intros q' _. apply sublist_nil_l.
  - intros q -> Hq Ht. unfold AgentService.executeMCPTool.
    rewrite Hq, Ht. rewrite !decide_False by (by vm_compute).
    rewrite decide_True by done. apply Hall.
  - apply executeMCPTool_bedrock.
  - apply executeMCPTool_agent.
  - apply executeMCPTool_sends.
Qed.

(** ** [AgentService]: what holds in every state *)

Section AgentInvariants.
Import BedrockClientService AgentService.
Variable env : Environment.

(** What a chat call does to the agent service: nothing, or it creates a
    conversation, or it records a turn, or both. *)
Lemma chat_agent_cases message cid st :
  ∃ st1,
    (st1 = st ∨ st1 = afterCreate env st)
    ∧ (agentService (chat message cid env st).2 = agentService st1
       ∧ (clockReads (calls st1) ≤ clockReads (calls (chat message cid env st).2))%nat
       ∨ ∃ stp addr final used,
           agentService stp = agentService st1
           ∧ clockReads (calls stp) = clockReads (calls st1)
           ∧ (chat message cid env st).2
             = recordTurn env addr message final used stp).
Proof.
  rewrite chat_run.
  destruct (negb (truthy message) || blank message).
  { exists st. split; [by left|]. left. by split. }
  rewrite resolveConversation_run.
  destruct (truthy_opt cid) as [c|].
  - destruct (lookupConversation st c) as [addr|].
    2: { exists st. split; [by left|]. left. by split. }
    exists st. split; [by left|].
    destruct (chatTurn_cases message c addr env st)
      as [(e & st' & -> & Ha & Hc)|(final & run & stp & -> & Ha & Hc)].
    + left. simpl. split; [done|lia].
    + right. by exists stp, addr, final, (toolsUsed run).
  - exists (afterCreate env st). split; [by right|].
    destruct (chatTurn_cases message (newConversationId env st)
                (length (heap (agentService st))) env (afterCreate env st))
      as [(e & st' & -> & Ha & Hc)|(final & run & stp & -> & Ha & Hc)].
    + left. simpl. split; [done|]. simpl in Hc. lia.
    + right. by exists stp, (length (heap (agentService st))), final,
                       (toolsUsed run).
Qed.

(** *** The entries of the [Map] *)

Lemma entriesValid_afterCreate st :
  entriesValid st → entriesValid (afterCreate env st).
Proof.
  intros H c addr. simpl. intros Hc.
  apply lookup_insert_Some in Hc as [[<- <-]|[Hne Hc]].
  - eexists. rewrite lookup_app_r by done. rewrite Nat.sub_diag.
    by split.
  - destruct (H c addr Hc) as (conv & Hconv & Hid).
    exists conv. split; [by apply lookup_app_l_Some|done].
Qed.

Lemma entriesValid_recordTurn addr message final used st :
  entriesValid st → entriesValid (recordTurn env addr message final used st).
Proof.
  intros H c a. simpl. intros Hc.
  destruct (H c a Hc) as (conv & Hconv & Hid).
  rewrite list_lookup_alter. case_decide as Ha.
  - subst a. rewrite Hconv. simpl. eexists. by split.
  - by exists conv.
Qed.

Lemma entriesValid_agent st st' :
  agentService st' = agentService st → entriesValid st → entriesValid st'.
Proof. unfold entriesValid. by intros ->. Qed.

Lemma entriesValid_perform op st :
  entriesValid st → entriesValid (perform op env st).2.
Proof.
  intros H. destruct op as [|message cid|c|c| |p]; simpl.
  - by apply entriesValid_afterCreate.
  - assert (Hchat : entriesValid (chat message cid env st).2).
    { destruct (chat_agent_cases message cid st)
        as (st1 & Hst1 & [[Ha _]|(stp & addr & final & used & Ha & _ & ->)]).
      - apply (entriesValid_agent st1); [done|].
        destruct Hst1 as [->| ->]; [done|by apply entriesValid_afterCreate].
      - apply entriesValid_recordTurn, (entriesValid_agent st1); [done|].
        destruct Hst1 as [->| ->]; [done|by apply entriesValid_afterCreate]. }
    unfold perform. run_M.
    by destruct (chat message cid env st) as [[r|e] st'].
  - done.
  - unfold clearConversation. run_M.
    destruct (lookupConversation st c); simpl; [|done].
    intros c' addr. simpl. intros Hc.
    apply lookup_delete_Some in Hc as [_ Hc]. by apply H.
  - intros c addr. simpl. by rewrite lookup_empty.
  - done.
Qed.

Lemma reachable_entriesValid st : reachable env st → entriesValid st.
Proof.
  induction 1 as [model|st op _ IH].
  - intros c addr. simpl. by rewrite lookup_empty.
  - by apply entriesValid_perform.
Qed.

(** *** The messages of a conversation *)

Lemma paired_snoc messages u a :
  ChatMessage.role u = user → ChatMessage.toolsUsed u = None →
  ChatMessage.role a = assistant →
  paired messages = true → paired (messages ++ [u; a]) = true.
Proof.
  intros Hu Ht Ha.
  assert (Hend : paired [u; a] = true).
  { simpl. by rewrite !bool_decide_eq_true_2. }
  assert (H : ∀ l, (paired l = true → paired (l ++ [u; a]) = true)
                   ∧ ∀ x, paired (x :: l) = true
                          → paired (x :: l ++ [u; a]) = true).
  { induction l as [|y l [IH1 IH2]].
    - split; [done|]. intros x Hx. done.
    - split; [apply IH2|].
      intros x Hx. simpl in Hx |- *.
      apply andb_prop in Hx as [Hx Hl]. rewrite Hx. simpl. by apply IH1. }
  apply H.
Qed.

Lemma paired_even messages :
  paired messages = true → Nat.Even (length messages).
Proof.
  assert (H : ∀ l, (paired l = true → Nat.Even (length l))
                   ∧ ∀ x, paired (x :: l) = true
                          → Nat.Even (length (x :: l))).
  { induction l as [|y l [IH1 IH2]].
    - split; [by exists 0%nat|]. intros x Hx. done.
    - split; [apply IH2|].
      intros x Hx. simpl in Hx. apply andb_prop in Hx as [_ Hl].
      destruct (IH1 Hl) as [n Hn]. exists (S n). simpl. lia. }
  apply H.
Qed.

Lemma heapPaired_afterCreate st : heapPaired st → heapPaired (afterCreate env st).
Proof.
  intros H addr conv. simpl. intros Hc.
  apply lookup_app_Some in Hc as [Hc|[_ Hc]]; [by apply (H addr)|].
  destruct (addr - length (heap (agentService st)))%nat; [|done].
  simpl in Hc. by simplify_eq.
Qed.

Lemma heapPaired_recordTurn addr message final used st :
  heapPaired st → heapPaired (recordTurn env addr message final used st).
Proof.
  intros H a conv. simpl. rewrite list_lookup_alter. case_decide as Ha.
  - subst a. destruct (heap (agentService st) !! addr) as [c|] eqn:Hc;
      [|done].
    simpl. intros [= <-]. simpl. apply paired_snoc; try done.
    by apply (H addr).
  - apply H.
Qed.

Lemma heapPaired_heap st st' :
  heap (agentService st') = heap (agentService st) →
  heapPaired st → heapPaired st'.
Proof. unfold heapPaired. by intros ->. Qed.

Lemma heapPaired_perform op st : heapPaired st → heapPaired (perform op env st).2.
Proof.
  intros H. destruct op as [|message cid|c|c| |p]; simpl.
  - by apply heapPaired_afterCreate.
  - assert (Hchat : heapPaired (chat message cid env st).2).
    { destruct (chat_agent_cases message cid st)
        as (st1 & Hst1 & [[Ha _]|(stp & addr & final & used & Ha & _ & ->)]).
      - apply (heapPaired_heap st1); [by rewrite Ha|].
        destruct Hst1 as [->| ->]; [done|by apply heapPaired_afterCreate].
      - apply heapPaired_recordTurn, (heapPaired_heap st1); [by rewrite Ha|].
        destruct Hst1 as [->| ->]; [done|by apply heapPaired_afterCreate]. }
    unfold perform. run_M.
    by destruct (chat message cid env st) as [[r|e] st'].
  - done.
  - unfold clearConversation. run_M.
    by destruct (lookupConversation st c).
  - done.
  - done.
Qed.

Lemma reachable_heapPaired st : reachable env st → heapPaired st.
Proof.
  induction 1 as [model|st op _ IH].
  - intros addr conv. done.
  - by apply heapPaired_perform.
Qed.

End AgentInvariants.

Section AgentClock.
Import BedrockClientService AgentService.
Variable env : Environment.

Lemma clockOrdered_later st st' conv :
  (clockReads (calls st) ≤ clockReads (calls st'))%nat →
  clockOrdered env st conv → clockOrdered env st' conv.
Proof.
  intros Hle (created & stamps & updated & Hc & Hs & Hu & Hsorted & Hlt).
  exists created, stamps, updated. repeat split; try done. lia.
Qed.

Lemma sorted_two_more created stamps updated c :
  StronglySorted lt (created :: stamps ++ [updated]) →
  (updated < c)%nat →
  StronglySorted lt (created :: (stamps ++ [c; S c]) ++ [S (S c)]).
Proof.
  intros Hsorted Hlt.
  change (created :: stamps ++ [updated])
    with ((created :: stamps) ++ [updated]) in Hsorted.
  apply StronglySorted_app in Hsorted as (Hbelow & Hs & _).
  rewrite <- app_assoc.
  change (created :: stamps ++ [c; S c] ++ [S (S c)])
    with ((created :: stamps) ++ [c; S c; S (S c)]).
  apply StronglySorted_app_2; [|done|].
  - intros x1 x2 Hx1 Hx2.
    assert (x1 < updated)%nat by (apply Hbelow; [done|by left]).
    assert (c ≤ x2)%nat; [|lia].
    apply elem_of_cons in Hx2 as [->|Hx2]; [lia|].
    apply elem_of_cons in Hx2 as [->|Hx2]; [lia|].
    apply list_elem_of_singleton in Hx2 as ->. lia.
  - repeat constructor; lia.
Qed.

Lemma heapOrdered_afterCreate st :
  heapOrdered env st → heapOrdered env (afterCreate env st).
Proof.
  intros H addr conv. simpl. intros Hc.
  apply lookup_app_Some in Hc as [Hc|[_ Hc]].
  - apply (clockOrdered_later st); [simpl; lia|by apply (H addr)].
  - destruct (addr - length (heap (agentService st)))%nat; [|done].
    simpl in Hc. simplify_eq.
    exists (S (clockReads (calls st))), [], (S (S (clockReads (calls st)))).
    simpl. repeat split; try done; [|lia].
    repeat constructor; lia.
Qed.

Lemma heapOrdered_recordTurn addr message final used st :
  heapOrdered env st →
  heapOrdered env (recordTurn env addr message final used st).
Proof.
  intros H a conv. simpl. rewrite list_lookup_alter. case_decide as Ha.
  - subst a. destruct (heap (agentService st) !! addr) as [c|] eqn:Hc;
      [|done].
    simpl. intros [= <-].
    destruct (H addr c Hc)
      as (created & stamps & updated & Hcr & Hs & Hu & Hsorted & Hlt).
    exists created, (stamps ++ [clockReads (calls st);
                                S (clockReads (calls st))]),
           (S (S (clockReads (calls st)))).
    simpl. split; [done|]. split; [|split; [done|split]].
    + by rewrite !fmap_app, Hs.
    + by apply (sorted_two_more created stamps updated).
    + lia.
  - intros Hc. apply (clockOrdered_later st); [simpl; lia|by apply (H a)].
Qed.

Lemma heapOrdered_same st st' :
  heap (agentService st') = heap (agentService st) →
  (clockReads (calls st) ≤ clockReads (calls st'))%nat →
  heapOrdered env st → heapOrdered env st'.
Proof.
  intros Hh Hle H addr conv Hc. rewrite Hh in Hc.
  apply (clockOrdered_later st); [done|by apply (H addr)].
Qed.

Lemma heapOrdered_perform op st :
  heapOrdered env st → heapOrdered env (perform op env st).2.
Proof.
  intros H. destruct op as [|message cid|c|c| |p]; simpl.
  - by apply heapOrdered_afterCreate.
  - assert (Hst1 : ∀ st1, st1 = st ∨ st1 = afterCreate env st →
                          heapOrdered env st1).
    { intros st1 [->| ->]; [done|by apply heapOrdered_afterCreate]. }
    assert (Hchat : heapOrdered env (chat message cid env st).2).
    { destruct (chat_agent_cases env message cid st)
        as (st1 & Hor & [[Ha Hle]|(stp & addr & final & used & Ha & Hk & ->)]).
      - apply (heapOrdered_same st1); [by rewrite Ha|done|by apply Hst1].
      - apply heapOrdered_recordTurn.
        apply (heapOrdered_same st1); [by rewrite Ha|lia|by apply Hst1]. }
    unfold perform. run_M.
    by destruct (chat message cid env st) as [[r|e] st'].
  - done.
  - unfold clearConversation. run_M.
    destruct (lookupConversation st c); simpl; [|done].
    by apply (heapOrdered_same st).
  - by apply (heapOrdered_same st).
  - by apply (heapOrdered_same st).
Qed.

Lemma reachable_heapOrdered st : reachable env st → heapOrdered env st.
Proof.
  induction 1 as [model|st op _ IH].
  - intros addr conv. done.
  - by apply heapOrdered_perform.
Qed.

Lemma sorted_readings (l : list nat) :
  (∀ n, now env n ≤ now env (S n)) →
  StronglySorted lt l → StronglySorted Z.le (now env <$> l).
Proof.
  intros Hmono. induction 1 as [|x l Hs IH Hx]; [constructor|].
  rewrite fmap_cons. constructor; [done|].
  apply Forall_fmap. eapply Forall_impl; [exact Hx|].
  intros y Hy. simpl. apply (now_le env Hmono). lia.
Qed.

End AgentClock.

(** X16: in every state the agent service reaches, an entry of the
    [Map] of conversations refers to an object that is there and that
    bears the key as its id.  [getConversation] of a key in the [Map]
    answers that object, [chat] finds it, and two keys never refer to one
    object. *)
Theorem conversation_entries_valid env st c addr :
  AgentService.reachable env st →
  conversations (agentService st) !! c = Some addr →
  (∃ conv,
     heap (agentService st) !! addr = Some conv
     ∧ AgentConversation.id conv = c
     ∧ AgentService.getConversation c env st = (Normal (Some conv), st))
  ∧ AgentService.lookupConversation st c = Some addr
  ∧ ∀ c', conversations (agentService st) !! c' = Some addr → c' = c.
Proof.
  intros Hreach Hc. pose proof (reachable_entriesValid env st Hreach) as H.
  destruct (H c addr Hc) as (conv & Hconv & Hid).
  split; [|split].
  - exists conv. split; [done|]. split; [done|].
    unfold AgentService.getConversation. run_M. rewrite Hc. simpl.
    by rewrite Hconv.
  - unfold AgentService.lookupConversation. rewrite Hc. simpl.
    by rewrite Hconv.
  - intros c' Hc'. destruct (H c' addr Hc') as (conv' & Hconv' & Hid').
    congruence.
Qed.

Lemma conversation_entries_valid_witness :
  ∃ conv,
    heap (agentService Samples.state1) !! 0%nat = Some conv
    ∧ AgentConversation.id conv = Samples.conversation1
    ∧ AgentService.getConversation Samples.conversation1 Samples.env
        Samples.state1
      = (Normal (Some conv), Samples.state1).
Proof.
  refine (proj1 (conversation_entries_valid Samples.env Samples.state1
                   Samples.conversation1 0%nat state1_reachable _)).
  by vm_compute.
Defined.

(** X17: in every state the agent service reaches, the messages of a
    conversation come in pairs, a user message and then the assistant
    message that answers it; a user message bears no [toolsUsed], and
    the number of messages is even. *)
Theorem conversation_messages_paired env st addr conv :
  AgentService.reachable env st →
  heap (agentService st) !! addr = Some conv →
  paired (AgentConversation.messages conv) = true
  ∧ Nat.Even (length (AgentConversation.messages conv)).
Proof.
  intros Hreach Hconv.
  pose proof (reachable_heapPaired env st Hreach addr conv Hconv) as H.
  split; [done|by apply paired_even].
Qed.

Lemma conversation_messages_paired_witness :
  ∃ conv,
    heap (agentService Samples.state1) !! 0%nat = Some conv
    ∧ paired (AgentConversation.messages conv) = true
    ∧ Nat.Even (length (AgentConversation.messages conv)).
Proof.
  eexists.
  assert (Hc : heap (agentService Samples.state1) !! 0%nat = Some _)
    by (vm_compute; reflexivity).
  split; [exact Hc|].
  exact (conversation_messages_paired Samples.env Samples.state1 0%nat _
           state1_reachable Hc).
Defined.

(** X18: with a clock that is not set back, the times of a conversation
    are in order in every state the agent service reaches: [createdAt],
    then the [timestamp]s of the messages one after the other, then
    [updatedAt]. *)
Theorem conversation_times_ordered env st addr conv :
  (∀ n, now env n ≤ now env (S n)) →
  AgentService.reachable env st →
  heap (agentService st) !! addr = Some conv →
  StronglySorted Z.le
    (AgentConversation.createdAt conv
     :: (ChatMessage.timestamp <$> AgentConversation.messages conv)
     ++ [AgentConversation.updatedAt conv]).
Proof.
  intros Hmono Hreach Hconv.
  destruct (reachable_heapOrdered env st Hreach addr conv Hconv)
    as (created & stamps & updated & -> & -> & -> & Hsorted & _).
  apply (sorted_readings env _ Hmono) in Hsorted.
  by rewrite fmap_cons, fmap_app in Hsorted.
Qed.

Lemma conversation_times_ordered_witness :
  ∃ conv,
    heap (agentService Samples.state1) !! 0%nat = Some conv
    ∧ StronglySorted Z.le
        (AgentConversation.createdAt conv
         :: (ChatMessage.timestamp <$> AgentConversation.messages conv)
         ++ [AgentConversation.updatedAt conv]).
Proof.
  assert (Hmono : ∀ n, now Samples.env n ≤ now Samples.env (S n)).
  { intros n. simpl. lia. }
  eexists.
  assert (Hc : heap (agentService Samples.state1) !! 0%nat = Some _)
    by (vm_compute; reflexivity).
  split; [exact Hc|].
  exact (conversation_times_ordered Samples.env Samples.state1 0%nat _
           Hmono state1_reachable Hc).
Defined.

(** ** [MCPClientManager]: one caller after the other *)

Section Acquire.
Import MCPClientManager.

Lemma acquire_created s token connect m :
  clients m !! s = None → connectionPromises m !! s = None →
  acquire s token connect m =
    let p := length (attempts m) in
    let outcome := (createClient s token connect).1 in
    Some (match outcome with
          | Connected => Fulfilled p
          | Failed reason => Rejected reason
          | Unsettled => Rejected []
          end,
          mkManager
            (match outcome with
             | Connected => <[s := p]> (clients m)
             | _ => clients m
             end)
            (connectionPromises m)
            (attempts m ++ [mkAttempt s outcome true])
            (if (createClient s token connect).2
             then connectCalls m ++ [p] else connectCalls m)).
Proof.
  intros Hc Hp. unfold acquire, getClient. rewrite Hc, Hp. cbv zeta.
  unfold settleAttempt. cbn [attempts]. rewrite lookup_at_end.
  destruct (createClient s token connect) as [outcome called] eqn:E.
  pose proof (createClient_settled s token connect) as Hset.
  rewrite E in Hset. cbn [fst snd] in *. cbn [mbind option_bind].
  unfold resumeCreator. cbn [attempts]. rewrite insert_at_end, lookup_at_end.
  destruct outcome as [| |reason]; [done| |]; cbn [mbind option_bind];
    cbn [attempts clients connectionPromises connectCalls];
    rewrite insert_at_end, lookup_at_end; cbn [promiseState mbind option_bind];
    rewrite delete_insert_eq, (delete_id _ _ Hp) || rewrite delete_insert by done;
    done.
Qed.

Lemma acquire_run s token connect m r m' :
  clients m !! s = None →
  acquire s token connect m = Some (r, m') →
  run [EvGetClient s; EvSettle (length (attempts m)) token connect;
       EvResume (length (attempts m))] m = Some m'.
Proof.
  intros Hc. unfold acquire, run, step, getClient. rewrite Hc.
  destruct (connectionPromises m !! s) as [q|]; [done|].
  cbn [fst snd mbind option_bind].
  destruct (settleAttempt _ token connect _) as [m2|]; [|done].
  cbn [mbind option_bind].
  destruct (resumeCreator _ m2) as [m3|]; [|done].
  cbn [mbind option_bind].
  destruct (attempts m3 !! _) as [a|]; [|done]. cbn [mbind option_bind].
  destruct (promiseState a); by intros [= _ <-].
Qed.

(** X19: a caller that asks for a client of a service that has none,
    and no attempt in flight, connects once when the token is there and
    the connection succeeds: the attempt is the client, it is stored,
    nothing is left in flight, and [connect] has been called for this
    attempt only.  The state is the one the three steps of [getClient]
    reach, and [initializeService] completes with it.  Every later call
    gets this client and starts no attempt, whatever the token service
    would answer then. *)
Theorem acquire_connects_once s tok m :
  clients m !! s = None →
  connectionPromises m !! s = None →
  let p := length (attempts m) in
  ∃ m',
    acquire s (Fulfilled (Some tok)) (Fulfilled ()) m
    = Some (Fulfilled p, m')
    ∧ clients m' = <[s := p]> (clients m)
    ∧ connectionPromises m' = connectionPromises m
    ∧ connectCalls m' = connectCalls m ++ [p]
    ∧ attemptsFor s m' = S (attemptsFor s m)
    ∧ run [EvGetClient s;
           EvSettle p (Fulfilled (Some tok)) (Fulfilled ());
           EvResume p] m = Some m'
    ∧ Connections.initializeService s (Fulfilled (Some tok)) (Fulfilled ()) m
      = Some (Normal (), m')
    ∧ ∀ token connect,
        acquire s token connect m' = Some (Fulfilled p, m').
Proof.
  intros Hc Hp p.
  pose proof (acquire_created s (Fulfilled (Some tok)) (Fulfilled ()) m Hc Hp)
    as Ha.
  cbv zeta in Ha. cbn [createClient fst snd] in Ha.
  eexists. split; [exact Ha|].
  split; [done|]. split; [done|]. split; [done|]. split; [|split].
  - unfold attemptsFor. cbn [attempts]. rewrite filter_app, length_app.
    rewrite filter_cons, decide_True by done. simpl. lia.
  - by apply (acquire_run s _ _ m (Fulfilled p)).
  - split.
    + unfold Connections.initializeService. by rewrite Ha.
    + intros token connect. unfold acquire, getClient. cbn [clients].
      by rewrite lookup_insert_eq.
Qed.

Lemma acquire_connects_once_witness :
  ∃ m',
    MCPClientManager.acquire notion (Fulfilled (Some (lit "Bearer abc")))
      (Fulfilled ()) MCPClientManager.initial
    = Some (Fulfilled 0%nat, m')
    ∧ MCPClientManager.clients m' = {[ notion := 0%nat ]}.
Proof.
  destruct (acquire_connects_once notion (lit "Bearer abc")
              MCPClientManager.initial eq_refl eq_refl)
    as (m' & Hrun & Hclients & _).
  exists m'. split; [exact Hrun|]. rewrite Hclients. reflexivity.
Defined.

(** X20: an attempt that fails is not remembered.  The caller gets the
    error, which starts with [Failed to connect to] and the name of the
    service, and [initializeService] throws it behind [Failed to
    initialize] and the name of the service; no client is stored and
    nothing is left in flight, so that the next call starts a new
    attempt.  Without a token, [connect] is not called. *)
Theorem acquire_failure_not_cached s token connect reason m :
  clients m !! s = None →
  connectionPromises m !! s = None →
  (createClient s token connect).1 = Failed reason →
  ∃ m',
    acquire s token connect m = Some (Rejected reason, m')
    ∧ (∃ cause, reason = lit "Failed to connect to " ++ serviceName s
                         ++ lit ": " ++ cause)
    ∧ clients m' = clients m
    ∧ connectionPromises m' = connectionPromises m
    ∧ ((∀ t, token ≠ Fulfilled (Some t)) → connectCalls m' = connectCalls m)
    ∧ Connections.initializeService s token connect m
      = Some (Throw (ThrowApiError
                       (lit "Failed to initialize " ++ serviceName s
                        ++ lit ": " ++ reason) None),
              m')
    ∧ ∀ token' connect',
        ∃ r m'',
          acquire s token' connect' m' = Some (r, m'')
          ∧ attemptsFor s m'' = S (attemptsFor s m').
Proof.
  intros Hc Hp Hfail.
  pose proof (acquire_created s token connect m Hc Hp) as Ha.
  cbv zeta in Ha. rewrite Hfail in Ha.
  eexists. split; [exact Ha|].
  split; [|split; [done|split; [done|split; [|split]]]].
  - unfold createClient in Hfail.
    destruct token as [[t|]|r]; [destruct connect as [u|r]|..];
      simpl in Hfail; simplify_eq; eauto.
  - intros Hno. cbn [connectCalls]. unfold createClient.
    destruct token as [[t|]|r]; [by destruct (Hno t)|done|done].
  - unfold Connections.initializeService. by rewrite Ha.
  - intros token' connect'.
    match goal with |- context [acquire _ _ _ ?m1] =>
      pose proof (acquire_created s token' connect' m1 Hc Hp) as Ha';
      cbv zeta in Ha'; rewrite Ha'
    end.
    eexists _, _. split; [done|].
    unfold attemptsFor. cbn [attempts].
    rewrite (filter_app _ (_ ++ _)), length_app.
    rewrite filter_cons, decide_True by done. simpl. lia.
Qed.

Lemma acquire_failure_not_cached_witness :
  ∃ m',
    MCPClientManager.acquire notion (Fulfilled None) (Fulfilled ())
      MCPClientManager.initial
    = Some (Rejected
              (lit "Failed to connect to notion: No OAuth token available for notion. Please authenticate first."),
            m')
    ∧ MCPClientManager.clients m' = ∅
    ∧ MCPClientManager.connectCalls m' = [].
Proof.
  destruct (acquire_failure_not_cached notion (Fulfilled None) (Fulfilled ())
              _ MCPClientManager.initial eq_refl eq_refl eq_refl)
    as (m' & Hrun & _ & Hclients & _ & Hcalls & _).
  exists m'. split; [exact Hrun|]. split; [exact Hclients|].
  apply Hcalls. by intros t.
Defined.

End Acquire.

Section DisconnectAll.
Import MCPClientManager.
Variable close : nat → Settled unit.

Local Abbreviation stepAll :=
  (λ (acc : list (MCPService * jsstring) * Manager) service,
     match disconnect service close acc.2 with
     | (Normal _, m') => (acc.1, m')
     | (Throw e, m') => (acc.1 ++ [(service, errorMessage e)], m')
     end).

Lemma disconnect_fold services failures m :
  NoDup services →
  let result := foldl stepAll (failures, m) services in
  (∀ s, clients result.2 !! s
        = if decide (s ∈ services)
          then c ← clients m !! s;
               match close c with
               | Rejected _ => Some c
               | Fulfilled _ => None
               end
          else clients m !! s)
  ∧ connectionPromises result.2 = connectionPromises m
  ∧ attempts result.2 = attempts m
  ∧ connectCalls result.2 = connectCalls m
  ∧ ∀ s reason,
      (s, reason) ∈ result.1
      ↔ (s, reason) ∈ failures
        ∨ (s ∈ services
           ∧ ∃ c, clients m !! s = Some c ∧ close c = Rejected reason).
Proof.
  revert failures m.
  induction services as [|x services IH]; intros failures m Hnd;
    cbn [foldl].
  { split; [|split; [done|split; [done|split; [done|]]]].
    - intros s. by rewrite decide_False by apply not_elem_of_nil.
    - intros s reason. split; [by left|].
      intros [H|[H _]]; [done|by apply elem_of_nil in H]. }
  apply NoDup_cons in Hnd as [Hx Hnd].
  assert (Hstep : ∃ failures1 m1,
    stepAll (failures, m) x = (failures1, m1)
    ∧ (∀ s, clients m1 !! s
            = if decide (s = x)
              then c ← clients m !! s;
                   match close c with
                   | Rejected _ => Some c
                   | Fulfilled _ => None
                   end
              else clients m !! s)
    ∧ connectionPromises m1 = connectionPromises m
    ∧ attempts m1 = attempts m
    ∧ connectCalls m1 = connectCalls m
    ∧ ∀ s reason,
        (s, reason) ∈ failures1
        ↔ (s, reason) ∈ failures
          ∨ (s = x ∧ ∃ c, clients m !! s = Some c
                          ∧ close c = Rejected reason)).
  { unfold disconnect. cbn [fst snd].
    destruct (clients m !! x) as [c|] eqn:Hc.
    - destruct (close c) as [u|r] eqn:Hclose.
      + eexists _, _. split; [done|].
        split; [|split; [done|split; [done|split; [done|]]]].
        * intros s. simpl. case_decide as Hs.
          -- subst s. by rewrite lookup_delete_eq, Hc; simpl; rewrite Hclose.
          -- by rewrite lookup_delete_ne.
        * intros s reason. split; [by left|].
          intros [H|[-> (c' & Hc' & Hr)]]; [done|]. congruence.
      + eexists _, _. split; [done|].
        split; [|split; [done|split; [done|split; [done|]]]].
        * intros s. case_decide as Hs; [|done].
          subst s. rewrite Hc. simpl. by rewrite Hclose.
        * intros s reason. rewrite elem_of_app, list_elem_of_singleton.
          split.
          -- intros [H|[= -> ->]]; [by left|]. right. split; [done|eauto].
          -- intros [H|[-> (c' & Hc' & Hr)]]; [by left|].
             right. simpl. congruence.
    - eexists _, _. split; [done|].
      split; [|split; [done|split; [done|split; [done|]]]].
      + intros s. case_decide as Hs; [|done]. subst s. by rewrite Hc.
      + intros s reason. split; [by left|].
        intros [H|[-> (c' & Hc' & Hr)]]; [done|]. congruence. }
  destruct Hstep as (failures1 & m1 & -> & Hcl & Hcp & Hat & Hcc & Hf).
  destruct (IH failures1 m1 Hnd) as (Hcl' & Hcp' & Hat' & Hcc' & Hf').
  cbv zeta in *.
  split; [|split; [congruence|split; [congruence|split; [congruence|]]]].
  - intros s. rewrite Hcl', !Hcl.
    destruct (decide (s = x)) as [->|Hne].
    + rewrite decide_False by done. rewrite decide_True by (by left). done.
    + destruct (decide (s ∈ services)) as [Hin|Hin].
      * rewrite decide_True by (by right). done.
      * rewrite decide_False; [done|].
        intros [?|?]%elem_of_cons; done.
  - intros s reason. rewrite Hf', Hf, elem_of_cons.
    split.
    + intros [[H|[-> H]]|[Hin (c & Hc & Hr)]]; [by left|right; eauto|].
      right. split; [by right|].
      rewrite Hcl in Hc. rewrite decide_False in Hc by (by intros ->).
      eauto.
    + intros [H|[[->|Hin] (c & Hc & Hr)]]; [by left; left| |].
      * left. right. eauto.
      * right. split; [done|]. exists c. split; [|done].
        rewrite Hcl. rewrite decide_False by (by intros ->). done.
Qed.

(** X21: [disconnectAll] closes every stored client, and a client is
    deleted from the [Map] exactly when its [close] has fulfilled: a
    client whose [close] rejects stays stored, whatever happens to the
    others.  The services reported as failed are those whose [close]
    rejected, with the reasons, so that the call fulfils exactly when
    every [close] fulfils, and then the [Map] is empty.  The attempts in
    flight are not touched.  [disconnectService] of a client whose
    [close] rejects throws the reason behind [Failed to disconnect from]
    and the name of the service, and leaves the client stored. *)
Theorem disconnectAll_keeps_failed_clients m :
  (∀ s, clients (disconnectAll close m).2 !! s
        = c ← clients m !! s;
          match close c with
          | Rejected _ => Some c
          | Fulfilled _ => None
          end)
  ∧ connectionPromises (disconnectAll close m).2 = connectionPromises m
  ∧ attempts (disconnectAll close m).2 = attempts m
  ∧ connectCalls (disconnectAll close m).2 = connectCalls m
  ∧ (∀ s reason,
       (s, reason) ∈ (disconnectAll close m).1
       ↔ ∃ c, clients m !! s = Some c ∧ close c = Rejected reason)
  ∧ ((disconnectAll close m).1 = [] → clients (disconnectAll close m).2 = ∅)
  ∧ (∀ s c reason,
       clients m !! s = Some c → close c = Rejected reason →
       Connections.disconnectService s close m
       = (Throw (ThrowApiError
                   (lit "Failed to disconnect from " ++ serviceName s
                    ++ lit ": " ++ reason) None),
          m)).
Proof.
  assert (Hone : ∀ s c reason,
    clients m !! s = Some c → close c = Rejected reason →
    Connections.disconnectService s close m
    = (Throw (ThrowApiError
                (lit "Failed to disconnect from " ++ serviceName s
                 ++ lit ": " ++ reason) None),
       m)).
  { intros s c reason Hc Hr.
    unfold Connections.disconnectService, disconnect. by rewrite Hc, Hr. }
  unfold disconnectAll.
  destruct (disconnect_fold ((map_to_list (clients m)).*1) [] m
              (NoDup_fst_map_to_list _))
    as (Hcl & Hcp & Hat & Hcc & Hf).
  cbv zeta in *.
  assert (Hin : ∀ s, s ∈ (map_to_list (clients m)).*1
                     ↔ is_Some (clients m !! s)).
  { intros s. rewrite list_elem_of_fmap. split.
    - intros ([s' c] & -> & H%elem_of_map_to_list). eauto.
    - intros [c Hc]. exists (s, c). split; [done|].
      by apply elem_of_map_to_list. }
  assert (Hclients : ∀ s,
    clients (foldl stepAll ([], m) (map_to_list (clients m)).*1).2 !! s
    = c ← clients m !! s;
      match close c with
      | Rejected _ => Some c
      | Fulfilled _ => None
      end).
  { intros s. rewrite Hcl. case_decide as Hs; [done|].
    destruct (clients m !! s) as [c|] eqn:Hc; [|done].
    exfalso. apply Hs, Hin. eauto. }
  split; [done|]. split; [done|]. split; [done|]. split; [done|].
  split; [|split; [|done]].
  - intros s reason. rewrite Hf. split.
    + intros [H|[_ H]]; [by apply elem_of_nil in H|done].
    + intros (c & Hc & Hr). right. split; [apply Hin|]; eauto.
  - intros Hnil. apply map_eq. intros s. rewrite Hclients, lookup_empty.
    destruct (clients m !! s) as [c|] eqn:Hc; [|done]. simpl.
    destruct (close c) as [u|r] eqn:Hclose; [done|].
    exfalso. assert (Hel : (s, r) ∈ @nil (MCPService * jsstring)).
    { rewrite <- Hnil. apply Hf. right. split; [apply Hin|]; eauto. }
    by apply elem_of_nil in Hel.
Qed.

End DisconnectAll.

(** ** [MCPClientManager.searchService]: the search on one backend *)

Section BackendInvoker.
Import MCPClientManager.
Variable host : Host.
Variable service : MCPService.

Lemma collectLoop_acc results content reads draws :
  collectLoop host service results content reads draws
  = results ++ collectLoop host service [] content reads draws.
Proof.
  revert results reads draws.
  induction content as [|item content IH]; intros results reads draws; simpl.
  - by rewrite app_nil_r.
  - case_decide; [|apply IH].
    rewrite IH, (IH [_]). by rewrite <- app_assoc.
Qed.

Lemma collectLoop_Forall (P : SearchResult → Prop) content reads draws :
  (∀ item r d, P (textResult host service item r d)) →
  Forall P (collectLoop host service [] content reads draws).
Proof.
  intros HP. revert reads draws.
  induction content as [|item content IH]; intros reads draws; simpl;
    [constructor|].
  case_decide; [|apply IH].
  rewrite collectLoop_acc. apply Forall_app. split; [|apply IH].
  by repeat constructor.
Qed.

Lemma collectLoop_content content reads draws :
  SearchResult.content <$> collectLoop host service [] content reads draws
  = textOrDefault
      <$> filter (λ item, ContentItem.type item = lit "text") content.
Proof.
  revert reads draws.
  induction content as [|item content IH]; intros reads draws; simpl;
    [done|].
  rewrite filter_cons. case_decide; [|apply IH].
  rewrite collectLoop_acc, fmap_app, fmap_cons, IH. done.
Qed.

Lemma contentResults_content content :
  SearchResult.content <$> contentResults host service content
  = textOrDefault <$> textItems content.
Proof.
  destruct content as [|items|item]; [done|apply collectLoop_content..].
Qed.

Lemma contentResults_Forall (P : SearchResult → Prop) content :
  (∀ item r d, P (textResult host service item r d)) →
  Forall P (contentResults host service content).
Proof.
  intros HP. destruct content as [|items|item]; [constructor|..];
    by apply collectLoop_Forall.
Qed.

Lemma resourceResults_Forall (P : SearchResult → Prop) resources :
  (∀ i resource, P (resourceResult host service i resource)) →
  Forall P (resourceResults host service resources).
Proof.
  intros HP. destruct resources as [resources|]; [|constructor].
  simpl. apply Forall_lookup. intros i r Hr.
  apply list_lookup_imap_Some in Hr as (resource & _ & ->). apply HP.
Qed.

Lemma searchWith_Forall (P : SearchResult → Prop) session q results :
  (∀ item r d, P (textResult host service item r d)) →
  (∀ i resource, P (resourceResult host service i resource)) →
  searchWith host session service q = Fulfilled results →
  Forall P results.
Proof.
  intros Htext Hres. unfold searchWith.
  destruct (listTools session) as [tools|]; [|done].
  destruct (tools ≫= List.find (isSearchTool host)) as [tool|].
  - destruct (callTool session (McpTool.name tool) q) as [content|]; [|done].
    intros [= <-]. by apply contentResults_Forall.
  - destruct (listResources session) as [resources|]; [|done].
    intros [= <-]. by apply resourceResults_Forall.
Qed.

End BackendInvoker.

#[local] Transparent lit.
Lemma lit_inj s t : lit s = lit t → s = t.
Proof.
  unfold lit. intros H.
  rewrite <- (string_of_list_ascii_of_string s),
          <- (string_of_list_ascii_of_string t).
  f_equal. revert H.
  generalize (list_ascii_of_string s) (list_ascii_of_string t).
  induction l as [|a l IH]; intros [|b k]; simpl; try done.
  intros [= Hab Hlk]. f_equal; [|by apply IH].
  rewrite <- (ascii_N_embedding a), <- (ascii_N_embedding b). by rewrite Hab.
Qed.
#[local] Opaque lit.

Section BackendResults.
Import MCPClientManager.

Lemma readsBack_dated gt host t :
  readsBack gt host →
  (∃ n, t = toISOString host (clock host n)) →
  ∀ r, SearchResult.lastModified r = Some t → SearchService.dated gt r.
Proof.
  intros Hrb [n ->] r Hr. destruct (Hrb n) as [Ht Hg].
  unfold SearchService.dated, SearchService.timeOf. rewrite Hr. simpl.
  by rewrite Ht.
Qed.

Lemma searchWith_dated gt host session service q results :
  readsBack gt host →
  searchWith host session service q = Fulfilled results →
  Forall (SearchService.dated gt) results.
Proof.
  intros Hrb. apply searchWith_Forall.
  - intros item r d. eapply readsBack_dated; [done| |done]. eauto.
  - intros i resource. eapply readsBack_dated; [done| |done]. eauto.
Qed.

Lemma searchWith_source host session service q results :
  searchWith host session service q = Fulfilled results →
  Forall (λ r, SearchResult.source r = service) results.
Proof. by apply searchWith_Forall. Qed.

(** X22: every result the search on a backend returns bears the
    service it was asked for and a [lastModified], the time of the
    retrieval.  With an engine that reads back the strings it writes,
    all results of the two backends are dated, so that the merged list
    is sorted by that time alone, newest first: the comparator of
    [sortSearchResults] does not get to compare sources or titles. *)
Theorem backend_results_ordered_by_time
    (lc : jsstring → jsstring → Z) (gt : jsstring → option Z)
    hostN hostA sessionN sessionA q resultsN resultsA :
  readsBack gt hostN →
  readsBack gt hostA →
  searchWith hostN sessionN notion q = Fulfilled resultsN →
  searchWith hostA sessionA asana q = Fulfilled resultsA →
  Forall (λ r, SearchResult.source r = notion) resultsN
  ∧ Forall (λ r, SearchResult.source r = asana) resultsA
  ∧ Forall (SearchService.dated gt) (resultsN ++ resultsA)
  ∧ StronglySorted (SearchService.newerFirst gt)
      (SearchService.sortSearchResults lc gt (resultsN ++ resultsA)).
Proof.
  intros HrbN HrbA HN HA.
  assert (Hd : Forall (SearchService.dated gt) (resultsN ++ resultsA)).
  { apply Forall_app. split.
    - exact (searchWith_dated gt _ _ _ _ _ HrbN HN).
    - exact (searchWith_dated gt _ _ _ _ _ HrbA HA). }
  split; [exact (searchWith_source _ _ _ _ _ HN)|].
  split; [exact (searchWith_source _ _ _ _ _ HA)|].
  split; [done|].
  by apply sortSearchResults_dated.
Qed.

Lemma backend_results_ordered_by_time_witness :
  ∃ resultsN resultsA,
    searchWith Samples.host Samples.sessionWithSearch notion (lit "roadmap")
    = Fulfilled resultsN
    ∧ searchWith Samples.host Samples.sessionWithResources asana
        (lit "roadmap")
      = Fulfilled resultsA
    ∧ length resultsN = 2%nat
    ∧ length resultsA = 5%nat
    ∧ StronglySorted (SearchService.newerFirst isoGetTime)
        (SearchService.sortSearchResults codeUnitCompare isoGetTime
           (resultsN ++ resultsA)).
Proof.
  assert (Hrb : readsBack isoGetTime Samples.host).
  { intros n. split; [by vm_compute|]. vm_compute. eauto. }
  eexists _, _.
  split; [vm_compute; reflexivity|].
  split; [vm_compute; reflexivity|].
  split; [by vm_compute|]. split; [by vm_compute|].
  refine (proj2 (proj2 (proj2
    (backend_results_ordered_by_time codeUnitCompare isoGetTime
       Samples.host Samples.host Samples.sessionWithSearch
       Samples.sessionWithResources (lit "roadmap") _ _ Hrb Hrb _ _)))).
  - vm_compute. reflexivity.
  - vm_compute. reflexivity.
Defined.

(** X23: the search on a backend without a search tool lists
    resources: it returns one result for each of the first five
    resources, in their order and no more, with the URI as [url], the
    name as title (the URI when there is no name), and ids that differ
    from one another.  No tool is called. *)
Theorem fallback_lists_five_resources
    host session service q tools resources :
  listTools session = Fulfilled tools →
  tools ≫= List.find (isSearchTool host) = None →
  listResources session = Fulfilled (Some resources) →
  ∃ results,
    searchWith host session service q = Fulfilled results
    ∧ length results = Nat.min 5 (length resources)
    ∧ NoDup (SearchResult.id <$> results)
    ∧ SearchResult.url <$> results
      = (λ r, Some (Resource.uri r)) <$> take 5 resources
    ∧ SearchResult.title <$> results
      = (λ r, default (Resource.uri r) (truthy_opt (Resource.name r)))
          <$> take 5 resources
    ∧ Forall (λ r, SearchResult.source r = service) results
    ∧ ∀ session',
        listTools session' = listTools session →
        listResources session' = listResources session →
        searchWith host session' service q = Fulfilled results.
Proof.
  intros Htools Hfind Hres.
  exists (imap (resourceResult host service) (take 5 resources)).
  split; [|split; [|split; [|split; [|split; [|split]]]]].
  - unfold searchWith. by rewrite Htools, Hfind, Hres.
  - by rewrite length_imap, length_take.
  - rewrite fmap_imap. apply NoDup_alt. intros i j x Hi Hj.
    apply list_lookup_imap_Some in Hi as (ri & _ & Hi).
    apply list_lookup_imap_Some in Hj as (rj & _ & Hj).
    simpl in Hi, Hj. rewrite Hi in Hj.
    apply app_inv_head, app_inv_head, lit_inj in Hj.
    by apply (inj pretty) in Hj.
  - rewrite fmap_imap. by rewrite <- imap_const.
  - rewrite fmap_imap. by rewrite <- imap_const.
  - apply Forall_lookup. intros i r Hr.
    by apply list_lookup_imap_Some in Hr as (resource & _ & ->).
  - intros session' Ht Hr. unfold searchWith.
    by rewrite Ht, Htools, Hfind, Hr, Hres.
Qed.

Lemma fallback_lists_five_resources_witness :
  ∃ results,
    searchWith Samples.host Samples.sessionWithResources asana (lit "roadmap")
    = Fulfilled results
    ∧ length results = 5%nat
    ∧ SearchResult.title <$> results
      = [lit "a"; lit "b"; lit "c"; lit "d"; lit "e"].
Proof.
  destruct (fallback_lists_five_resources Samples.host
              Samples.sessionWithResources asana (lit "roadmap") _ _
              eq_refl eq_refl eq_refl)
    as (results & Hrun & Hlen & _ & _ & Htitle & _).
  exists results. split; [exact Hrun|].
  split; [rewrite Hlen; reflexivity|].
  rewrite Htitle. by vm_compute.
Defined.

(** X24: the search on a backend with a search tool calls the first
    tool whose name, in lower case, contains [search] or [find], under
    the name as the server wrote it and with the query as it was given.
    It returns one result for each item of type [text], in the order of
    the content, with the text as content ([No content available] for
    an empty text), the same title for all, and no [url]; the other
    items are dropped, and the resources are not listed. *)
Theorem search_tool_results host session service q tools tool content :
  listTools session = Fulfilled (Some tools) →
  List.find (isSearchTool host) tools = Some tool →
  callTool session (McpTool.name tool) q = Fulfilled content →
  ∃ results,
    searchWith host session service q = Fulfilled results
    ∧ SearchResult.content <$> results = textOrDefault <$> textItems content
    ∧ Forall (λ r, SearchResult.title r
                   = lit "Search result from " ++ serviceName service
                   ∧ SearchResult.url r = None
                   ∧ SearchResult.source r = service) results
    ∧ tool ∈ tools
    ∧ isSearchTool host tool = true
    ∧ ∀ session',
        listTools session' = listTools session →
        callTool session' (McpTool.name tool) q = Fulfilled content →
        searchWith host session' service q = Fulfilled results.
Proof.
  intros Htools Hfind Hcall.
  exists (contentResults host service content).
  split; [|split; [|split; [|split; [|split]]]].
  - unfold searchWith. rewrite Htools. simpl. by rewrite Hfind, Hcall.
  - apply contentResults_content.
  - by apply contentResults_Forall.
  - apply find_some in Hfind as [Hin _]. by apply list_elem_of_In.
  - by apply find_some in Hfind as [_ ?].
  - intros session' Ht Hc. unfold searchWith. rewrite Ht, Htools. simpl.
    by rewrite Hfind, Hc.
Qed.

Lemma search_tool_results_witness :
  ∃ results,
    searchWith Samples.host Samples.sessionWithSearch notion (lit "roadmap")
    = Fulfilled results
    ∧ SearchResult.content <$> results
      = [lit "Roadmap 2024"; lit "No content available"].
Proof.
  destruct (search_tool_results Samples.host Samples.sessionWithSearch
              notion (lit "roadmap") _
              (McpTool.mk (lit "API-post-Search")) _
              eq_refl eq_refl eq_refl)
    as (results & Hrun & Hcontent & _).
  exists results. split; [exact Hrun|]. rewrite Hcontent. by vm_compute.
Defined.

End BackendResults.

Section BackendConnection.
Import MCPClientManager.

Lemma searchService_run_created host sessions s q token connect m :
  clients m !! s = None → connectionPromises m !! s = None →
  ∃ client m',
    acquire s token connect m = Some (client, m')
    ∧ searchService host sessions s q token connect m
      = Some (orSearchFailed s
                (match client with
                 | Rejected reason => Rejected reason
                 | Fulfilled client => searchWith host (sessions client) s q
                 end),
              m').
Proof.
  intros Hc Hp. unfold searchService.
  rewrite (acquire_created s token connect m Hc Hp). cbv zeta.
  eexists _, _. split; [done|]. done.
Qed.

(** X25: a search on a service without a client connects first, with
    the token, and then searches on the client of that attempt; the
    client stays stored.  Every later search on the service, whatever
    its query and whatever the token service would answer then, is made
    on this client and starts no attempt.  A failure of the search
    itself is handed on behind [Search failed for] and the name of the
    service, and does not remove the client. *)
Theorem search_connects_then_reuses host sessions s q tok m :
  clients m !! s = None →
  connectionPromises m !! s = None →
  let p := length (attempts m) in
  ∃ m',
    searchService host sessions s q (Fulfilled (Some tok)) (Fulfilled ()) m
    = Some (orSearchFailed s (searchWith host (sessions p) s q), m')
    ∧ clients m' = <[s := p]> (clients m)
    ∧ connectCalls m' = connectCalls m ++ [p]
    ∧ ∀ host' q' token connect,
        searchService host' sessions s q' token connect m'
        = Some (orSearchFailed s (searchWith host' (sessions p) s q'), m').
Proof.
  intros Hc Hp p. unfold searchService.
  rewrite (acquire_created s _ _ m Hc Hp). cbv zeta.
  cbn [createClient fst snd mbind option_bind].
  eexists. split; [done|]. split; [done|]. split; [done|].
  intros host' q' token connect. unfold acquire, getClient. cbn [clients].
  by rewrite lookup_insert_eq.
Qed.

Lemma search_connects_then_reuses_witness :
  ∃ m',
    searchService Samples.host (λ _, Samples.sessionWithResources) asana
      (lit "roadmap") (Fulfilled (Some (lit "Bearer abc"))) (Fulfilled ())
      initial
    = Some (orSearchFailed asana
              (searchWith Samples.host Samples.sessionWithResources asana
                 (lit "roadmap")),
            m')
    ∧ clients m' = {[ asana := 0%nat ]}.
Proof.
  destruct (search_connects_then_reuses Samples.host
              (λ _, Samples.sessionWithResources) asana (lit "roadmap")
              (lit "Bearer abc") initial eq_refl eq_refl)
    as (m' & Hrun & Hclients & _).
  exists m'. split; [exact Hrun|]. rewrite Hclients. reflexivity.
Defined.

(** X26: a search on a service for which there is no token fails
    before anything is asked of a server: [connect] is not called, no
    client is stored and nothing is left in flight, and the error names
    the service twice, [Search failed for] it and [Failed to connect to]
    it.  Every error of [searchService] starts with [Search failed for]
    and the name of the service. *)
Theorem search_without_token host sessions s q connect m :
  clients m !! s = None →
  connectionPromises m !! s = None →
  (∃ m',
     searchService host sessions s q (Fulfilled None) connect m
     = Some (Rejected
               (lit "Search failed for " ++ serviceName s ++ lit ": "
                ++ lit "Failed to connect to " ++ serviceName s ++ lit ": "
                ++ lit "No OAuth token available for " ++ serviceName s
                ++ lit ". Please authenticate first."),
             m')
     ∧ clients m' = clients m
     ∧ connectionPromises m' = connectionPromises m
     ∧ connectCalls m' = connectCalls m)
  ∧ ∀ token connect' reason m',
      searchService host sessions s q token connect' m
      = Some (Rejected reason, m') →
      ∃ cause,
        reason = lit "Search failed for " ++ serviceName s ++ lit ": "
                 ++ cause.
Proof.
  intros Hc Hp. split.
  - unfold searchService.
    rewrite (acquire_created s _ _ m Hc Hp). cbv zeta.
    cbn [createClient fst snd mbind option_bind].
    eexists. split; [done|]. done.
  - intros token connect' reason m'.
    destruct (searchService_run_created host sessions s q token connect' m
                Hc Hp) as (client & m1 & _ & ->).
    unfold orSearchFailed.
    destruct (match client with
              | Rejected r => Rejected r
              | Fulfilled c => searchWith host (sessions c) s q
              end) as [results|r]; [done|].
    intros [= <- <-]. eauto.
Qed.

Lemma search_without_token_witness :
  ∃ m',
    searchService Samples.host (λ _, Samples.sessionWithSearch) notion
      (lit "roadmap") (Fulfilled None) (Fulfilled ()) initial
    = Some (Rejected
              (lit "Search failed for notion: Failed to connect to notion: No OAuth token available for notion. Please authenticate first."),
            m')
    ∧ connectCalls m' = [].
Proof.
  destruct (proj1 (search_without_token Samples.host
                     (λ _, Samples.sessionWithSearch) notion (lit "roadmap")
                     (Fulfilled ()) initial eq_refl eq_refl))
    as (m' & Hrun & _ & _ & Hcalls).
  exists m'. split; [|exact Hcalls].
  rewrite Hrun. reflexivity.
Defined.

End BackendConnection.

(** ** [SearchService]: the status of the connections *)

Section ConnectionStatus.
Import MCPClientManager Connections.

Lemma getConnectionStatus_cases s auth probe m :
  (connected (getConnectionStatus s auth probe m).1 = true
   → auth = Fulfilled true
     ∧ ∃ c u, clients m !! s = Some c ∧ probe c = Fulfilled u)
  ∧ ((getConnectionStatus s auth probe m).2 = m
     ∨ (getConnectionStatus s auth probe m).2 = evict s m
       ∧ auth = Fulfilled true
       ∧ ∃ c reason, clients m !! s = Some c ∧ probe c = Rejected reason).
Proof.
  unfold getConnectionStatus.
  destruct auth as [[|]|reason]; simpl; try (split; [done|by left]).
  destruct (clients m !! s) as [c|] eqn:Hc; simpl;
    try (split; [done|by left]).
  destruct (probe c) as [u|reason] eqn:Hp; simpl.
  - split; [|by left]. intros _. split; [done|]. eauto.
  - split; [done|]. right. split; [done|]. split; [done|]. eauto.
Qed.

Lemma getOAuthStatus_fulfilled oauthStatus auth probe m :
  getOAuthStatus (Fulfilled oauthStatus) auth probe m
  = (mkOAuthStatus
       (mkStatus
          (connected (notionStatus oauthStatus)
           && connected (getConnectionStatus notion (auth notion) probe m).1)
          (needsAuth (notionStatus oauthStatus)))
       (mkStatus
          (connected (asanaStatus oauthStatus)
           && connected
                (getConnectionStatus asana (auth asana) probe
                   (getConnectionStatus notion (auth notion) probe m).2).1)
          (needsAuth (asanaStatus oauthStatus))),
     (getConnectionStatus asana (auth asana) probe
        (getConnectionStatus notion (auth notion) probe m).2).2).
Proof.
  unfold getOAuthStatus.
  destruct (getConnectionStatus notion (auth notion) probe m) as [n m1].
  cbn [fst snd].
  by destruct (getConnectionStatus asana (auth asana) probe m1) as [a m2].
Qed.

(** X27: [getOAuthStatus] reports a service as connected only when the
    OAuth service says so and the manager holds a client for it that
    still answers; [needsAuth] is what the OAuth service says, whatever
    the manager finds.  When the OAuth service cannot be asked, both
    services are reported as disconnected and in need of authorisation,
    and the manager is not asked.  Asking for the status can delete
    clients, those that no longer answer, and changes nothing else of
    the manager. *)
Theorem getOAuthStatus_needs_both oauth auth probe m s :
  (connected (statusOf s (getOAuthStatus oauth auth probe m).1) = true →
   ∃ oauthStatus c u,
     oauth = Fulfilled oauthStatus
     ∧ connected (statusOf s oauthStatus) = true
     ∧ auth s = Fulfilled true
     ∧ clients m !! s = Some c
     ∧ probe c = Fulfilled u)
  ∧ (∀ oauthStatus,
       oauth = Fulfilled oauthStatus →
       needsAuth (statusOf s (getOAuthStatus oauth auth probe m).1)
       = needsAuth (statusOf s oauthStatus))
  ∧ (∀ reason,
       oauth = Rejected reason →
       getOAuthStatus oauth auth probe m = (disconnectedStatus, m))
  ∧ (clients (getOAuthStatus oauth auth probe m).2 !! s = clients m !! s
     ∨ clients (getOAuthStatus oauth auth probe m).2 !! s = None
       ∧ ∃ c reason, clients m !! s = Some c ∧ probe c = Rejected reason)
  ∧ connectionPromises (getOAuthStatus oauth auth probe m).2
    = connectionPromises m
  ∧ attempts (getOAuthStatus oauth auth probe m).2 = attempts m
  ∧ connectCalls (getOAuthStatus oauth auth probe m).2 = connectCalls m.
Proof.
  destruct oauth as [oauthStatus|reason].
  2: { split; [by destruct s|]. split; [done|]. split; [done|].
       split; [by left|]. done. }
  rewrite getOAuthStatus_fulfilled.
  destruct (getConnectionStatus_cases notion (auth notion) probe m)
    as [Hn Hm1].
  destruct (getConnectionStatus_cases asana (auth asana) probe
              (getConnectionStatus notion (auth notion) probe m).2)
    as [Ha Hm2].
  set (m1 := (getConnectionStatus notion (auth notion) probe m).2) in *.
  set (m2 := (getConnectionStatus asana (auth asana) probe m1).2) in *.
  assert (H1 : clients m1 !! asana = clients m !! asana
               ∧ connectionPromises m1 = connectionPromises m
               ∧ attempts m1 = attempts m ∧ connectCalls m1 = connectCalls m).
  { destruct Hm1 as [->|[-> _]]; [done|]. simpl.
    by rewrite lookup_delete_ne. }
  assert (H2 : clients m2 !! notion = clients m1 !! notion
               ∧ connectionPromises m2 = connectionPromises m1
               ∧ attempts m2 = attempts m1 ∧ connectCalls m2 = connectCalls m1).
  { destruct Hm2 as [->|[-> _]]; [done|]. simpl.
    by rewrite lookup_delete_ne. }
  destruct H1 as (H1c & H1p & H1a & H1k), H2 as (H2c & H2p & H2a & H2k).
  split; [|split; [|split; [|split; [|split; [|split]]]]].
  - cbn [fst]. destruct s; cbn [statusOf notionStatus asanaStatus connected];
      intros [Ho Hc]%andb_prop.
    + destruct (Hn Hc) as (Hauth & c & u & Hcl & Hp).
      by exists oauthStatus, c, u.
    + destruct (Ha Hc) as (Hauth & c & u & Hcl & Hp).
      rewrite H1c in Hcl. by exists oauthStatus, c, u.
  - intros o [= <-]. by destruct s.
  - done.
  - cbn [snd]. destruct s.
    + rewrite H2c. destruct Hm1 as [->|(-> & _ & c & reason & Hc & Hp)];
        [by left|].
      right. simpl. rewrite lookup_delete_eq. eauto.
    + destruct Hm2 as [->|(-> & _ & c & reason & Hc & Hp)];
        [by left|].
      right. simpl. rewrite lookup_delete_eq. rewrite H1c in Hc. eauto.
  - cbn [snd]. congruence.
  - cbn [snd]. congruence.
  - cbn [snd]. congruence.
Qed.

(** X28: [healthCheck] reports success whatever it finds: also when
    the OAuth service cannot be asked and no service is connected, the
    answer is [success: true], with the message that the connected
    services are [none].  The message names the services that
    [getOAuthStatus] reports as connected, [notion] before [asana]. *)
Theorem healthCheck_always_succeeds time oauth auth probe m :
  success (healthCheck time oauth auth probe m).1 = true
  ∧ timestamp (healthCheck time oauth auth probe m).1 = time
  ∧ (healthCheck time oauth auth probe m).2
    = (getOAuthStatus oauth auth probe m).2
  ∧ message (healthCheck time oauth auth probe m).1
    = lit "Search service is healthy. Connected services: "
      ++ match
           connected (notionStatus (getOAuthStatus oauth auth probe m).1),
           connected (asanaStatus (getOAuthStatus oauth auth probe m).1)
         with
         | true, true => lit "notion" ++ lit ", " ++ lit "asana"
         | true, false => lit "notion"
         | false, true => lit "asana"
         | false, false => lit "none"
         end
  ∧ ∀ reason,
      oauth = Rejected reason →
      healthCheck time oauth auth probe m
      = (mkHealthStatus true
           (lit "Search service is healthy. Connected services: "
            ++ lit "none")
           time,
         m).
Proof.
  unfold healthCheck.
  destruct (getOAuthStatus oauth auth probe m) as [status m'] eqn:E.
  cbn [fst snd success timestamp message].
  split; [done|]. split; [done|]. split; [done|]. split.
  - unfold connectedServices. rewrite !filter_cons, filter_nil.
    cbn [fst snd].
    destruct (connected (notionStatus status)),
             (connected (asanaStatus status)); simpl; done.
  - intros reason ->. simpl in E. by simplify_eq.
Qed.

End ConnectionStatus.

(** ** [SearchService]: the searches through the agent, and [ApiClient] *)

Section AgentSearchRuns.
Import AgentSearch.

Lemma conversationalSearch_run message cid env st :
  conversationalSearch message cid env st =
    match AgentService.chat message cid env st with
    | (Normal r, st') =>
        (Normal (ConversationalSearchResult.mk
                   (AgentResponse.response r)
                   (default [] (AgentResponse.searchResults r))
                   (AgentResponse.conversationId r)
                   (AgentResponse.toolsUsed r)),
         st')
    | (Throw e, st') =>
        (Throw (ThrowApiError (lit "AI search failed: " ++ errorMessage e)
                              (Some 500)),
         st')
    end.
Proof.
  unfold conversationalSearch, tryCatch.
  destruct (AgentService.chat message cid env st) as [[r|e] st'] eqn:Hc.
  - by rewrite (bind_Normal _ _ _ _ _ _ Hc).
  - by rewrite (bind_Throw _ _ _ _ _ _ Hc).
Qed.

Lemma settle_Normal {A} (m : M A) env st a st' :
  m env st = (Normal a, st') → settle m env st = (Normal (Fulfilled a), st').
Proof. unfold settle. by intros ->. Qed.

Lemma settle_Throw {A} (m : M A) env st e st' :
  m env st = (Throw e, st') →
  settle m env st = (Normal (Rejected (errorMessage e)), st').
Proof. unfold settle. by intros ->. Qed.

Lemma hybridSearch_cases query env st :
  ∃ found st1 answer st2,
    match SearchService.search query env st with
    | (Normal value, s) => found = value ∧ st1 = s
    | (Throw _, s) => found = [] ∧ st1 = s
    end
    ∧ match AgentService.chat query None env st1 with
      | (Normal r, s) =>
          answer = ConversationalSearchResult.mk
                     (AgentResponse.response r)
                     (default [] (AgentResponse.searchResults r))
                     (AgentResponse.conversationId r)
                     (AgentResponse.toolsUsed r)
          ∧ st2 = s
      | (Throw _, s) => answer = unavailable ∧ st2 = s
      end
    ∧ hybridSearch query env st
      = (Normal (HybridSearchResult.mk found
                   (ConversationalSearchResult.response answer)
                   (SearchService.deduplicateResults
                      (found
                       ++ ConversationalSearchResult.searchResults answer))
                   (ConversationalSearchResult.conversationId answer)),
         st2).
Proof.
  unfold hybridSearch, tryCatch.
  destruct (SearchService.search query env st) as [[value|e1] st1] eqn:Hs.
  - rewrite (bind_Normal _ _ _ _ _ _ (settle_Normal _ _ _ _ _ Hs)).
    pose proof (conversationalSearch_run query None env st1) as Hc.
    destruct (AgentService.chat query None env st1) as [[r|e2] st2] eqn:Hchat.
    + rewrite (bind_Normal _ _ _ _ _ _ (settle_Normal _ _ _ _ _ Hc)).
      eexists _, st1, _, _. split; [done|]. rewrite Hchat.
      split; [done|]. done.
    + rewrite (bind_Normal _ _ _ _ _ _ (settle_Throw _ _ _ _ _ Hc)).
      eexists _, st1, _, _. split; [done|]. rewrite Hchat.
      split; [done|]. done.
  - rewrite (bind_Normal _ _ _ _ _ _ (settle_Throw _ _ _ _ _ Hs)).
    pose proof (conversationalSearch_run query None env st1) as Hc.
    destruct (AgentService.chat query None env st1) as [[r|e2] st2] eqn:Hchat.
    + rewrite (bind_Normal _ _ _ _ _ _ (settle_Normal _ _ _ _ _ Hc)).
      eexists _, st1, _, _. split; [done|]. rewrite Hchat.
      split; [done|]. done.
    + rewrite (bind_Normal _ _ _ _ _ _ (settle_Throw _ _ _ _ _ Hc)).
      eexists _, st1, _, _. split; [done|]. rewrite Hchat.
      split; [done|]. done.
Qed.

Lemma search_throws_ApiError query env st e st' :
  SearchService.search query env st = (Throw e, st') →
  ∃ message code, e = ThrowApiError message code.
Proof.
  destruct (blank query) eqn:Hb.
  - unfold SearchService.search. rewrite Hb, orb_true_r.
    intros [= <- <-]. eauto.
  - by rewrite (search_runs env st query Hb).
Qed.

Lemma chat_new_conversation_heap message env st :
  blank message = false →
  length (heap (agentService (AgentService.chat message None env st).2))
  = S (length (heap (agentService st))).
Proof.
  intros Hb. rewrite chat_run, Hb, (blank_false_truthy _ Hb).
  cbn [negb orb]. rewrite resolveConversation_run. cbn [truthy_opt].
  destruct (chatTurn_cases message (newConversationId env st)
              (length (heap (agentService st))) env (afterCreate env st))
    as [(e & st' & -> & Ha & _)|(final & run & stp & -> & Ha & _)].
  - cbn [snd]. rewrite Ha. simpl. rewrite length_app. simpl. lia.
  - cbn [snd]. unfold recordTurn. cbn [agentService heap].
    rewrite length_alter, Ha. simpl. rewrite length_app. simpl. lia.
Qed.

End AgentSearchRuns.

(** X29: [hybridSearch] does not throw, whatever the query and whatever
    the backends and the model do.  [directResults] is what [search]
    returns, and nothing when [search] throws.  The agent is asked after
    the search, in a new conversation: when its chat completes,
    [aiResponse] and [conversationId] are those of its answer, and
    [combinedResults] is the deduplicated list of the direct results
    followed by the results of the agent; when its chat throws,
    [aiResponse] is [AI search unavailable], the conversation id is empty,
    and [combinedResults] is the deduplicated list of the direct results.
    The state is the one the chat leaves.  No two entries of
    [combinedResults] have the same key, and every direct result has an
    entry with its key in it.  For a blank query the state is left as it
    was and everything is empty; for any other query the agent service
    holds one conversation more afterwards, whether the model has answered
    or not. *)
Theorem hybridSearch_never_throws query env st :
  ∃ result st',
    AgentSearch.hybridSearch query env st = (Normal result, st')
    ∧ NoDup (SearchService.resultKey
               <$> AgentSearch.HybridSearchResult.combinedResults result)
    ∧ (∀ r, r ∈ AgentSearch.HybridSearchResult.directResults result →
         ∃ r0,
           r0 ∈ AgentSearch.HybridSearchResult.combinedResults result
           ∧ SearchService.resultKey r0 = SearchService.resultKey r)
    ∧ AgentSearch.HybridSearchResult.directResults result
      = match (SearchService.search query env st).1 with
        | Normal found => found
        | Throw _ => []
        end
    ∧ match AgentService.chat query None env
              (SearchService.search query env st).2 with
      | (Normal r, st2) =>
          AgentSearch.HybridSearchResult.aiResponse result
          = AgentResponse.response r
          ∧ AgentSearch.HybridSearchResult.conversationId result
            = AgentResponse.conversationId r
          ∧ AgentSearch.HybridSearchResult.combinedResults result
            = SearchService.deduplicateResults
                (AgentSearch.HybridSearchResult.directResults result
                 ++ default [] (AgentResponse.searchResults r))
          ∧ st' = st2
      | (Throw _, st2) =>
          AgentSearch.HybridSearchResult.aiResponse result
          = lit "AI search unavailable"
          ∧ AgentSearch.HybridSearchResult.conversationId result = []
          ∧ AgentSearch.HybridSearchResult.combinedResults result
            = SearchService.deduplicateResults
                (AgentSearch.HybridSearchResult.directResults result)
          ∧ st' = st2
      end
    ∧ (blank query = true →
       result = AgentSearch.HybridSearchResult.mk
                  [] (lit "AI search unavailable") [] []
       ∧ st' = st)
    ∧ (blank query = false →
       (SearchService.search query env st).1
       = Normal (AgentSearch.HybridSearchResult.directResults result)
       ∧ length (heap (agentService st'))
         = S (length (heap (agentService st)))).
Proof.
  destruct (hybridSearch_cases query env st)
    as (found & st1 & answer & st2 & Hs & Hc & ->).
  assert (Hfirst :
    st1 = (SearchService.search query env st).2
    ∧ found = match (SearchService.search query env st).1 with
              | Normal value => value
              | Throw _ => []
              end).
  { destruct (SearchService.search query env st) as [[v|e] s];
      by destruct Hs as [-> ->]. }
  destruct Hfirst as [Hst1 Hfound].
  eexists _, _. split; [done|].
  cbn [AgentSearch.HybridSearchResult.combinedResults
       AgentSearch.HybridSearchResult.directResults
       AgentSearch.HybridSearchResult.aiResponse
       AgentSearch.HybridSearchResult.conversationId].
  split; [|split; [|split; [|split; [|split]]]].
  - rewrite deduplicateResults_firstOccurrences. apply firstOccurrences_NoDup.
  - intros r Hr. rewrite deduplicateResults_firstOccurrences.
    apply firstOccurrences_covers; [|set_solver].
    apply elem_of_app. by left.
  - exact Hfound.
  - rewrite <- Hst1.
    destruct (AgentService.chat query None env st1) as [[r|e] s2];
      destruct Hc as [-> ->]; simpl; [done|].
    by rewrite app_nil_r.
  - intros Hb.
    assert (Hsearch : SearchService.search query env st
                 = (Throw (ThrowApiError (lit "Search query cannot be empty")
                             None), st)).
    { unfold SearchService.search. by rewrite Hb, orb_true_r. }
    rewrite Hsearch in Hs. destruct Hs as [-> ->].
    assert (Hchat : AgentService.chat query None env st
                 = (Throw (ThrowApiError (lit "Message cannot be empty")
                             None), st)).
    { unfold AgentService.chat. by rewrite Hb, orb_true_r. }
    rewrite Hchat in Hc. by destruct Hc as [-> ->].
  - intros Hb. rewrite (search_runs env st query Hb) in Hs |- *.
    destruct Hs as [-> ->]. split; [done|].
    match type of Hc with context [AgentService.chat query None env ?s1] =>
      pose proof (chat_new_conversation_heap query env s1 Hb) as Hh;
      destruct (AgentService.chat query None env s1) as [[r|e] s2]
    end; destruct Hc as [_ ->]; exact Hh.
Qed.

(** X30: [ApiClient] adds the check of the input and nothing else.  Its
    [search] is [search] of the search service for every query.  For a
    message or a query that is not blank, its [conversationalSearch] and
    its [hybridSearch] are those of the search service; for a blank one
    they throw the validation error and leave the state as it was, where
    [conversationalSearch] of the search service would have thrown [AI
    search failed], with status 500.  Every error of
    [conversationalSearch] is an [ApiError], and when the model rejects
    the first request of a chat, its message is the reason behind the
    words of the three layers. *)
Theorem apiClient_adds_validation_only env st :
  (∀ query,
     ApiClient.search query env st = SearchService.search query env st)
  ∧ (∀ message cid,
       blank message = false →
       ApiClient.conversationalSearch message cid env st
       = AgentSearch.conversationalSearch message cid env st)
  ∧ (∀ message cid,
       blank message = true →
       ApiClient.conversationalSearch message cid env st
       = (Throw (ThrowApiError (lit "Message cannot be empty") None), st)
       ∧ AgentSearch.conversationalSearch message cid env st
         = (Throw (ThrowApiError
                     (lit "AI search failed: "
                      ++ lit "Message cannot be empty") (Some 500)), st))
  ∧ (∀ query,
       blank query = false →
       ApiClient.hybridSearch query env st
       = AgentSearch.hybridSearch query env st)
  ∧ (∀ query,
       blank query = true →
       ApiClient.hybridSearch query env st
       = (Throw (ThrowApiError (lit "Search query cannot be empty") None),
          st))
  ∧ (∀ message cid e st',
       ApiClient.conversationalSearch message cid env st = (Throw e, st') →
       ∃ text code, e = ThrowApiError text code)
  ∧ (∀ message c addr reason,
       blank message = false →
       truthy c = true →
       AgentService.lookupConversation st c = Some addr →
       sendOutcome env (length (sends (calls st))) (firstInput st message)
       = Rejected reason →
       ApiClient.conversationalSearch message (Some c) env st
       = (Throw (ThrowApiError
                   (lit "AI search failed: "
                    ++ lit "Agent conversation failed: "
                    ++ lit "LLM conversation failed: " ++ reason)
                   (Some 500)),
          logSend (firstInput st message) st)).
Proof.
  assert (Hconv : ∀ message cid,
    blank message = false →
    ApiClient.conversationalSearch message cid env st
    = AgentSearch.conversationalSearch message cid env st).
  { intros message cid Hb. unfold ApiClient.conversationalSearch.
    rewrite Hb, (blank_false_truthy _ Hb). cbn [negb orb].
    unfold tryCatch. rewrite conversationalSearch_run.
    by destruct (AgentService.chat message cid env st) as [[r|e] st']. }
  split; [|split; [|split; [|split; [|split; [|split]]]]].
  - intros query. unfold ApiClient.search.
    destruct (negb (truthy query) || blank query) eqn:Hv.
    + unfold SearchService.search. by rewrite Hv.
    + unfold tryCatch.
      destruct (SearchService.search query env st) as [[v|e] st'] eqn:Hs;
        [done|].
      by destruct (search_throws_ApiError _ _ _ _ _ Hs) as (t & c & ->).
  - exact Hconv.
  - intros message cid Hb. split.
    + unfold ApiClient.conversationalSearch. by rewrite Hb, orb_true_r.
    + rewrite conversationalSearch_run. unfold AgentService.chat.
      by rewrite Hb, orb_true_r.
  - intros query Hb. unfold ApiClient.hybridSearch.
    rewrite Hb, (blank_false_truthy _ Hb). cbn [negb orb].
    unfold tryCatch.
    by destruct (hybridSearch_cases query env st)
      as (found & st1 & answer & st2 & _ & _ & ->).
  - intros query Hb. unfold ApiClient.hybridSearch.
    by rewrite Hb, orb_true_r.
  - intros message cid e st'. destruct (blank message) eqn:Hb.
    + unfold ApiClient.conversationalSearch. rewrite Hb, orb_true_r.
      intros [= <- <-]. eauto.
    + rewrite (Hconv message cid Hb), conversationalSearch_run.
      destruct (AgentService.chat message cid env st) as [[r|e'] st2];
        [done|].
      intros [= <- <-]. eauto.
  - intros message c addr reason Hb Ht Hl Hsend.
    rewrite (Hconv message (Some c) Hb), conversationalSearch_run.
    rewrite chat_run, Hb, (blank_false_truthy _ Hb). cbn [negb orb].
    rewrite resolveConversation_run. cbn [truthy_opt]. rewrite Ht, Hl.
    by rewrite chatTurn_run, Hsend.
Qed.

(** The chat of the sample run that the model throttles, through the
    three layers. *)
Example apiClient_error_sample :
  (ApiClient.conversationalSearch (lit "more") (Some Samples.conversation1)
     Samples.env Samples.state2).1
  = Throw (ThrowApiError
             (lit "AI search failed: Agent conversation failed: LLM conversation failed: ThrottlingException")
             (Some 500)).
Proof. by vm_compute. Qed.
